(** * A fixed-width unsigned number in an arbitrary base, and its signed wrapper

    Shallow embedding of [number.hpp] (class [number<TDigit, NDigits, NDigitMax>])
    and [integer.hpp] (class [integer<TNumber>]), and the properties of both
    that the specification states.

    A [number] is its array of digits, most significant digit first, as the
    class stores it.  The three template parameters appear as
    - [W], the number of bits of [TDigit] (8, 16 or 32),
    - [M], the value of [NDigitMax], so that the base is [M + 1],
    - the length of the digit list, [NDigits].

    Native C++ integers are integers of [Z].  A value is reduced modulo the
    width of its C++ type wherever it is stored in, or converted to, a
    narrower type than the one it was computed in ([dig], [bigd], [u32],
    [wrap]); sums and products whose operands are bounded by their own types
    below the width of the type that computes them are written as they
    are.  [unsigned] and [int] have 32 bits.

    Functions that can fault or run for ever return an [option]: [None]
    stands for an integer division by zero of the machine, for a signed
    overflow (in the conversion of the wrapper to a native type), or for a
    loop that has not ended within the turns it is given.  The two outer
    [while] loops ([pow], [to_string]) take their fuel as an argument. *)

From Stdlib Require Import ZArith Zpow_facts Lia Ascii String.
From stdpp Require Import base list.
Local Open Scope Z_scope.

(** ** Native unsigned integers *)

(** An unsigned integer of [w] bits holding the mathematical value [x]. *)
Definition wrap (w x : Z) : Z := x mod 2 ^ w.

(** [unsigned] is 32 bits wide (the repository is built with g++). *)
Definition u32 (x : Z) : Z := wrap 32 x.

(** Conversion of an [unsigned] to [int]. *)
Definition to_int (x : Z) : Z :=
  let y := u32 x in if y <? 2 ^ 31 then y else y - 2 ^ 32.

(** The indices [0, 1, ..., n - 1] of a counting loop. *)
Definition upto (n : Z) : list Z := map Z.of_nat (seq 0 (Z.to_nat n)).

(** A [while] loop whose body [step] either goes on with a new state or
    ends with a result: [loop k step s] runs it for at most [2 ^ k] turns
    and is [inl] of the state reached when it has not ended by then. *)
Fixpoint loop {S R : Type} (k : nat) (step : S -> S + R) (s : S) : S + R :=
  match k with
  | O => step s
  | S k' =>
      match loop k' step s with
      | inl s' => loop k' step s'
      | inr r => inr r
      end
  end.

(** [enum class string_base]. *)
Inductive string_base : Set := binary | octal | decimal | hexadecimal.

Definition to_underlying (sb : string_base) : Z :=
  match sb with
  | binary => 2
  | octal => 8
  | decimal => 10
  | hexadecimal => 16
  end.

(** ** The unsigned engine *)

(** [std::array<digit_type, num_digits>], index zero most significant. *)
Abbreviation number := (list Z).

Section Engine.

(** Bits of [TDigit], and [NDigitMax]. *)
Variable W : Z.
Variable M : Z.

(** Conversions to [digit_type] and to [big_digit_type]. *)
Definition dig (x : Z) : Z := wrap W x.
Definition bigd (x : Z) : Z := wrap (2 * W) x.

(** [static constexpr big_digit_type base = digit_max + 1]. *)
Definition base : Z := M + 1.

Definition num_digits (a : number) : Z := Z.of_nat (length a).

(** The default constructor: [digits_.fill(0U)]. *)
Definition zero (N : nat) : number := replicate N 0.

(** [digit(unsigned power)]: the argument is converted to [unsigned]. *)
Definition digit (a : number) (power : Z) : Z :=
  let p := u32 power in
  if p >=? num_digits a then 0
  else a !!! Z.to_nat (num_digits a - 1 - p).

(** [set_digit(unsigned power, digit_type value)]: both arguments are
    converted to the parameter types; out of range it does nothing. *)
Definition set_digit (a : number) (power value : Z) : number :=
  let p := u32 power in
  if p <? num_digits a
  then <[Z.to_nat (num_digits a - 1 - p) := dig (dig value mod base)]> a
  else a.

(** [most_significant_digit()]: the counter starts at [num_digits] and
    goes down by one for every leading zero. *)
Fixpoint msd_loop (ds : list Z) (n : Z) : Z :=
  match ds with
  | [] => n
  | d :: ds' => if d =? 0 then msd_loop ds' (u32 (n - 1)) else n
  end.

Definition most_significant_digit (a : number) : Z :=
  msd_loop a (num_digits a).

(** [operator=(T value)] for a native unsigned [value]: the first loop
    stores [value % base] from the least significant digit on while
    [value != 0], the second loop clears what is left.  The digits are
    produced least significant first. *)
Fixpoint assign_digits (n : nat) (value : Z) : list Z :=
  match n with
  | O => []
  | S n' =>
      if value =? 0 then replicate n 0
      else dig (value mod base) :: assign_digits n' (value / base)
  end.

(** [number(T value)]. *)
Definition from_native (N : nat) (value : Z) : number :=
  rev (assign_digits N value).

(** [operator T()] for a native unsigned type of [w] bits.  [ds] are the
    digits least significant first; [power_previous] is a
    [big_digit_type]. *)
Fixpoint to_native_loop (w : Z) (ds : list Z) (value power : Z) : Z :=
  match ds with
  | [] => value
  | d :: ds' =>
      let power_previous := bigd power in
      let value' := wrap w (value + power * d) in
      let power' := wrap w (power * base) in
      if power' <? power_previous then value'
      else to_native_loop w ds' value' power'
  end.

Definition to_native (w : Z) (a : number) : Z :=
  to_native_loop w (rev a) 0 (wrap w 1).

(** [operator=(const number<digit_type, NDigits2, digit_max>&)], used by
    the widening constructor. *)
Definition widen (N : nat) (value : number) : number :=
  fold_left (fun r i => set_digit r i (digit value i))
            (upto (Z.of_nat N)) (zero N).

(** [operator<=>] is defaulted: the arrays are compared
    lexicographically from index zero. *)
Fixpoint compare (a b : number) : comparison :=
  match a, b with
  | x :: a', y :: b' =>
      match x ?= y with
      | Eq => compare a' b'
      | c => c
      end
  | _, _ => Eq
  end.

Definition eqb (a b : number) : bool :=
  match compare a b with Eq => true | _ => false end.

Definition ltb (a b : number) : bool :=
  match compare a b with Lt => true | _ => false end.

Definition gtb (a b : number) : bool :=
  match compare a b with Gt => true | _ => false end.

(** [operator+]: the three reverse iterators walk from the least
    significant digit; [carry] is an [unsigned]. *)
Fixpoint add_loop (op1 op2 : list Z) (carry : Z) : list Z :=
  match op1, op2 with
  | d1 :: op1', d2 :: op2' =>
      let digit_result := bigd (d1 + d2 + carry) in
      let carry' := if digit_result >=? base then 1 else 0 in
      dig (digit_result mod base) :: add_loop op1' op2' carry'
  | _, _ => []
  end.

Definition add (a rhs : number) : number :=
  rev (add_loop (rev a) (rev rhs) 0).

(** [operator-]: [borrow + *op2] is computed in [unsigned]. *)
Fixpoint sub_loop (op1 op2 : list Z) (borrow : Z) : list Z :=
  match op1, op2 with
  | d1 :: op1', d2 :: op2' =>
      let digit_result := bigd ((base + d1) - u32 (borrow + d2)) in
      let borrow' := if digit_result <? base then 1 else 0 in
      dig (digit_result mod base) :: sub_loop op1' op2' borrow'
  | _, _ => []
  end.

Definition sub (a rhs : number) : number :=
  rev (sub_loop (rev a) (rev rhs) 0).

(** [operator*]: the inner loop of the schoolbook product, for one digit
    [j] of [rhs]; [k] is a [digit_type], [t] a [big_digit_type]. *)
Definition mul_step (a rhs : number) (j : Z) (st : number * Z) (i : Z)
  : number * Z :=
  let '(w, k) := st in
  let t := bigd (digit a i * digit rhs j + digit w (i + j) + k) in
  (set_digit w (i + j) (t mod base), dig (t / base)).

Definition mul_row (a rhs : number) (m : Z) (w : number) (j : Z) : number :=
  let '(w', k) := fold_left (mul_step a rhs j) (upto m) (w, 0) in
  set_digit w' (j + m) k.

Definition mul (a rhs : number) : number :=
  let n := most_significant_digit rhs in
  let m := most_significant_digit a in
  fold_left (mul_row a rhs m) (upto n) (zero (length a)).

(** [operator/].  The result is [None] when the machine would fault on
    an integer division by zero, or when one of the two [while] loops has
    not finished after [2 ^ (2 * W)] turns (their counters are
    [big_digit_type] values, so a loop that ends needs fewer turns). *)

(** First correction loop of the quotient digit, on the state
    [(qh, rh)]: the test, then the body with its [break].  The second half
    of the test is evaluated only for [qh < base], and [rh < base] at every
    test, so both of its sides are below [base * base]. *)
Definition correct_estimate_step (d1 d2 u2 : Z) (st : Z * Z)
  : (Z * Z) + (Z * Z) :=
  let '(qh, rh) := st in
  if (qh >=? base) || (qh * d2 >? base * rh + u2) then
    let qh' := bigd (qh - 1) in
    let rh' := bigd (rh + d1) in
    if rh' >=? base then inr (qh', rh') else inl (qh', rh')
  else inr (qh, rh).

(** Second correction loop, [while (sig < trial)], on the state
    [(qh, trial)]. *)
Definition correct_trial_step (N1 : nat) (sig den : number)
    (st : Z * number) : (Z * number) + (Z * number) :=
  let '(qh, trial) := st in
  if ltb sig trial then
    let qh' := bigd (qh - 1) in
    inl (qh', mul (from_native N1 qh') den)
  else inr (qh, trial).

(** The indices [j + n, j + n - 1, ..., j] of the two window loops. *)
Definition window (j n : Z) : list Z :=
  map (fun k => j + n - k) (upto (n + 1)).

(** One quotient digit: the body of the [for (int j = m; j >= 0; --j)]
    loop, on the state (numerator, quotient). *)
Definition div_step (N1 : nat) (den : number) (n : Z)
    (st : option (number * number)) (j : Z) : option (number * number) :=
  match st with
  | None => None
  | Some (num, quotient) =>
      let top := bigd (digit num (j + n) * base + digit num (j + n - 1)) in
      let d1 := digit den (n - 1) in
      if d1 =? 0 then None
      else
        match loop (Z.to_nat (2 * W))
                (correct_estimate_step d1 (digit den (n - 2))
                   (digit num (j + n - 2)))
                (top / d1, top mod d1) with
        | inl _ => None
        | inr (qh, _) =>
            let sig :=
              fold_left (fun s i => set_digit s (i - j) (digit num i))
                        (window j n) (zero N1) in
            let trial := mul (from_native N1 qh) den in
            match loop (Z.to_nat (2 * W))
                    (correct_trial_step N1 sig den) (qh, trial) with
            | inl _ => None
            | inr (qh', trial') =>
                let quotient' := set_digit quotient j qh' in
                let diff := sub sig trial' in
                let num' :=
                  fold_left (fun u i => set_digit u i (digit diff (i - j)))
                            (window j n) num in
                Some (num', quotient')
            end
        end
  end.

Definition div (a rhs : number) : option number :=
  let N := length a in
  if eqb a (from_native N 0) || eqb rhs (from_native N 0) || gtb rhs a
  then Some (from_native N 0)
  else if eqb rhs a then Some (from_native N 1)
  else if eqb rhs (from_native N 1) then Some a
  else
    let divisor := u32 (digit rhs (most_significant_digit rhs - 1) + 1) in
    if divisor =? 0 then None
    else
      let norm := from_native (S N) (base / divisor) in
      let num := mul (widen (S N) a) norm in
      let den := mul (widen (S N) rhs) norm in
      let n := most_significant_digit den in
      let m := u32 (most_significant_digit num - n) in
      match fold_left (div_step (S N) den n)
              (rev (upto (to_int m + 1))) (Some (num, zero N)) with
      | None => None
      | Some (_, quotient) => Some quotient
      end.

(** [operator%]: the dividend minus the product of the quotient and [rhs]. *)
Definition modulo (a rhs : number) : option number :=
  match div a rhs with
  | None => None
  | Some q => Some (sub a (mul q rhs))
  end.

(** [pow]: the [while] loop takes its fuel from the caller. *)
Fixpoint pow_loop (fuel : nat) (result b exponent : number)
  : option number :=
  if eqb exponent (from_native (length exponent) 0) then Some result
  else
    match fuel with
    | O => None
    | S fuel' =>
        let result' :=
          if Z.land (digit exponent 0) 1 =? 0 then result
          else mul result b in
        match div exponent (from_native (length exponent) 2) with
        | None => None
        | Some exponent' => pow_loop fuel' result' (mul b b) exponent'
        end
    end.

Definition pow (fuel : nat) (a exponent : number) : option number :=
  pow_loop fuel (from_native (length a) 1) a exponent.

(** [to_string]: the character for one digit value, the loop collecting
    the characters least significant first, and the final reversal. *)
Definition digit_char (string_digit : Z) : ascii :=
  if string_digit <=? 9
  then ascii_of_nat (Z.to_nat ((48 + string_digit) mod 256))
  else ascii_of_nat (Z.to_nat ((97 + (string_digit - 10) mod 256) mod 256)).

Fixpoint to_string_loop (fuel : nat) (n b : number) (s : list ascii)
  : option (list ascii) :=
  if eqb n (from_native (length n) 0) then Some s
  else
    match fuel with
    | O => None
    | S fuel' =>
        match modulo n b, div n b with
        | Some r, Some n' =>
            to_string_loop fuel' n' b (s ++ [digit_char (to_native 32 r)])
        | _, _ => None
        end
    end.

Definition to_string (fuel : nat) (a : number) (sb : string_base)
  : option string :=
  match to_string_loop fuel a (from_native (length a) (to_underlying sb)) []
  with
  | None => None
  | Some s => Some (string_of_list_ascii (rev s))
  end.

(** [from_string]: the lambda [decode_char], then the loop over the
    characters from the last to the first. *)
Definition decode_char (input_base : string_base) (c : ascii) : option Z :=
  let n := Z.of_nat (nat_of_ascii c) in
  let value :=
    if (48 <=? n) && (n <=? 57) then Some (n - 48)
    else if (97 <=? n) && (n <=? 102) then Some (10 + (n - 97))
    else if (65 <=? n) && (n <=? 70) then Some (10 + (n - 65))
    else None in
  match value with
  | Some v => if v <? to_underlying input_base then Some v else None
  | None => None
  end.

Fixpoint from_string_loop (N : nat) (input_base : string_base)
    (cs : list ascii) (result power base_number : number) : option number :=
  match cs with
  | [] => Some result
  | c :: cs' =>
      match decode_char input_base c with
      | Some value =>
          from_string_loop N input_base cs'
            (add result (mul (from_native N value) power))
            (mul power base_number) base_number
      | None => None
      end
  end.

Definition from_string (N : nat) (input_string : string)
    (input_base : string_base) : option number :=
  from_string_loop N input_base (rev (list_ascii_of_string input_string))
    (zero N) (from_native N 1) (from_native N (to_underlying input_base)).

(** Prefix [operator++]: [*this = *this + number(1U)]; the number the
    object holds afterwards.  [operator+=] stores [*this + rhs] the same
    way. *)
Definition increment (a : number) : number :=
  add a (from_native (length a) 1).

(** Postfix [operator++]: the copy that is returned, and the number the
    object holds afterwards. *)
Definition post_increment (a : number) : number * number :=
  (a, increment a).

End Engine.

(** ** The signed wrapper *)

Section Wrapper.

Variable W : Z.
Variable M : Z.

(** [class integer]: the two private members, in declaration order. *)
Record integer : Type := Integer {
  positive_ : bool;
  magnitude_ : number
}.

(** The defaulted default constructor: [positive_ = true] and a default
    [number_type]. *)
Definition integer_default (N : nat) : integer := Integer true (zero N).

(** [operator=(T value)] for a native integer of [w] bits; the cast to
    [std::make_unsigned_t<T>] is the reduction modulo [2 ^ w]. *)
Definition integer_of_native (N : nat) (w : Z) (value : Z) : integer :=
  let positive := value >=? 0 in
  if positive then Integer positive (from_native W M N (wrap w value))
  else Integer positive (from_native W M N (wrap w (value * -1))).

(** Unary [operator+]. *)
Definition integer_plus (x : integer) : integer :=
  Integer true (magnitude_ x).

(** Binary [operator+]. *)
Definition integer_add (x rhs : integer) : integer :=
  if Bool.eqb (positive_ x) (positive_ rhs) then
    Integer (positive_ x) (add W M (magnitude_ x) (magnitude_ rhs))
  else if ltb (magnitude_ x) (magnitude_ rhs) then
    Integer (positive_ rhs) (sub W M (magnitude_ rhs) (magnitude_ x))
  else if gtb (magnitude_ x) (magnitude_ rhs) then
    Integer (positive_ x) (sub W M (magnitude_ x) (magnitude_ rhs))
  else integer_default (length (magnitude_ x)).

(** Unary [operator-]. *)
Definition integer_neg (x : integer) : integer :=
  if negb (eqb (magnitude_ x)
               (from_native W M (length (magnitude_ x)) 0))
  then Integer (negb (positive_ x)) (magnitude_ x)
  else x.

(** Binary [operator-]. *)
Definition integer_sub (x rhs : integer) : integer :=
  integer_add x (integer_neg rhs).

(** The sign of a product or quotient: [!(positive_ != rhs.positive_)]. *)
Definition same_sign (x rhs : integer) : bool :=
  negb (negb (Bool.eqb (positive_ x) (positive_ rhs))).

(** [operator*]. *)
Definition integer_mul (x rhs : integer) : integer :=
  let result_magnitude := mul W M (magnitude_ x) (magnitude_ rhs) in
  if eqb result_magnitude (from_native W M (length result_magnitude) 0)
  then integer_default (length result_magnitude)
  else Integer (same_sign x rhs) result_magnitude.

(** [operator/]. *)
Definition integer_div (x rhs : integer) : option integer :=
  match div W M (magnitude_ x) (magnitude_ rhs) with
  | None => None
  | Some result_magnitude =>
      if eqb result_magnitude (from_native W M (length result_magnitude) 0)
      then Some (integer_default (length result_magnitude))
      else Some (Integer (same_sign x rhs) result_magnitude)
  end.

(** [operator%]. *)
Definition integer_mod (x rhs : integer) : option integer :=
  match modulo W M (magnitude_ x) (magnitude_ rhs) with
  | None => None
  | Some result_magnitude =>
      let positive :=
        if negb (eqb result_magnitude
                     (from_native W M (length result_magnitude) 0))
        then positive_ x else true in
      Some (Integer positive result_magnitude)
  end.

(** [operator<=>] is defaulted: [positive_] is compared first
    ([false < true]), then [magnitude_]. *)
Definition integer_compare (x y : integer) : comparison :=
  match positive_ x, positive_ y with
  | false, true => Lt
  | true, false => Gt
  | _, _ => compare (magnitude_ x) (magnitude_ y)
  end.

(** Conversion of an unsigned integer of [w] bits to the signed type of
    the same width. *)
Definition to_signed (w x : Z) : Z :=
  let y := wrap w x in if y <? 2 ^ (w - 1) then y else y - 2 ^ w.

(** [operator T()] for a native signed type of [w] bits: the magnitude is
    converted to the unsigned type of that width, then to [T].  For a
    negative number the product by [-1] is computed in [int] when [T] is
    narrower than [int], and converted back to [T]; in [int] and wider
    types the product of the least value overflows, which is [None]. *)
Definition integer_to_native (w : Z) (x : integer) : option Z :=
  let v := to_signed w (to_native W M w (magnitude_ x)) in
  if positive_ x then Some v
  else if (32 <=? w) && (v =? - 2 ^ (w - 1)) then None
  else Some (to_signed w (v * -1)).

(** Prefix [operator++] and [operator--]: [integer(1U)] is built from an
    [unsigned]. *)
Definition integer_increment (x : integer) : integer :=
  integer_add x (integer_of_native (length (magnitude_ x)) 32 1).

Definition integer_decrement (x : integer) : integer :=
  integer_sub x (integer_of_native (length (magnitude_ x)) 32 1).

End Wrapper.

(** ** Specification vocabulary *)

Section Specification.

Variable W : Z.
Variable M : Z.

(** The value a number stands for: the sum of [digit i * base ^ i]. *)
Definition value (a : number) : Z :=
  fold_left (fun acc d => acc * base M + d) a 0.

(** The same sum for digits listed least significant first. *)
Fixpoint lsb_value (ds : list Z) : Z :=
  match ds with
  | [] => 0
  | d :: ds' => d + base M * lsb_value ds'
  end.

(** The class invariant of a [number<TDigit, N, M>]: [N] digits, none
    above [NDigitMax]. *)
Definition well_formed (N : nat) (a : number) : Prop :=
  length a = N /\ Forall (fun d => 0 <= d <= M) a.

(** The template parameters are admissible: [NDigitMax] is a [TDigit]
    greater than zero. *)
Definition digit_config : Prop := 0 < W /\ 1 <= M < 2 ^ W.

(** No digit plus one overflows [unsigned]. *)
Definition unsigned_safe : Prop := M + 1 < 2 ^ 32.

(** The indices of the digit loops stay below [2 ^ 32]. *)
Definition index_safe (N : nat) : Prop := 2 * Z.of_nat N + 2 < 2 ^ 32.

(** The canonical-zero invariant of the signed wrapper. *)
Definition canonical (x : integer) : Prop :=
  value (magnitude_ x) = 0 -> positive_ x = true.

(** What [set_digit] stores for the argument [v]. *)
Definition stored (v : Z) : Z := dig W (dig W v mod base M).

(** State of the inner loop of [operator*] before the turn [i] of the row
    [j]: [w0] is the accumulator the row started from, [A] the value of
    the left operand and [bj] the digit [j] of the right one. *)
Definition row_inv (N : nat) (A bj : Z) (w0 : number) (j i : Z)
    (st : number * Z) : Prop :=
  well_formed N (fst st)
  /\ 0 <= snd st <= M
  /\ (exists c, value (fst st) + snd st * base M ^ (i + j)
                = value w0 + A mod base M ^ i * bj * base M ^ j
                  + c * base M ^ Z.of_nat N)
  /\ (forall q, i + j <= q < 2 ^ 32 -> digit (fst st) q = digit w0 q).

(** State of the outer loop of [operator*] before the row [j]. *)
Definition rows_inv (N : nat) (A Bv m : Z) (j : Z) (w : number) : Prop :=
  well_formed N w
  /\ (exists c, value w = A * (Bv mod base M ^ j) + c * base M ^ Z.of_nat N)
  /\ (forall q, j + m <= q < 2 ^ 32 -> digit w q = 0).

(** The digits of [v] in the base [b], least significant first, the way
    [to_string] peels them off; [fuel] bounds their number. *)
Fixpoint digits_of (fuel : nat) (b v : Z) : list Z :=
  if v =? 0 then []
  else
    match fuel with
    | O => []
    | S fuel' => v mod b :: digits_of fuel' b (v / b)
    end.

(** The value of digits in the base [b], least significant first. *)
Fixpoint horner (b : Z) (ds : list Z) : Z :=
  match ds with
  | [] => 0
  | d :: ds' => d + b * horner b ds'
  end.

(** State of the quotient loop of [operator/] before the digit [e - 1]:
    the working numerator and the quotient so far, for the normalised
    divisor [dv] and the normalised dividend [num0]. *)
Definition div_inv (N : nat) (dv num0 e : Z) (st : number * number) : Prop :=
  well_formed (S N) (fst st)
  /\ well_formed N (snd st)
  /\ value (snd st) * dv + value (fst st) = num0
  /\ 0 <= value (fst st) < dv * base M ^ e
  /\ value (snd st) mod base M ^ e = 0.

(** The integer a signed number stands for. *)
Definition signed_value (x : integer) : Z :=
  if positive_ x then value (magnitude_ x) else - value (magnitude_ x).

End Specification.

(** * Properties *)

(** ** Native integers and loops *)

Lemma wrap_small (w x : Z) : 0 <= x < 2 ^ w -> wrap w x = x.
Proof. intros H. unfold wrap. apply Z.mod_small. exact H. Qed.

Lemma wrap_range (w x : Z) : 0 <= w -> 0 <= wrap w x < 2 ^ w.
Proof. intros H. unfold wrap. apply Z.mod_pos_bound. lia. Qed.

Lemma u32_small (x : Z) : 0 <= x < 2 ^ 32 -> u32 x = x.
Proof. apply wrap_small. Qed.

Lemma rev_reverse {A : Type} (l : list A) : rev l = reverse l.
Proof. unfold reverse. apply rev_alt. Qed.

Lemma upto_succ (n : Z) : 0 <= n -> upto (n + 1) = upto n ++ [n].
Proof.
  intros Hn. unfold upto.
  replace (Z.to_nat (n + 1)) with (S (Z.to_nat n)) by lia.
  rewrite seq_S, map_app. simpl. rewrite Z2Nat.id by lia. reflexivity.
Qed.

Lemma upto_nonpos (n : Z) : n <= 0 -> upto n = [].
Proof.
  intros Hn. unfold upto. replace (Z.to_nat n) with O by lia. reflexivity.
Qed.

(** A loop invariant carries over to the result of [loop]. *)
Lemma loop_invariant {S R : Type} (P : S -> Prop) (Q : R -> Prop)
    (step : S -> S + R) :
  (forall s s', P s -> step s = inl s' -> P s') ->
  (forall s r, P s -> step s = inr r -> Q r) ->
  forall k s, P s ->
    match loop k step s with inl s' => P s' | inr r => Q r end.
Proof.
  intros Hgo Hend. induction k as [|k IH]; intros s Hs; simpl.
  - destruct (step s) eqn:E; eauto.
  - pose proof (IH s Hs) as H1.
    destruct (loop k step s) as [s1|r]; [apply IH; exact H1 | exact H1].
Qed.

(** A loop whose state has a measure that every turn decreases is still
    running after [2 ^ k] turns only if the measure has dropped by
    [2 ^ k]. *)
Lemma loop_measure {S R : Type} (P : S -> Prop) (mu : S -> Z)
    (step : S -> S + R) :
  (forall s s', P s -> step s = inl s' -> P s' /\ mu s' + 1 <= mu s) ->
  forall k s, P s ->
    match loop k step s with
    | inl s' => P s' /\ mu s' + 2 ^ Z.of_nat k <= mu s
    | inr _ => True
    end.
Proof.
  intros Hgo. induction k as [|k IH]; intros s Hs; simpl loop.
  - destruct (step s) eqn:E; [|exact I]. apply Hgo; assumption.
  - pose proof (IH s Hs) as H1.
    destruct (loop k step s) as [s1|r]; [|exact I].
    destruct H1 as [Hs1 Hm1]. pose proof (IH s1 Hs1) as H2.
    destruct (loop k step s1) as [s2|r]; [|exact I].
    destruct H2 as [Hs2 Hm2]. split; [exact Hs2|].
    rewrite Nat2Z.inj_succ, Z.pow_succ_r by lia. lia.
Qed.

(** Such a loop ends within [2 ^ k] turns when its measure starts below
    [2 ^ k] and never goes below zero. *)
Lemma loop_ends {S R : Type} (P : S -> Prop) (mu : S -> Z)
    (step : S -> S + R) (k : nat) (s : S) :
  (forall s s', P s -> step s = inl s' -> P s' /\ mu s' + 1 <= mu s) ->
  (forall s, P s -> 0 <= mu s) ->
  P s -> mu s < 2 ^ Z.of_nat k ->
  exists r, loop k step s = inr r.
Proof.
  intros Hgo Hpos Hs Hlt.
  pose proof (loop_measure P mu step Hgo k s Hs) as H.
  destruct (loop k step s) as [s'|r]; [|eauto].
  destruct H as [Hs' Hm]. specialize (Hpos s' Hs'). lia.
Qed.

(** ** Values of numbers *)

Section Values.

Variables W M : Z.
Hypothesis Hcfg : digit_config W M.

Local Abbreviation B := (base M).
Local Abbreviation len l := (Z.of_nat (length l)).
Local Abbreviation digits_ok l := (Forall (fun d => 0 <= d <= M) l).

Lemma base_ge_2 : 2 <= B.
Proof. unfold base. destruct Hcfg. lia. Qed.

Lemma base_le_pow : B <= 2 ^ W.
Proof. unfold base. destruct Hcfg. lia. Qed.

Lemma base_pow_pos (n : Z) : 0 <= n -> 0 < B ^ n.
Proof. intros. apply Z.pow_pos_nonneg; [pose proof base_ge_2; lia | lia]. Qed.

Lemma big_pow : 2 ^ W * 2 ^ W = 2 ^ (2 * W).
Proof.
  destruct Hcfg. replace (2 * W) with (W + W) by lia.
  rewrite Z.pow_add_r by lia. reflexivity.
Qed.

Lemma dig_small (x : Z) : 0 <= x <= M -> dig W x = x.
Proof. intros. apply wrap_small. destruct Hcfg. lia. Qed.

Lemma bigd_small (x : Z) : 0 <= x < B * B -> bigd W x = x.
Proof.
  intros. apply wrap_small. rewrite <- big_pow.
  pose proof base_le_pow. pose proof base_ge_2. nia.
Qed.

Lemma fold_value (a : number) (acc : Z) :
  fold_left (fun acc d => acc * B + d) a acc
  = acc * B ^ len a + value M a.
Proof.
  unfold value. revert acc. induction a as [|x a IH]; intros acc; simpl.
  - lia.
  - rewrite IH, (IH (0 * B + x)).
    replace (Z.of_nat (S (length a))) with (len a + 1) by lia.
    rewrite Z.pow_add_r by lia. ring.
Qed.

Lemma value_nil : value M [] = 0.
Proof. reflexivity. Qed.

Lemma value_cons (x : Z) (a : number) :
  value M (x :: a) = x * B ^ len a + value M a.
Proof.
  unfold value at 1. simpl. rewrite fold_value. ring.
Qed.

Lemma value_app (a b : number) :
  value M (a ++ b) = value M a * B ^ len b + value M b.
Proof.
  unfold value at 1. rewrite fold_left_app. fold (value M a).
  apply fold_value.
Qed.

Lemma lsb_value_app (l : list Z) (x : Z) :
  lsb_value M (l ++ [x]) = lsb_value M l + x * B ^ len l.
Proof.
  induction l as [|d l IH]; simpl lsb_value.
  - simpl. lia.
  - rewrite IH. replace (len (d :: l)) with (len l + 1) by (simpl; lia).
    rewrite Z.pow_add_r by lia. ring.
Qed.

Lemma value_rev (a : number) : value M a = lsb_value M (rev a).
Proof.
  induction a as [|x a IH].
  - reflexivity.
  - rewrite value_cons. simpl rev. rewrite lsb_value_app, length_rev. lia.
Qed.

Lemma lsb_value_rev (l : list Z) : lsb_value M l = value M (rev l).
Proof. rewrite value_rev, rev_involutive. reflexivity. Qed.

Lemma lsb_value_bound (l : list Z) :
  digits_ok l -> 0 <= lsb_value M l < B ^ len l.
Proof.
  pose proof base_ge_2 as HB.
  induction 1 as [|d l Hd Hl IH]; simpl lsb_value.
  - simpl. lia.
  - replace (len (d :: l)) with (len l + 1) by (simpl; lia).
    rewrite Z.pow_add_r by lia. unfold base in *. nia.
Qed.

Lemma digits_ok_rev (l : list Z) : digits_ok l -> digits_ok (rev l).
Proof. rewrite rev_reverse. apply Forall_reverse. Qed.

Lemma value_bound (N : nat) (a : number) :
  well_formed M N a -> 0 <= value M a < B ^ Z.of_nat N.
Proof.
  intros [Hlen Hd]. rewrite value_rev. subst N.
  rewrite <- (length_rev a). apply lsb_value_bound, digits_ok_rev, Hd.
Qed.

(** One digit of a carry chain: the low digit and the carried rest give
    the sum reduced modulo the next power. *)
Lemma chain_step (s t C : Z) :
  0 < C ->
  s mod B + B * ((t + s / B) mod C) = (s + B * t) mod (B * C).
Proof.
  intros HC. pose proof base_ge_2 as HB.
  rewrite Z.rem_mul_r by lia.
  replace (s + B * t) with (s + t * B) by ring.
  rewrite Z_mod_plus_full, Z.div_add by lia.
  replace (s / B + t) with (t + s / B) by ring. reflexivity.
Qed.


Lemma div_mod_at (a q r : Z) :
  0 <= r < B -> a = B * q + r -> a / B = q /\ a mod B = r.
Proof.
  intros Hr Ha. split.
  - symmetry. apply (Z.div_unique_pos a B q r); assumption.
  - symmetry. apply (Z.mod_unique_pos a B q r); assumption.
Qed.

Lemma lsb_value_replicate (n : nat) : lsb_value M (replicate n 0) = 0.
Proof. induction n as [|n IH]; simpl; [reflexivity | rewrite IH; lia]. Qed.

Lemma digits_ok_replicate (n : nat) : digits_ok (replicate n 0).
Proof. apply Forall_replicate. destruct Hcfg. lia. Qed.

Lemma assign_digits_length (n : nat) (v : Z) :
  length (assign_digits W M n v) = n.
Proof.
  revert v. induction n as [|n IH]; intros v; simpl; [reflexivity|].
  destruct (v =? 0); simpl; [rewrite length_replicate | rewrite IH];
    reflexivity.
Qed.

Lemma assign_digits_ok (n : nat) (v : Z) :
  0 <= v -> digits_ok (assign_digits W M n v).
Proof.
  pose proof base_ge_2 as HB.
  revert v. induction n as [|n IH]; intros v Hv; simpl; [constructor|].
  destruct (v =? 0).
  - apply (digits_ok_replicate (S n)).
  - pose proof (Z.mod_pos_bound v B ltac:(lia)) as Hm.
    constructor.
    + rewrite dig_small; unfold base in *; lia.
    + apply IH. apply Z.div_pos; lia.
Qed.

Lemma assign_digits_value (n : nat) (v : Z) :
  0 <= v -> lsb_value M (assign_digits W M n v) = v mod B ^ Z.of_nat n.
Proof.
  pose proof base_ge_2 as HB.
  revert v. induction n as [|n IH]; intros v Hv.
  - simpl. rewrite Z.mod_1_r. reflexivity.
  - cbn [assign_digits]. destruct (v =? 0) eqn:E.
    + apply Z.eqb_eq in E. subst v.
      rewrite lsb_value_replicate, Z.mod_0_l; [reflexivity|].
      pose proof (base_pow_pos (Z.of_nat (S n))). lia.
    + cbn [lsb_value].
      pose proof (Z.mod_pos_bound v B ltac:(lia)) as Hm.
      rewrite dig_small by (unfold base in *; lia).
      rewrite IH by (apply Z.div_pos; lia).
      pose proof (chain_step v 0 (B ^ Z.of_nat n)
                    (base_pow_pos (Z.of_nat n) ltac:(lia))) as Hc.
      rewrite Z.add_0_l, Z.mul_0_r, Z.add_0_r in Hc. rewrite Hc.
      rewrite Nat2Z.inj_succ, Z.pow_succ_r by lia. reflexivity.
Qed.

Lemma from_native_wf (N : nat) (v : Z) :
  0 <= v -> well_formed M N (from_native W M N v).
Proof.
  intros Hv. unfold from_native. split.
  - rewrite length_rev. apply assign_digits_length.
  - apply digits_ok_rev, assign_digits_ok, Hv.
Qed.

Lemma from_native_value (N : nat) (v : Z) :
  0 <= v -> value M (from_native W M N v) = v mod B ^ Z.of_nat N.
Proof.
  intros Hv. unfold from_native.
  rewrite value_rev, rev_involutive. apply assign_digits_value, Hv.
Qed.

Lemma from_native_zero (N : nat) : from_native W M N 0 = zero N.
Proof.
  unfold from_native, zero. destruct N as [|N]; [reflexivity|].
  cbn [assign_digits]. rewrite Z.eqb_refl.
  rewrite rev_reverse. apply reverse_replicate.
Qed.

Lemma zero_wf (N : nat) : well_formed M N (zero N).
Proof. split; [apply length_replicate | apply digits_ok_replicate]. Qed.

Lemma value_zero (N : nat) : value M (zero N) = 0.
Proof.
  rewrite value_rev. unfold zero. rewrite rev_reverse, reverse_replicate.
  apply lsb_value_replicate.
Qed.

(** *** Addition and subtraction as carry chains *)

Lemma add_loop_spec (x y : list Z) (c : Z) :
  length x = length y -> digits_ok x -> digits_ok y -> 0 <= c <= 1 ->
  length (add_loop W M x y c) = length x
  /\ digits_ok (add_loop W M x y c)
  /\ lsb_value M (add_loop W M x y c)
     = (lsb_value M x + lsb_value M y + c) mod B ^ len x.
Proof.
  pose proof base_ge_2 as HB.
  revert y c. induction x as [|d1 x IH]; intros y c Hlen Hx Hy Hc.
  - simpl. rewrite Z.mod_1_r. auto.
  - destruct y as [|d2 y]; [discriminate|].
    inversion Hx as [|? ? Hd1 Hx']; inversion Hy as [|? ? Hd2 Hy']; subst.
    injection Hlen as Hlen.
    cbn [add_loop].
    set (s := d1 + d2 + c).
    assert (Hs : 0 <= s < 2 * B) by (unfold s, base in *; lia).
    rewrite (bigd_small s) by nia.
    assert (Hcarry : (if s >=? B then 1 else 0) = s / B).
    { destruct (s >=? B) eqn:E.
      - apply Z.geb_le in E.
        symmetry. apply (div_mod_at s 1 (s - B)); lia.
      - rewrite Z.geb_leb in E. apply Z.leb_gt in E.
        symmetry. apply Z.div_small. lia. }
    rewrite Hcarry.
    pose proof (Z.mod_pos_bound s B ltac:(lia)) as Hm.
    assert (Hq : 0 <= s / B <= 1).
    { rewrite <- Hcarry. destruct (s >=? B); lia. }
    rewrite dig_small by (unfold base in *; lia).
    destruct (IH y (s / B) Hlen Hx' Hy' Hq) as (IH1 & IH2 & IH3).
    split; [simpl; rewrite IH1; reflexivity|].
    split; [constructor; [unfold base in *; lia | exact IH2]|].
    cbn [lsb_value]. rewrite IH3.
    rewrite (chain_step s (lsb_value M x + lsb_value M y))
      by (apply base_pow_pos; lia).
    replace (len (d1 :: x)) with (Z.succ (len x)) by (simpl; lia).
    rewrite Z.pow_succ_r by lia. f_equal. unfold s. ring.
Qed.

(** [operator-] is right when no digit plus one overflows [unsigned]; the
    lemmas that need this take it as their first hypothesis [Hsafe]. *)

Lemma sub_loop_spec (Hsafe : unsigned_safe M) (x y : list Z) (b : Z) :
  length x = length y -> digits_ok x -> digits_ok y -> 0 <= b <= 1 ->
  length (sub_loop W M x y b) = length x
  /\ digits_ok (sub_loop W M x y b)
  /\ lsb_value M (sub_loop W M x y b)
     = (lsb_value M x - lsb_value M y - b) mod B ^ len x.
Proof.
  pose proof base_ge_2 as HB. pose proof Hsafe as Hu. unfold unsigned_safe in Hu.
  revert y b. induction x as [|d1 x IH]; intros y b Hlen Hx Hy Hb.
  - simpl. rewrite Z.mod_1_r. auto.
  - destruct y as [|d2 y]; [discriminate|].
    inversion Hx as [|? ? Hd1 Hx']; inversion Hy as [|? ? Hd2 Hy']; subst.
    injection Hlen as Hlen.
    cbn [sub_loop].
    rewrite (u32_small (b + d2)) by lia.
    set (s := d1 - d2 - b).
    replace (B + d1 - (b + d2)) with (B + s) by (unfold s; ring).
    assert (Hs : - B <= s < B) by (unfold s, base in *; lia).
    rewrite (bigd_small (B + s)) by nia.
    assert (Hmod : (B + s) mod B = s mod B).
    { replace (B + s) with (s + 1 * B) by ring. apply Z_mod_plus_full. }
    rewrite Hmod.
    assert (Hborrow : (if B + s <? B then 1 else 0) = - (s / B)).
    { destruct (B + s <? B) eqn:E.
      - apply Z.ltb_lt in E.
        destruct (div_mod_at s (-1) (s + B)) as [-> _]; lia.
      - apply Z.ltb_ge in E. rewrite Z.div_small; lia. }
    rewrite Hborrow.
    pose proof (Z.mod_pos_bound s B ltac:(lia)) as Hm.
    assert (Hq : 0 <= - (s / B) <= 1).
    { rewrite <- Hborrow. destruct (B + s <? B); lia. }
    rewrite dig_small by (unfold base in *; lia).
    destruct (IH y (- (s / B)) Hlen Hx' Hy' Hq) as (IH1 & IH2 & IH3).
    split; [simpl; rewrite IH1; reflexivity|].
    split; [constructor; [unfold base in *; lia | exact IH2]|].
    cbn [lsb_value]. rewrite IH3.
    replace (lsb_value M x - lsb_value M y - - (s / B))
      with (lsb_value M x - lsb_value M y + s / B) by ring.
    rewrite (chain_step s (lsb_value M x - lsb_value M y))
      by (apply base_pow_pos; lia).
    replace (len (d1 :: x)) with (Z.succ (len x)) by (simpl; lia).
    rewrite Z.pow_succ_r by lia. f_equal. unfold s. ring.
Qed.


Lemma add_wf (N : nat) (a b : number) :
  well_formed M N a -> well_formed M N b -> well_formed M N (add W M a b).
Proof.
  intros [La Da] [Lb Db]. unfold add.
  destruct (add_loop_spec (rev a) (rev b) 0) as (H1 & H2 & _);
    [rewrite !length_rev; lia | apply digits_ok_rev, Da
    | apply digits_ok_rev, Db | lia |].
  split; [rewrite length_rev, H1, length_rev; exact La|].
  apply digits_ok_rev, H2.
Qed.

Lemma add_value (N : nat) (a b : number) :
  well_formed M N a -> well_formed M N b ->
  value M (add W M a b) = (value M a + value M b) mod B ^ Z.of_nat N.
Proof.
  intros [La Da] [Lb Db]. unfold add.
  destruct (add_loop_spec (rev a) (rev b) 0) as (_ & _ & H3);
    [rewrite !length_rev; lia | apply digits_ok_rev, Da
    | apply digits_ok_rev, Db | lia |].
  rewrite value_rev, rev_involutive, H3, Z.add_0_r, length_rev, La.
  rewrite <- !value_rev. reflexivity.
Qed.

Lemma sub_wf (Hsafe : unsigned_safe M) (N : nat) (a b : number) :
  well_formed M N a -> well_formed M N b -> well_formed M N (sub W M a b).
Proof.
  intros [La Da] [Lb Db]. unfold sub.
  destruct (sub_loop_spec Hsafe (rev a) (rev b) 0) as (H1 & H2 & _);
    [rewrite !length_rev; lia | apply digits_ok_rev, Da
    | apply digits_ok_rev, Db | lia |].
  split; [rewrite length_rev, H1, length_rev; exact La|].
  apply digits_ok_rev, H2.
Qed.

Lemma sub_value (Hsafe : unsigned_safe M) (N : nat) (a b : number) :
  well_formed M N a -> well_formed M N b ->
  value M (sub W M a b) = (value M a - value M b) mod B ^ Z.of_nat N.
Proof.
  intros [La Da] [Lb Db]. unfold sub.
  destruct (sub_loop_spec Hsafe (rev a) (rev b) 0) as (_ & _ & H3);
    [rewrite !length_rev; lia | apply digits_ok_rev, Da
    | apply digits_ok_rev, Db | lia |].
  rewrite value_rev, rev_involutive, H3, Z.sub_0_r, length_rev, La.
  rewrite <- !value_rev. reflexivity.
Qed.

(** *** Comparison *)

Lemma compare_refl (a : number) : compare a a = Eq.
Proof.
  induction a as [|x a IH]; simpl; [reflexivity|].
  rewrite Z.compare_refl. exact IH.
Qed.

Lemma compare_eq (a b : number) :
  length a = length b -> compare a b = Eq -> a = b.
Proof.
  revert b. induction a as [|x a IH]; intros [|y b] Hlen Hc;
    try discriminate; [reflexivity|].
  simpl in Hc. destruct (x ?= y) eqn:E; try discriminate.
  apply Z.compare_eq in E. subst y. f_equal. apply IH; [|exact Hc].
  simpl in Hlen. lia.
Qed.

Lemma compare_value (N : nat) (a b : number) :
  well_formed M N a -> well_formed M N b ->
  compare a b = (value M a ?= value M b).
Proof.
  revert N b. induction a as [|x a IH]; intros N [|y b] [La Da] [Lb Db];
    try (simpl in *; lia); [reflexivity|].
  inversion Da as [|? ? Hx Da']; inversion Db as [|? ? Hy Db']; subst.
  assert (Wa : well_formed M (length a) a) by (split; auto).
  assert (Wb : well_formed M (length a) b) by (split; simpl in *; auto; lia).
  pose proof (value_bound _ _ Wa) as Ba. pose proof (value_bound _ _ Wb) as Bb.
  rewrite !value_cons. replace (length b) with (length a) by (simpl in *; lia).
  cbn [compare]. destruct (x ?= y) eqn:E.
  - apply Z.compare_eq in E. subst y. rewrite (IH _ b Wa Wb).
    symmetry. apply Z.add_compare_mono_l.
  - rewrite Z.compare_lt_iff in E. symmetry. apply Z.compare_lt_iff. nia.
  - rewrite Z.compare_gt_iff in E. symmetry. apply Z.compare_gt_iff. nia.
Qed.

Lemma value_inj (N : nat) (a b : number) :
  well_formed M N a -> well_formed M N b ->
  value M a = value M b -> a = b.
Proof.
  intros Wa Wb Hv. apply compare_eq.
  - destruct Wa, Wb. congruence.
  - rewrite (compare_value N) by assumption. rewrite Hv.
    apply Z.compare_refl.
Qed.

Lemma eqb_refl (a : number) : eqb a a = true.
Proof. unfold eqb. rewrite compare_refl. reflexivity. Qed.

Lemma eqb_value (N : nat) (a b : number) :
  well_formed M N a -> well_formed M N b ->
  eqb a b = (value M a =? value M b).
Proof.
  intros Wa Wb. unfold eqb. rewrite Z.eqb_compare.
  rewrite (compare_value N) by assumption. reflexivity.
Qed.

Lemma ltb_value (N : nat) (a b : number) :
  well_formed M N a -> well_formed M N b ->
  ltb a b = (value M a <? value M b).
Proof.
  intros Wa Wb. unfold ltb, Z.ltb. rewrite (compare_value N) by assumption.
  destruct (value M a ?= value M b); reflexivity.
Qed.

Lemma gtb_value (N : nat) (a b : number) :
  well_formed M N a -> well_formed M N b ->
  gtb a b = (value M a >? value M b).
Proof.
  intros Wa Wb. unfold gtb, Z.gtb. rewrite (compare_value N) by assumption.
  destruct (value M a ?= value M b); reflexivity.
Qed.


(** *** Reading and writing one digit *)

Lemma reverse_insert {A : Type} (l : list A) (i : nat) (x : A) :
  (i < length l)%nat ->
  reverse (<[i:=x]> l) = <[(length l - S i)%nat:=x]> (reverse l).
Proof.
  revert i. induction l as [|y l IH]; intros i Hi; [simpl in Hi; lia|].
  destruct i as [|i]; simpl.
  - rewrite !reverse_cons.
    replace (length l - 0)%nat with (length (reverse l) + 0)%nat
      by (rewrite length_reverse; lia).
    rewrite insert_app_r. reflexivity.
  - rewrite !reverse_cons, IH by (simpl in Hi; lia).
    rewrite insert_app_l by (rewrite length_reverse; simpl in Hi; lia).
    reflexivity.
Qed.

Lemma stored_range (v : Z) : 0 <= stored W M v <= M.
Proof.
  pose proof base_ge_2 as HB. unfold stored.
  pose proof (Z.mod_pos_bound (dig W v) B ltac:(lia)) as Hm.
  rewrite dig_small; unfold base in *; lia.
Qed.

Lemma stored_small (v : Z) : 0 <= v < 2 ^ W -> stored W M v = v mod B.
Proof.
  pose proof base_ge_2 as HB. intros Hv. unfold stored.
  replace (dig W v) with v by (symmetry; apply wrap_small, Hv).
  pose proof (Z.mod_pos_bound v B ltac:(lia)) as Hm.
  apply dig_small. unfold base in *; lia.
Qed.

Lemma stored_digit (v : Z) : 0 <= v <= M -> stored W M v = v.
Proof.
  intros Hv. rewrite stored_small by (destruct Hcfg; lia).
  apply Z.mod_small. unfold base. lia.
Qed.

Lemma digit_lsb (a : number) (p : Z) :
  num_digits a < 2 ^ 32 -> 0 <= p < 2 ^ 32 ->
  digit a p = default 0 (rev a !! Z.to_nat p).
Proof.
  intros HN Hp. unfold digit, num_digits in *. rewrite u32_small by exact Hp.
  rewrite rev_reverse. destruct (p >=? len a) eqn:E.
  - apply Z.geb_le in E. rewrite lookup_ge_None_2; [reflexivity|].
    rewrite length_reverse. lia.
  - rewrite Z.geb_leb in E. apply Z.leb_gt in E.
    rewrite reverse_lookup by lia.
    replace (length a - S (Z.to_nat p))%nat
      with (Z.to_nat (len a - 1 - p)) by lia.
    destruct (lookup_lt_is_Some_2 a (Z.to_nat (len a - 1 - p)) ltac:(lia))
      as [x Hx].
    rewrite Hx. apply list_lookup_total_correct, Hx.
Qed.

Lemma rev_set_digit (a : number) (p v : Z) :
  0 <= p < num_digits a -> num_digits a < 2 ^ 32 ->
  rev (set_digit W M a p v) = <[Z.to_nat p:=stored W M v]> (rev a).
Proof.
  intros Hp HN. unfold set_digit, num_digits in *.
  rewrite u32_small by lia.
  destruct (p <? len a) eqn:E; [|apply Z.ltb_ge in E; lia].
  rewrite !rev_reverse, reverse_insert by lia.
  f_equal. lia.
Qed.

Lemma set_digit_out (a : number) (p v : Z) :
  num_digits a <= p < 2 ^ 32 -> set_digit W M a p v = a.
Proof.
  intros Hp. unfold set_digit, num_digits in *. rewrite u32_small by lia.
  destruct (p <? len a) eqn:E; [apply Z.ltb_lt in E; lia|].
  reflexivity.
Qed.

Lemma set_digit_length (a : number) (p v : Z) :
  length (set_digit W M a p v) = length a.
Proof.
  unfold set_digit. destruct (_ <? _); [apply length_insert | reflexivity].
Qed.

Lemma set_digit_ok (a : number) (p v : Z) :
  digits_ok a -> digits_ok (set_digit W M a p v).
Proof.
  intros Ha. unfold set_digit. destruct (_ <? _); [|exact Ha].
  apply Forall_insert; [exact Ha | apply stored_range].
Qed.

Lemma set_digit_wf (N : nat) (a : number) (p v : Z) :
  well_formed M N a -> well_formed M N (set_digit W M a p v).
Proof.
  intros [La Da]. split; [rewrite set_digit_length; exact La|].
  apply set_digit_ok, Da.
Qed.

Lemma lsb_lookup_value (l : list Z) (p : nat) :
  digits_ok l ->
  default 0 (l !! p) = (lsb_value M l / B ^ Z.of_nat p) mod B.
Proof.
  pose proof base_ge_2 as HB.
  intros Hl. revert p. induction Hl as [|d l Hd Hl IH]; intros p.
  - simpl.
    rewrite Z.div_0_l by (pose proof (base_pow_pos (Z.of_nat p)); lia).
    rewrite Z.mod_0_l by lia. reflexivity.
  - cbn [lsb_value].
    destruct (div_mod_at (d + B * lsb_value M l) (lsb_value M l) d)
      as [Hdiv Hmod]; [unfold base in *; lia | ring |].
    destruct p as [|p].
    + simpl. rewrite Z.div_1_r. symmetry. exact Hmod.
    + change ((d :: l) !! S p) with (l !! p). rewrite (IH p).
      rewrite Nat2Z.inj_succ, Z.pow_succ_r by lia.
      rewrite <- Z.div_div by (try apply base_pow_pos; lia).
      rewrite Hdiv. reflexivity.
Qed.

Lemma lsb_insert_value (l : list Z) (p : nat) (v : Z) :
  (p < length l)%nat ->
  lsb_value M (<[p:=v]> l)
  = lsb_value M l + (v - default 0 (l !! p)) * B ^ Z.of_nat p.
Proof.
  revert p. induction l as [|d l IH]; intros p Hp; [simpl in Hp; lia|].
  destruct p as [|p].
  - change (<[0%nat:=v]> (d :: l)) with (v :: l).
    change ((d :: l) !! 0%nat) with (Some d).
    cbn [lsb_value default]. change (Z.of_nat 0) with 0.
    rewrite Z.pow_0_r. unfold id. ring.
  - change (<[S p:=v]> (d :: l)) with (d :: <[p:=v]> l).
    change ((d :: l) !! S p) with (l !! p). cbn [lsb_value].
    rewrite IH by (simpl in Hp; lia).
    rewrite Nat2Z.inj_succ, Z.pow_succ_r by lia. ring.
Qed.

Lemma digit_value (N : nat) (a : number) (p : Z) :
  well_formed M N a -> Z.of_nat N < 2 ^ 32 -> 0 <= p < 2 ^ 32 ->
  digit a p = (value M a / B ^ p) mod B.
Proof.
  intros [La Da] HN Hp. rewrite digit_lsb by (unfold num_digits; lia).
  rewrite lsb_lookup_value by (apply digits_ok_rev, Da).
  rewrite <- value_rev, Z2Nat.id by lia. reflexivity.
Qed.

Lemma digit_range (N : nat) (a : number) (p : Z) :
  well_formed M N a -> Z.of_nat N < 2 ^ 32 -> 0 <= p < 2 ^ 32 ->
  0 <= digit a p <= M.
Proof.
  intros Wa HN Hp. rewrite (digit_value N) by assumption.
  pose proof base_ge_2 as HB.
  pose proof (Z.mod_pos_bound (value M a / B ^ p) B ltac:(lia)).
  unfold base in *. lia.
Qed.

Lemma digit_out (a : number) (p : Z) :
  num_digits a <= p < 2 ^ 32 -> digit a p = 0.
Proof.
  intros Hp. unfold digit. rewrite u32_small by (unfold num_digits in *; lia).
  destruct (p >=? num_digits a) eqn:E; [reflexivity|].
  rewrite Z.geb_leb in E. apply Z.leb_gt in E. lia.
Qed.

Lemma set_digit_value (N : nat) (a : number) (p v : Z) :
  well_formed M N a -> Z.of_nat N < 2 ^ 32 -> 0 <= p < Z.of_nat N ->
  value M (set_digit W M a p v)
  = value M a + (stored W M v - digit a p) * B ^ p.
Proof.
  intros [La Da] HN Hp.
  rewrite value_rev, rev_set_digit by (unfold num_digits; lia).
  rewrite lsb_insert_value by (rewrite length_rev; lia).
  rewrite digit_lsb by (unfold num_digits; lia).
  rewrite <- value_rev, Z2Nat.id by lia. reflexivity.
Qed.

Lemma digit_set_digit_same (a : number) (p v : Z) :
  num_digits a < 2 ^ 32 -> 0 <= p < num_digits a ->
  digit (set_digit W M a p v) p = stored W M v.
Proof.
  intros HN Hp.
  rewrite digit_lsb by (unfold num_digits in *; rewrite ?set_digit_length; lia).
  rewrite rev_set_digit by lia.
  rewrite list_lookup_insert_eq; [reflexivity|].
  rewrite length_rev. unfold num_digits in *. lia.
Qed.

Lemma digit_set_digit_other (a : number) (p q v : Z) :
  num_digits a < 2 ^ 32 -> 0 <= p < 2 ^ 32 -> 0 <= q < 2 ^ 32 -> p <> q ->
  digit (set_digit W M a p v) q = digit a q.
Proof.
  intros HN Hp Hq Hne.
  destruct (Z_lt_le_dec p (num_digits a)) as [Hin|Hout].
  - rewrite !digit_lsb
      by (unfold num_digits in *; rewrite ?set_digit_length; lia).
    rewrite rev_set_digit by lia.
    rewrite list_lookup_insert_ne by lia. reflexivity.
  - rewrite set_digit_out by lia. reflexivity.
Qed.


(** *** The most significant digit *)

Lemma msd_loop_spec (ds : list Z) :
  digits_ok ds -> len ds < 2 ^ 32 ->
  0 <= msd_loop ds (len ds) <= len ds
  /\ value M ds < B ^ msd_loop ds (len ds)
  /\ (0 < msd_loop ds (len ds) -> B ^ (msd_loop ds (len ds) - 1) <= value M ds).
Proof.
  pose proof base_ge_2 as HB.
  induction 1 as [|d ds Hd Hds IH]; intros HN.
  - simpl. rewrite value_nil. lia.
  - cbn [msd_loop]. rewrite value_cons.
    replace (len (d :: ds)) with (len ds + 1) in * by (simpl; lia).
    pose proof (value_bound (length ds) ds (conj eq_refl Hds)) as Hv.
    destruct (d =? 0) eqn:E.
    + apply Z.eqb_eq in E. subst d.
      replace (len ds + 1 - 1) with (len ds) by lia.
      rewrite u32_small by lia. specialize (IH ltac:(lia)).
      rewrite Z.mul_0_l, Z.add_0_l. lia.
    + apply Z.eqb_neq in E.
      replace (len ds + 1 - 1) with (len ds) by lia.
      rewrite Z.pow_add_r by lia.
      pose proof (base_pow_pos (len ds) ltac:(lia)).
      split; [lia|]. split; [unfold base in *; nia | intros _; nia].
Qed.

Lemma msd_spec (N : nat) (a : number) :
  well_formed M N a -> Z.of_nat N < 2 ^ 32 ->
  0 <= most_significant_digit a <= Z.of_nat N
  /\ value M a < B ^ most_significant_digit a
  /\ (0 < most_significant_digit a ->
      B ^ (most_significant_digit a - 1) <= value M a).
Proof.
  intros [La Da] HN. unfold most_significant_digit, num_digits. subst N.
  apply msd_loop_spec; assumption.
Qed.

Lemma mod_pow_succ (x j : Z) :
  0 <= j -> x mod B ^ (j + 1) = x mod B ^ j + (x / B ^ j) mod B * B ^ j.
Proof.
  intros Hj. pose proof base_ge_2 as HB.
  rewrite Z.pow_add_r, Z.pow_1_r by lia.
  rewrite Z.rem_mul_r by (try apply Z.pow_nonzero; lia). ring.
Qed.

Lemma fold_upto {S : Type} (f : S -> Z -> S) (P : Z -> S -> Prop)
    (n : Z) (s0 : S) :
  P 0 s0 ->
  (forall i s, 0 <= i < n -> P i s -> P (i + 1) (f s i)) ->
  0 <= n -> P n (fold_left f (upto n) s0).
Proof.
  intros H0 Hstep Hn.
  assert (Hk : forall k : nat, Z.of_nat k <= n ->
             P (Z.of_nat k) (fold_left f (upto (Z.of_nat k)) s0)).
  { induction k as [|k IH]; intros Hle.
    - exact H0.
    - rewrite Nat2Z.inj_succ, <- Z.add_1_r, upto_succ by lia.
      rewrite fold_left_app. simpl. apply Hstep; [lia|]. apply IH. lia. }
  specialize (Hk (Z.to_nat n)). rewrite Z2Nat.id in Hk by lia.
  apply Hk. lia.
Qed.


Lemma wf_num_digits (N : nat) (a : number) :
  well_formed M N a -> num_digits a = Z.of_nat N.
Proof. intros [La _]. unfold num_digits. rewrite La. reflexivity. Qed.

(** *** Multiplication *)

Lemma mul_step_inv (N : nat) (a rhs w0 : number) (j i : Z)
    (st : number * Z) :
  well_formed M N a -> well_formed M N rhs ->
  2 * Z.of_nat N < 2 ^ 32 ->
  0 <= j < Z.of_nat N -> 0 <= i < Z.of_nat N ->
  row_inv M N (value M a) (digit rhs j) w0 j i st ->
  row_inv M N (value M a) (digit rhs j) w0 j (i + 1) (mul_step W M a rhs j st i).
Proof.
  pose proof base_ge_2 as HB.
  intros Wa Wb HN Hj Hi. destruct st as [w k].
  unfold row_inv. cbn [fst snd mul_step].
  intros (Ww & Hk & [c Hc] & Htail).
  pose proof (digit_range N a i Wa ltac:(lia) ltac:(lia)) as Hai.
  pose proof (digit_range N rhs j Wb ltac:(lia) ltac:(lia)) as Hbj.
  pose proof (digit_range N w (i + j) Ww ltac:(lia) ltac:(lia)) as Hwd.
  set (t := digit a i * digit rhs j + digit w (i + j) + k) in *.
  assert (Ht : 0 <= t < B * B) by (unfold t, base in *; nia).
  rewrite (bigd_small t) by exact Ht.
  pose proof (Z.div_mod t B ltac:(lia)) as Hdm.
  pose proof (Z.mod_pos_bound t B ltac:(lia)) as Hm.
  assert (Hq : 0 <= t / B <= M).
  { split; [apply Z.div_pos; lia|].
    assert (t / B < B) by (apply Z.div_lt_upper_bound; lia).
    unfold base in *. lia. }
  rewrite (dig_small (t / B)) by exact Hq.
  split; [apply set_digit_wf, Ww|]. split; [exact Hq|].
  pose proof (mod_pow_succ (value M a) i ltac:(lia)) as Hsucc.
  rewrite <- (digit_value N a i Wa) in Hsucc by lia.
  assert (Hpow : B ^ (i + j) = B ^ i * B ^ j) by (apply Z.pow_add_r; lia).
  assert (Hpow1 : B ^ (i + 1 + j) = B * B ^ (i + j)).
  { replace (i + 1 + j) with (Z.succ (i + j)) by lia.
    apply Z.pow_succ_r. lia. }
  split.
  - destruct (Z_lt_le_dec (i + j) (Z.of_nat N)) as [Hin|Hout].
    + exists c.
      rewrite (set_digit_value N) by (assumption || lia).
      rewrite stored_digit by (unfold base in *; lia).
      rewrite Hsucc, Hpow1.
      replace (t mod B) with (t - B * (t / B)) by lia.
      unfold t at 1. rewrite Hpow in *. 
      replace (value M w) with
        (value M w0 + value M a mod B ^ i * digit rhs j * B ^ j
         + c * B ^ Z.of_nat N - k * (B ^ i * B ^ j)) by lia.
      ring.
    + rewrite set_digit_out by (rewrite (wf_num_digits N w Ww); lia).
      rewrite (digit_out w (i + j)) in *
        by (rewrite (wf_num_digits N w Ww); lia).
      assert (HE : B ^ (i + j) = B ^ Z.of_nat N * B ^ (i + j - Z.of_nat N)).
      { rewrite <- Z.pow_add_r by lia. f_equal. lia. }
      set (E := B ^ (i + j - Z.of_nat N)) in *.
      exists (c - k * E + t / B * B * E - digit a i * digit rhs j * E).
      rewrite Hsucc, Hpow1.
      replace (value M w) with
        (value M w0 + value M a mod B ^ i * digit rhs j * B ^ j
         + c * B ^ Z.of_nat N - k * B ^ (i + j)) by lia.
      replace ((value M a mod B ^ i + digit a i * B ^ i) * digit rhs j * B ^ j)
        with (value M a mod B ^ i * digit rhs j * B ^ j
              + digit a i * digit rhs j * B ^ (i + j))
        by (rewrite Hpow; ring).
      rewrite HE. ring.
  - intros q Hq'. rewrite digit_set_digit_other;
      [apply Htail; lia | rewrite (wf_num_digits N w Ww); lia
      | lia | lia | lia].
Qed.


Lemma mul_row_inv (N : nat) (a rhs w0 : number) (j : Z) :
  well_formed M N a -> well_formed M N rhs ->
  2 * Z.of_nat N < 2 ^ 32 ->
  0 <= j < Z.of_nat N ->
  rows_inv M N (value M a) (value M rhs) (most_significant_digit a) j w0 ->
  rows_inv M N (value M a) (value M rhs) (most_significant_digit a) (j + 1)
    (mul_row W M a rhs (most_significant_digit a) w0 j).
Proof.
  pose proof base_ge_2 as HB.
  intros Wa Wb HN Hj (Ww0 & [c0 Hc0] & Htail0).
  destruct (msd_spec N a Wa ltac:(lia)) as (Hm & HA & _).
  pose proof (value_bound N a Wa) as HAb.
  set (m := most_significant_digit a) in *.
  unfold mul_row.
  pose proof (fold_upto (mul_step W M a rhs j)
                (row_inv M N (value M a) (digit rhs j) w0 j) m (w0, 0)) as Hfold.
  destruct (fold_left (mul_step W M a rhs j) (upto m) (w0, 0)) as [w k].
  destruct Hfold as (Ww & Hk & [c Hc] & Htail).
  { unfold row_inv. cbn [fst snd]. split; [exact Ww0|].
    split; [destruct Hcfg; lia|]. split; [|reflexivity].
    exists 0. rewrite Z.pow_0_r, Z.mod_1_r. ring. }
  { intros i st Hi Hinv. apply mul_step_inv; auto; lia. }
  { lia. }
  cbn [fst snd] in *.
  rewrite (Z.mod_small (value M a)) in Hc by lia.
  assert (Hd0 : digit w (j + m) = 0).
  { rewrite Htail by lia. apply Htail0. lia. }
  pose proof (mod_pow_succ (value M rhs) j ltac:(lia)) as Hsucc.
  rewrite <- (digit_value N rhs j Wb) in Hsucc by lia.
  split; [apply set_digit_wf, Ww|]. split.
  - rewrite Hsucc. replace (m + j) with (j + m) in Hc by lia.
    destruct (Z_lt_le_dec (j + m) (Z.of_nat N)) as [Hin|Hout].
    + exists (c0 + c).
      rewrite (set_digit_value N) by (assumption || lia).
      rewrite stored_digit, Hd0 by exact Hk. lia.
    + rewrite set_digit_out by (rewrite (wf_num_digits N w Ww); lia).
      assert (HE : B ^ (j + m) = B ^ Z.of_nat N * B ^ (j + m - Z.of_nat N)).
      { rewrite <- Z.pow_add_r by lia. f_equal. lia. }
      exists (c0 + c - k * B ^ (j + m - Z.of_nat N)).
      rewrite HE in Hc. lia.
  - intros q Hq. rewrite digit_set_digit_other;
      [rewrite Htail by lia; apply Htail0; lia
      | rewrite (wf_num_digits N w Ww); lia | lia | lia | lia].
Qed.

Lemma mul_rows (N : nat) (a rhs : number) :
  well_formed M N a -> well_formed M N rhs ->
  2 * Z.of_nat N < 2 ^ 32 ->
  rows_inv M N (value M a) (value M rhs) (most_significant_digit a)
    (most_significant_digit rhs) (mul W M a rhs).
Proof.
  intros Wa Wb HN. unfold mul.
  destruct (msd_spec N rhs Wb ltac:(lia)) as (Hn & _ & _).
  destruct (msd_spec N a Wa ltac:(lia)) as (Hm & _ & _).
  apply (fold_upto (mul_row W M a rhs (most_significant_digit a))
           (rows_inv M N (value M a) (value M rhs) (most_significant_digit a))).
  - destruct Wa as [-> _]. split; [apply zero_wf|]. split.
    + exists 0. rewrite value_zero, Z.pow_0_r, Z.mod_1_r. ring.
    + intros q Hq. rewrite (digit_value N) by (try apply zero_wf; lia).
      rewrite value_zero, Z.div_0_l, Z.mod_0_l;
        [reflexivity | pose proof base_ge_2; lia
        | pose proof (base_pow_pos q); lia].
  - intros j w Hj Hinv. apply mul_row_inv; auto; lia.
  - lia.
Qed.

Lemma mul_wf (N : nat) (a rhs : number) :
  well_formed M N a -> well_formed M N rhs ->
  2 * Z.of_nat N < 2 ^ 32 ->
  well_formed M N (mul W M a rhs).
Proof. intros Wa Wb HN. apply (mul_rows N a rhs Wa Wb HN). Qed.

Lemma mul_value (N : nat) (a rhs : number) :
  well_formed M N a -> well_formed M N rhs ->
  2 * Z.of_nat N < 2 ^ 32 ->
  value M (mul W M a rhs) = (value M a * value M rhs) mod B ^ Z.of_nat N.
Proof.
  intros Wa Wb HN.
  destruct (mul_rows N a rhs Wa Wb HN) as (Ww & [c Hc] & _).
  destruct (msd_spec N rhs Wb ltac:(lia)) as (_ & Hlt & _).
  pose proof (value_bound N rhs Wb) as Hb.
  rewrite (Z.mod_small (value M rhs)) in Hc by lia.
  pose proof (value_bound N _ Ww) as Hw.
  apply (Z.mod_unique_pos _ _ (- c)); [exact Hw | lia].
Qed.


(** *** Conversion to a native integer *)

Lemma bigd_le (x : Z) : 0 <= x -> bigd W x <= x.
Proof.
  intros Hx. unfold bigd, wrap. apply Z.mod_le; [exact Hx|].
  apply Z.pow_pos_nonneg; destruct Hcfg; lia.
Qed.

Lemma wrap_mul_l (w x y : Z) : wrap w (wrap w x * y) = wrap w (x * y).
Proof.
  unfold wrap. destruct (Z.eq_dec (2 ^ w) 0) as [E|E].
  - rewrite E, !Z.mod_0_r. reflexivity.
  - apply Z.mul_mod_idemp_l. exact E.
Qed.

(** While the value fits the native type, the conversion loop adds up
    the digits exactly; [P] is the place value of the next digit. *)
Lemma to_native_loop_fits (w : Z) (ds : list Z) (v P : Z) :
  0 < w -> digits_ok ds -> 0 <= v -> 1 <= P ->
  v + P * lsb_value M ds < 2 ^ w ->
  to_native_loop W M w ds v (wrap w P) = v + P * lsb_value M ds.
Proof.
  pose proof base_ge_2 as HB. intros Hw Hds.
  revert v P. induction Hds as [|d ds Hd Hds IH]; intros v P Hv HP Hfit.
  - simpl. lia.
  - cbn [to_native_loop lsb_value] in *.
    pose proof (lsb_value_bound ds Hds) as [HR _].
    assert (Hv' : wrap w (v + wrap w P * d) = v + P * d).
    { destruct (Z.eq_dec d 0) as [->|Hd0].
      - rewrite Z.mul_0_r, Z.add_0_r, Z.mul_0_r, Z.add_0_r.
        apply wrap_small. nia.
      - rewrite (wrap_small w P) by nia. apply wrap_small. nia. }
    rewrite Hv', wrap_mul_l.
    destruct (wrap w (P * B) <? bigd W (wrap w P)) eqn:E.
    + apply Z.ltb_lt in E.
      destruct (Z.eq_dec (lsb_value M ds) 0) as [->|HR0]; [lia|].
      exfalso.
      pose proof (bigd_le (wrap w P) (proj1 (wrap_range w P ltac:(lia))))
        as Hle.
      assert (HBR : B <= d + B * lsb_value M ds) by nia.
      assert (HPB : P * B <= P * (d + B * lsb_value M ds))
        by (apply Z.mul_le_mono_nonneg_l; lia).
      assert (HP' : wrap w P = P) by (apply wrap_small; nia).
      rewrite HP' in E, Hle.
      rewrite (wrap_small w (P * B)) in E by nia. nia.
    + rewrite IH; [ring | nia | nia | nia].
Qed.

Lemma to_native_fits (N : nat) (w : Z) (a : number) :
  0 < w -> well_formed M N a -> value M a < 2 ^ w ->
  to_native W M w a = value M a.
Proof.
  intros Hw [La Da] Hfit. unfold to_native.
  rewrite to_native_loop_fits;
    rewrite <- ?value_rev; try lia; [apply digits_ok_rev, Da].
Qed.

Lemma wrap_add_mul (w x y e : Z) :
  0 <= w <= e -> wrap w (x + 2 ^ e * y) = wrap w x.
Proof.
  intros He. unfold wrap.
  replace (2 ^ e) with (2 ^ (e - w) * 2 ^ w)
    by (rewrite <- Z.pow_add_r by lia; f_equal; lia).
  replace (x + 2 ^ (e - w) * 2 ^ w * y) with (x + (2 ^ (e - w) * y) * 2 ^ w)
    by ring.
  apply Z_mod_plus_full.
Qed.

Lemma wrap_add_l (w x y : Z) : wrap w (wrap w x + y) = wrap w (x + y).
Proof.
  unfold wrap. destruct (Z.eq_dec (2 ^ w) 0) as [E|E].
  - rewrite E, !Z.mod_0_r. reflexivity.
  - apply Z.add_mod_idemp_l. exact E.
Qed.

(** In a base that is a power of two the loop computes the value modulo
    [2 ^ w]; [2 ^ e] is the place value of the next digit. *)
Lemma to_native_loop_pow2 (w k : Z) (ds : list Z) (v e : Z) :
  0 < w -> 0 < k -> B = 2 ^ k -> 0 <= e ->
  to_native_loop W M w ds (wrap w v) (wrap w (2 ^ e))
  = wrap w (v + 2 ^ e * lsb_value M ds).
Proof.
  intros Hw Hk HBk. revert v e.
  induction ds as [|d ds IH]; intros v e He.
  - simpl. rewrite Z.mul_0_r, Z.add_0_r. reflexivity.
  - cbn [to_native_loop lsb_value].
    rewrite wrap_add_l.
    assert (Hv' : wrap w (v + wrap w (2 ^ e) * d) = wrap w (v + 2 ^ e * d)).
    { rewrite (Z.add_comm v), <- wrap_add_l, wrap_mul_l, wrap_add_l.
      f_equal. ring. }
    rewrite Hv', wrap_mul_l, HBk, <- Z.pow_add_r by lia.
    destruct (wrap w (2 ^ (e + k)) <? bigd W (wrap w (2 ^ e))) eqn:E.
    + apply Z.ltb_lt in E.
      pose proof (bigd_le (wrap w (2 ^ e))
                    (proj1 (wrap_range w (2 ^ e) ltac:(lia)))) as Hle.
      destruct (Z_lt_le_dec (e + k) w) as [Hlt|Hge].
      * exfalso.
        rewrite (wrap_small w (2 ^ (e + k))) in E
          by (split; [apply Z.pow_nonneg; lia
                     | apply Z.pow_lt_mono_r; lia]).
        rewrite (wrap_small w (2 ^ e)) in E, Hle
          by (split; [apply Z.pow_nonneg; lia
                     | apply Z.pow_lt_mono_r; lia]).
        assert (2 ^ e < 2 ^ (e + k)) by (apply Z.pow_lt_mono_r; lia).
        lia.
      * replace (v + 2 ^ e * (d + 2 ^ k * lsb_value M ds))
          with (v + 2 ^ e * d + 2 ^ (e + k) * lsb_value M ds)
          by (rewrite Z.pow_add_r by lia; ring).
        rewrite (wrap_add_mul w _ _ (e + k)) by lia. reflexivity.
    + rewrite IH by lia. f_equal. rewrite Z.pow_add_r by lia. ring.
Qed.

Lemma to_native_pow2 (w k : Z) (a : number) :
  0 < w -> 0 < k -> B = 2 ^ k ->
  to_native W M w a = value M a mod 2 ^ w.
Proof.
  intros Hw Hk HBk. unfold to_native.
  change (wrap w 1) with (wrap w (2 ^ 0)).
  replace 0 with (wrap w 0) at 1 by (apply wrap_small; lia).
  rewrite (to_native_loop_pow2 w k) by (assumption || lia).
  rewrite <- value_rev, Z.pow_0_r. unfold wrap. f_equal. lia.
Qed.


(** *** Special cases *)

Lemma msd_zero (N : nat) :
  Z.of_nat N < 2 ^ 32 -> most_significant_digit (zero N) = 0.
Proof.
  intros HN. pose proof base_ge_2 as HB.
  destruct (msd_spec N (zero N) (zero_wf N) HN) as (Hm & _ & Hlow).
  rewrite value_zero in Hlow.
  destruct (Z.eq_dec (most_significant_digit (zero N)) 0) as [E|E];
    [exact E|].
  pose proof (base_pow_pos (most_significant_digit (zero N) - 1) ltac:(lia)).
  lia.
Qed.

Lemma mul_zero_r (N : nat) (a : number) :
  Z.of_nat N < 2 ^ 32 -> length a = N -> mul W M a (zero N) = zero N.
Proof.
  intros HN La. unfold mul. rewrite msd_zero by exact HN.
  rewrite La. reflexivity.
Qed.

Lemma sub_loop_zero (x : list Z) :
  digits_ok x -> sub_loop W M x (replicate (length x) 0) 0 = x.
Proof.
  pose proof base_ge_2 as HB.
  induction 1 as [|d x Hd Hx IH]; [reflexivity|].
  cbn [length replicate sub_loop].
  change (u32 (0 + 0)) with 0. rewrite Z.sub_0_r.
  rewrite bigd_small by (unfold base in *; nia).
  destruct (B + d <? B) eqn:E; [apply Z.ltb_lt in E; lia|].
  replace ((B + d) mod B) with d.
  - rewrite dig_small by exact Hd. rewrite IH. reflexivity.
  - symmetry. apply (div_mod_at (B + d) 1 d); unfold base in *; lia.
Qed.

Lemma sub_zero_r (N : nat) (a : number) :
  well_formed M N a -> sub W M a (zero N) = a.
Proof.
  intros [La Da]. unfold sub, zero.
  rewrite (rev_reverse (replicate N 0)), reverse_replicate.
  rewrite <- La, <- (length_rev a).
  rewrite sub_loop_zero by apply digits_ok_rev, Da.
  apply rev_involutive.
Qed.

(** *** Subtraction when a digit plus one can overflow [unsigned]

    With the full range of 32-bit digits the sum [borrow + *op2] of
    [operator-] wraps to zero for the digit [NDigitMax] and a borrow of
    one.  The digit that is stored is still right, and so is the borrow
    that goes on whenever no borrow came in or none is due. *)

Lemma sub_loop_head (d1 d2 c : Z) (x y : list Z) :
  M + 1 <= 2 ^ 32 -> 0 <= d1 <= M -> 0 <= d2 <= M -> 0 <= c <= 1 ->
  exists c',
    sub_loop W M (d1 :: x) (d2 :: y) c
    = (d1 - d2 - c) mod B :: sub_loop W M x y c'
    /\ 0 <= c' <= 1
    /\ (c = 0 -> c' = if d1 <? d2 then 1 else 0)
    /\ (d2 + c <= d1 -> c' = 0).
Proof.
  intros H32 Hd1 Hd2 Hc. pose proof base_ge_2 as HB.
  assert (HBM : B = M + 1) by reflexivity.
  cbn [sub_loop].
  set (u := u32 (c + d2)).
  assert (Hu : 0 <= u <= M + 1
               /\ (d1 - u) mod B = (d1 - d2 - c) mod B
               /\ (c = 0 -> u = d2)
               /\ (d2 + c <= d1 -> u <= d1)).
  { destruct (Z.eq_dec (c + d2) (2 ^ 32)) as [E|E].
    - assert (Hu0 : u = 0) by (unfold u; rewrite E; reflexivity).
      rewrite Hu0. split; [lia|]. split; [|lia].
      replace (d1 - d2 - c) with (d1 - 0 + -1 * B) by lia.
      rewrite Z_mod_plus_full. reflexivity.
    - assert (Hu0 : u = c + d2) by (unfold u; apply u32_small; lia).
      rewrite Hu0. split; [lia|]. split; [f_equal; lia | lia]. }
  destruct Hu as (Hur & Hum & Hu0 & Hule).
  rewrite (bigd_small (B + d1 - u)) by nia.
  assert (Hmod : (B + d1 - u) mod B = (d1 - d2 - c) mod B).
  { replace (B + d1 - u) with (d1 - u + 1 * B) by ring.
    rewrite Z_mod_plus_full. exact Hum. }
  rewrite Hmod.
  pose proof (Z.mod_pos_bound (d1 - d2 - c) B ltac:(lia)) as Hm.
  rewrite dig_small by lia.
  eexists. split; [reflexivity|]. split; [|split].
  - destruct (B + d1 - u <? B); lia.
  - intros Hc0. rewrite (Hu0 Hc0).
    destruct (B + d1 - d2 <? B) eqn:E1;
      destruct (d1 <? d2) eqn:E2; try reflexivity;
      [apply Z.ltb_lt in E1; apply Z.ltb_ge in E2
      | apply Z.ltb_ge in E1; apply Z.ltb_lt in E2]; lia.
  - intros Hle. specialize (Hule Hle).
    destruct (B + d1 - u <? B) eqn:E1; [apply Z.ltb_lt in E1; lia|].
    reflexivity.
Qed.

(** The loop stores as many digits as it reads, none above [NDigitMax]. *)
Lemma sub_loop_keeps_digits (x y : list Z) (c : Z) :
  M + 1 <= 2 ^ 32 -> length x = length y ->
  digits_ok x -> digits_ok y -> 0 <= c <= 1 ->
  length (sub_loop W M x y c) = length x
  /\ digits_ok (sub_loop W M x y c).
Proof.
  intros H32. pose proof base_ge_2 as HB.
  assert (HBM : B = M + 1) by reflexivity.
  revert y c. induction x as [|d1 x IH]; intros y c Hlen Hx Hy Hc.
  - split; [reflexivity | constructor].
  - destruct y as [|d2 y]; [discriminate|].
    inversion Hx as [|? ? Hd1 Hx']; inversion Hy as [|? ? Hd2 Hy']; subst.
    injection Hlen as Hlen.
    destruct (sub_loop_head d1 d2 c x y H32 Hd1 Hd2 Hc)
      as (c' & Heq & Hc' & _).
    rewrite Heq. destruct (IH y c' Hlen Hx' Hy' Hc') as [IH1 IH2].
    split; [simpl; rewrite IH1; reflexivity|].
    constructor; [|exact IH2].
    pose proof (Z.mod_pos_bound (d1 - d2 - c) B ltac:(lia)). lia.
Qed.

(** The two lowest digits of a difference are those of the difference of
    the values. *)
Lemma sub_low_digits (N : nat) (a b : number) (e : Z) :
  M + 1 <= 2 ^ 32 ->
  well_formed M N a -> well_formed M N b ->
  0 <= e <= 2 -> e <= Z.of_nat N ->
  well_formed M N (sub W M a b)
  /\ value M (sub W M a b) mod B ^ e = (value M a - value M b) mod B ^ e.
Proof.
  intros H32 [La Da] [Lb Db] He HeN. pose proof base_ge_2 as HB.
  assert (Hra : digits_ok (rev a)) by (apply digits_ok_rev; exact Da).
  assert (Hrb : digits_ok (rev b)) by (apply digits_ok_rev; exact Db).
  assert (Hlen : length (rev a) = length (rev b))
    by (rewrite !length_rev; lia).
  destruct (sub_loop_keeps_digits (rev a) (rev b) 0 H32 Hlen Hra Hrb
              ltac:(lia)) as [Ls Ds].
  split.
  { unfold sub. split.
    - rewrite length_rev, Ls, length_rev. exact La.
    - apply digits_ok_rev. exact Ds. }
  unfold sub. rewrite <- lsb_value_rev, (value_rev a), (value_rev b).
  assert (HlenN : length (rev a) = N) by (rewrite length_rev; exact La).
  clear Ls Ds La Lb Da Db.
  destruct (rev a) as [|d1 x]; destruct (rev b) as [|d2 y];
    try discriminate Hlen.
  - reflexivity.
  - injection Hlen as Hlen.
    inversion Hra as [|? ? Hd1 Hx]; inversion Hrb as [|? ? Hd2 Hy]; subst.
    destruct (sub_loop_head d1 d2 0 x y H32 Hd1 Hd2 ltac:(lia))
      as (c & Heq & Hc & Hc0 & _).
    rewrite Heq. cbn [lsb_value].
    assert (Hfirst : d1 - d2 - 0 = (d1 - d2 - 0) mod B - c * B).
    { rewrite (Hc0 eq_refl). destruct (d1 <? d2) eqn:E.
      - apply Z.ltb_lt in E.
        replace (d1 - d2 - 0) with (d1 - d2 + B + -1 * B) at 2 by ring.
        rewrite Z_mod_plus_full, Z.mod_small by (unfold base in *; lia). lia.
      - apply Z.ltb_ge in E. rewrite Z.mod_small by (unfold base in *; lia).
        lia. }
    set (x0 := (d1 - d2 - 0) mod B) in *.
    assert (Ecase : e = 0 \/ e = 1 \/ e = 2) by lia.
    destruct Ecase as [E|[E|E]]; subst e.
    + rewrite Z.pow_0_r, !Z.mod_1_r. reflexivity.
    + rewrite Z.pow_1_r.
      replace (d1 + B * lsb_value M x - (d2 + B * lsb_value M y))
        with (x0 + (lsb_value M x - lsb_value M y - c) * B) by lia.
      rewrite Z_mod_plus_full.
      replace (x0 + B * lsb_value M (sub_loop W M x y c))
        with (x0 + lsb_value M (sub_loop W M x y c) * B) by ring.
      rewrite Z_mod_plus_full. reflexivity.
    + destruct x as [|e1 x]; destruct y as [|e2 y]; try discriminate Hlen.
      { simpl in HeN. lia. }
      inversion Hx as [|? ? He1 Hx']; inversion Hy as [|? ? He2 Hy']; subst.
      destruct (sub_loop_head e1 e2 c x y H32 He1 He2 Hc)
        as (c2 & Heq2 & _ & _).
      rewrite Heq2. cbn [lsb_value].
      set (x1 := (e1 - e2 - c) mod B).
      pose proof (Z.div_mod (e1 - e2 - c) B ltac:(lia)) as Hdm.
      fold x1 in Hdm.
      set (q := (e1 - e2 - c) / B) in *.
      replace (B ^ 2) with (B * B) by ring.
      replace (d1 + B * (e1 + B * lsb_value M x)
               - (d2 + B * (e2 + B * lsb_value M y)))
        with (x0 + B * x1 + (q + lsb_value M x - lsb_value M y) * (B * B))
        by nia.
      rewrite Z_mod_plus_full.
      replace (x0 + B * (x1 + B * lsb_value M (sub_loop W M x y c2)))
        with (x0 + B * x1 + lsb_value M (sub_loop W M x y c2) * (B * B))
        by ring.
      rewrite Z_mod_plus_full. reflexivity.
Qed.

Lemma lsb_zero_replicate (l : list Z) :
  digits_ok l -> lsb_value M l = 0 -> l = replicate (length l) 0.
Proof.
  pose proof base_ge_2 as HB.
  induction 1 as [|d l Hd Hl IH]; intros Hz; [reflexivity|].
  cbn [lsb_value] in Hz. pose proof (lsb_value_bound l Hl) as Hb.
  assert (Hd0 : d = 0) by nia. assert (Hl0 : lsb_value M l = 0) by nia.
  cbn [length replicate]. rewrite Hd0, <- (IH Hl0). reflexivity.
Qed.

(** A difference that does not go below zero, of numbers below
    [base ^ 2], is exact. *)
Lemma sub_exact_two (N : nat) (a b : number) :
  M + 1 <= 2 ^ 32 ->
  well_formed M N a -> well_formed M N b ->
  value M b <= value M a < B ^ 2 ->
  well_formed M N (sub W M a b)
  /\ value M (sub W M a b) = value M a - value M b.
Proof.
  intros H32 Wa Wb Hab. pose proof base_ge_2 as HB.
  assert (HBM : B = M + 1) by reflexivity.
  destruct (sub_low_digits N a b 0 H32 Wa Wb ltac:(lia) ltac:(lia))
    as [Wd _].
  split; [exact Wd|].
  destruct Wa as [La Da], Wb as [Lb Db].
  assert (Hra : digits_ok (rev a)) by (apply digits_ok_rev; exact Da).
  assert (Hrb : digits_ok (rev b)) by (apply digits_ok_rev; exact Db).
  assert (Hlen : length (rev a) = length (rev b))
    by (rewrite !length_rev; lia).
  unfold sub. rewrite <- lsb_value_rev.
  rewrite (value_rev a), (value_rev b) in *.
  clear Wd La Lb Da Db.
  destruct (rev a) as [|d1 x]; destruct (rev b) as [|d2 y];
    try discriminate Hlen; [reflexivity|].
  injection Hlen as Hlen.
  inversion Hra as [|? ? Hd1 Hx]; inversion Hrb as [|? ? Hd2 Hy]; subst.
  destruct (sub_loop_head d1 d2 0 x y H32 Hd1 Hd2 ltac:(lia))
    as (c & Heq & Hc & Hc0 & _).
  rewrite Heq. cbn [lsb_value] in *.
  pose proof (lsb_value_bound x Hx) as Hbx.
  pose proof (lsb_value_bound y Hy) as Hby.
  assert (Hx0 : (d1 - d2 - 0) mod B = d1 - d2 + c * B).
  { rewrite (Hc0 eq_refl). destruct (d1 <? d2) eqn:E.
    - apply Z.ltb_lt in E.
      replace (d1 - d2 - 0) with (d1 - d2 + B + -1 * B) by ring.
      rewrite Z_mod_plus_full, Z.mod_small by lia. lia.
    - apply Z.ltb_ge in E. rewrite Z.mod_small by lia. lia. }
  rewrite Hx0.
  destruct x as [|e1 x]; destruct y as [|e2 y]; try discriminate Hlen.
  { cbn [sub_loop lsb_value] in *.
    assert (c = 0); [|lia].
    rewrite (Hc0 eq_refl). destruct (d1 <? d2) eqn:E; [apply Z.ltb_lt in E; lia|].
    reflexivity. }
  injection Hlen as Hlen.
  inversion Hx as [|? ? He1 Hx']; inversion Hy as [|? ? He2 Hy']; subst.
  cbn [lsb_value] in *.
  pose proof (lsb_value_bound x Hx') as Hbx'.
  pose proof (lsb_value_bound y Hy') as Hby'.
  replace (B ^ 2) with (B * B) in Hab by ring.
  assert (Hzx : lsb_value M x = 0) by nia.
  assert (Hzy : lsb_value M y = 0) by nia.
  assert (Hc1 : e2 + c <= e1).
  { rewrite Hzx, Hzy in Hab. rewrite (Hc0 eq_refl).
    destruct (d1 <? d2) eqn:E;
      [apply Z.ltb_lt in E | apply Z.ltb_ge in E]; nia. }
  destruct (sub_loop_head e1 e2 c x y H32 He1 He2 Hc)
    as (c2 & Heq2 & _ & _ & Hc2).
  rewrite Heq2, (Hc2 Hc1). cbn [lsb_value].
  assert (Hrest : lsb_value M (sub_loop W M x y 0) = 0).
  { rewrite (lsb_zero_replicate y Hy' Hzy), <- Hlen, (sub_loop_zero x Hx').
    exact Hzx. }
  rewrite Hrest, Hzx, Hzy. rewrite Z.mod_small by lia. ring.
Qed.

Lemma value_one (N : nat) :
  (0 < N)%nat -> value M (from_native W M N 1) = 1.
Proof.
  intros HN. pose proof base_ge_2 as HB.
  rewrite from_native_value by lia. apply Z.mod_small.
  split; [lia|]. replace (Z.of_nat N) with (Z.succ (Z.of_nat (N - 1))) by lia.
  rewrite Z.pow_succ_r by lia.
  pose proof (base_pow_pos (Z.of_nat (N - 1)) ltac:(lia)). nia.
Qed.


(** *** Digit windows *)

Lemma div_pow_digit (x p : Z) :
  0 <= p -> x / B ^ p = B * (x / B ^ (p + 1)) + (x / B ^ p) mod B.
Proof.
  intros Hp. pose proof base_ge_2 as HB.
  rewrite Z.pow_add_r, Z.pow_1_r by lia.
  rewrite <- Z.div_div by (try apply base_pow_pos; lia).
  apply Z.div_mod. lia.
Qed.

Lemma fold_left_map {S X Y : Type} (f : S -> Y -> S) (g : X -> Y)
    (l : list X) (s : S) :
  fold_left f (map g l) s = fold_left (fun s x => f s (g x)) l s.
Proof.
  revert s. induction l as [|x l IH]; intros s; simpl; [reflexivity|].
  apply IH.
Qed.

Lemma digit_neg (a : number) (p : Z) :
  num_digits a + 2 < 2 ^ 32 -> -2 <= p < 0 -> digit a p = 0.
Proof.
  intros HN Hp. unfold digit, u32, wrap, num_digits in *.
  replace (p mod 2 ^ 32) with (p + 2 ^ 32)
    by (apply (Z.mod_unique_pos _ _ (-1)); lia).
  destruct (p + 2 ^ 32 >=? len a) eqn:E; [reflexivity|].
  rewrite Z.geb_leb in E. apply Z.leb_gt in E. lia.
Qed.

Lemma digit_zero (N : nat) (p : Z) :
  Z.of_nat N < 2 ^ 32 -> 0 <= p < 2 ^ 32 -> digit (zero N) p = 0.
Proof.
  intros HN Hp. pose proof base_ge_2 as HB.
  rewrite (digit_value N) by (try apply zero_wf; lia).
  rewrite value_zero, Z.div_0_l, Z.mod_0_l;
    [reflexivity | lia | pose proof (base_pow_pos p); lia].
Qed.

(** The widening assignment copies the value. *)
Lemma widen_spec (N N1 : nat) (a : number) :
  well_formed M N a -> (N <= N1)%nat -> Z.of_nat N1 < 2 ^ 32 ->
  well_formed M N1 (widen W M N1 a) /\ value M (widen W M N1 a) = value M a.
Proof.
  intros Wa HNN HN1. pose proof base_ge_2 as HB. unfold widen.
  pose proof (value_bound N a Wa) as Ha.
  assert (Hinv : well_formed M N1
            (fold_left (fun r i => set_digit W M r i (digit a i))
               (upto (Z.of_nat N1)) (zero N1))
          /\ value M (fold_left (fun r i => set_digit W M r i (digit a i))
               (upto (Z.of_nat N1)) (zero N1))
             = value M a mod B ^ Z.of_nat N1
          /\ (forall q, Z.of_nat N1 <= q < 2 ^ 32 ->
                digit (fold_left (fun r i => set_digit W M r i (digit a i))
                         (upto (Z.of_nat N1)) (zero N1)) q = 0)).
  { apply (fold_upto (fun r i => set_digit W M r i (digit a i))
             (fun i r => well_formed M N1 r
                         /\ value M r = value M a mod B ^ i
                         /\ (forall q, i <= q < 2 ^ 32 -> digit r q = 0))).
    - split; [apply zero_wf|]. split.
      + rewrite value_zero, Z.pow_0_r, Z.mod_1_r. reflexivity.
      + intros q Hq. apply (digit_zero N1); lia.
    - intros i r Hi (Wr & Vr & Zr).
      pose proof (digit_range N a i Wa ltac:(lia) ltac:(lia)) as Hd.
      split; [apply set_digit_wf, Wr|]. split.
      + rewrite (set_digit_value N1) by (assumption || lia).
        rewrite stored_digit by exact Hd. rewrite Zr by lia.
        rewrite Vr, mod_pow_succ by lia.
        rewrite (digit_value N a i) by (assumption || lia). ring.
      + intros q Hq. rewrite digit_set_digit_other;
          [apply Zr; lia | rewrite (wf_num_digits N1 r Wr); lia
          | lia | lia | lia].
    - lia. }
  destruct Hinv as (H1 & H2 & _). split; [exact H1|].
  rewrite H2. apply Z.mod_small. split; [lia|].
  apply Z.lt_le_trans with (B ^ Z.of_nat N); [lia|].
  apply Z.pow_le_mono_r; lia.
Qed.

(** Reading the window of [n + 1] digits of [num] that starts at the
    digit [j]. *)
Lemma window_read (N1 : nat) (num : number) (j n : Z) :
  well_formed M N1 num -> 2 * Z.of_nat N1 < 2 ^ 32 ->
  0 <= j <= Z.of_nat N1 -> 0 <= n < Z.of_nat N1 ->
  value M num / B ^ j < B ^ (n + 1) ->
  well_formed M N1
    (fold_left (fun s i => set_digit W M s (i - j) (digit num i))
       (window j n) (zero N1))
  /\ value M (fold_left (fun s i => set_digit W M s (i - j) (digit num i))
                (window j n) (zero N1))
     = value M num / B ^ j.
Proof.
  intros Wn HN1 Hj Hn Hfit. pose proof base_ge_2 as HB.
  pose proof (value_bound N1 num Wn) as Hu.
  set (S := value M num / B ^ j) in *.
  assert (HS : 0 <= S) by (apply Z.div_pos; [lia | apply base_pow_pos; lia]).
  unfold window. rewrite fold_left_map.
  pose proof (fold_upto
    (fun s k => set_digit W M s (j + n - k - j) (digit num (j + n - k)))
    (fun k s => well_formed M N1 s
                /\ value M s = S / B ^ (n + 1 - k) * B ^ (n + 1 - k)
                /\ (forall q, 0 <= q < n + 1 - k -> digit s q = 0))
    (n + 1) (zero N1)) as Hfold.
  destruct Hfold as (H1 & H2 & _).
  - split; [apply zero_wf|]. split.
    + rewrite value_zero, Z.sub_0_r, Z.div_small by lia. reflexivity.
    + intros q Hq. apply (digit_zero N1); lia.
  - intros k s Hk (Ws & Vs & Zs).
    replace (j + n - k - j) with (n - k) by lia.
    pose proof (digit_range N1 num (j + n - k) Wn ltac:(lia) ltac:(lia)) as Hd.
    split; [apply set_digit_wf, Ws|]. split.
    + rewrite (set_digit_value N1) by (assumption || lia).
      rewrite stored_digit by exact Hd. rewrite Zs by lia.
      rewrite Vs. rewrite (digit_value N1 num) by (assumption || lia).
      replace (j + n - k) with (j + (n - k)) by lia.
      rewrite Z.pow_add_r, <- Z.div_div by (try apply base_pow_pos; lia).
      fold S.
      replace (n + 1 - k) with (n - k + 1) by lia.
      replace (n + 1 - (k + 1)) with (n - k) by lia.
      rewrite (div_pow_digit S (n - k)) at 2 by lia.
      rewrite (Z.pow_add_r B (n - k) 1), Z.pow_1_r by lia. ring.
    + intros q Hq. rewrite digit_set_digit_other;
        [apply Zs; lia | rewrite (wf_num_digits N1 s Ws); lia
        | lia | lia | lia].
  - lia.
  - split; [exact H1|]. rewrite H2.
    replace (n + 1 - (n + 1)) with 0 by lia.
    rewrite Z.pow_0_r, Z.div_1_r. ring.
Qed.

(** Writing the low [n + 1] digits of [diff] back over the window. *)
Lemma window_write (N1 : nat) (num diff : number) (j n : Z) :
  well_formed M N1 num -> well_formed M N1 diff ->
  2 * Z.of_nat N1 < 2 ^ 32 ->
  0 <= j -> 0 <= n -> j + n <= Z.of_nat N1 ->
  value M num < B ^ (j + n + 1) -> value M diff < B ^ n ->
  well_formed M N1
    (fold_left (fun u i => set_digit W M u i (digit diff (i - j)))
       (window j n) num)
  /\ value M (fold_left (fun u i => set_digit W M u i (digit diff (i - j)))
                (window j n) num)
     = value M num mod B ^ j + value M diff * B ^ j.
Proof.
  intros Wn Wd HN1 Hj Hn Hjn Hu Hd. pose proof base_ge_2 as HB.
  pose proof (value_bound N1 num Wn) as HU.
  pose proof (value_bound N1 diff Wd) as HD.
  set (U := value M num) in *. set (D := value M diff) in *.
  unfold window. rewrite fold_left_map.
  pose proof (fold_upto
    (fun u k => set_digit W M u (j + n - k) (digit diff (j + n - k - j)))
    (fun k u => well_formed M N1 u
                /\ value M u = U mod B ^ (j + n + 1 - k)
                               + D / B ^ (n + 1 - k) * B ^ (j + n + 1 - k)
                /\ (forall q, 0 <= q <= j + n - k -> digit u q = digit num q))
    (n + 1) num) as Hfold.
  destruct Hfold as (H1 & H2 & _).
  - split; [exact Wn|]. split; [|reflexivity].
    rewrite !Z.sub_0_r, Z.mod_small by lia.
    rewrite (Z.div_small D) by (split; [lia|];
      apply Z.lt_le_trans with (B ^ n); [lia | apply Z.pow_le_mono_r; lia]).
    fold U. ring.
  - intros k u Hk (Wu & Vu & Du).
    replace (j + n - k - j) with (n - k) by lia.
    pose proof (digit_range N1 diff (n - k) Wd ltac:(lia) ltac:(lia)) as Hdd.
    split; [apply set_digit_wf, Wu|]. split.
    + destruct (Z_lt_le_dec (j + n - k) (Z.of_nat N1)) as [Hin|Hout].
      * rewrite (set_digit_value N1) by (assumption || lia).
        rewrite stored_digit by exact Hdd. rewrite Du by lia.
        rewrite Vu.
        rewrite (digit_value N1 num) by (assumption || lia).
        rewrite (digit_value N1 diff) by (assumption || lia).
        fold U D.
        replace (j + n + 1 - k) with (j + n - k + 1) by lia.
        replace (j + n + 1 - (k + 1)) with (j + n - k) by lia.
        replace (n + 1 - k) with (n - k + 1) by lia.
        replace (n + 1 - (k + 1)) with (n - k) by lia.
        rewrite (mod_pow_succ U (j + n - k)) by lia.
        rewrite (div_pow_digit D (n - k)) at 2 by lia.
        rewrite (Z.pow_add_r B (j + n - k) 1), Z.pow_1_r by lia. ring.
      * rewrite set_digit_out by (rewrite (wf_num_digits N1 u Wu); lia).
        rewrite Vu.
        assert (Hk0 : k = 0) by lia. subst k.
        rewrite !Z.sub_0_r.
        replace (j + n + 1 - (0 + 1)) with (j + n) by lia.
        replace (n + 1 - (0 + 1)) with n by lia.
        assert (HUs : U < B ^ (j + n)).
        { apply Z.lt_le_trans with (B ^ Z.of_nat N1); [lia|].
          apply Z.pow_le_mono_r; lia. }
        rewrite !Z.mod_small by lia.
        rewrite (Z.div_small D (B ^ n)) by lia.
        rewrite (Z.div_small D) by (split; [lia|];
          apply Z.lt_le_trans with (B ^ n); [lia | apply Z.pow_le_mono_r; lia]).
        ring.
    + intros q Hq. rewrite digit_set_digit_other;
        [apply Du; lia | rewrite (wf_num_digits N1 u Wu); lia
        | lia | lia | lia].
  - lia.
  - split; [exact H1|]. rewrite H2.
    replace (j + n + 1 - (n + 1)) with j by lia.
    replace (n + 1 - (n + 1)) with 0 by lia.
    rewrite Z.pow_0_r, Z.div_1_r. reflexivity.
Qed.


(** *** The two correction loops of the division *)

Lemma big_fuel : 2 ^ Z.of_nat (Z.to_nat (2 * W)) = 2 ^ W * 2 ^ W.
Proof. destruct Hcfg. rewrite Z2Nat.id by lia. symmetry. apply big_pow. Qed.

(** The first loop returns an estimate that is below the base and not
    below the true quotient digit [q], given that the starting estimate
    [top / d1] comes from a window with [top < (d1 + 1) * base] and that the
    second test of the loop only fires above [q]. *)
Lemma correct_estimate_spec (d1 d2 u2 top q : Z) :
  0 < d1 <= M -> 0 <= d2 <= M -> 0 <= u2 <= M ->
  0 <= top < (d1 + 1) * B ->
  0 <= q < B -> q * d1 <= top ->
  (forall qh rh, qh * d1 + rh = top -> q <= qh -> 0 <= rh ->
                 qh * d2 > B * rh + u2 -> q < qh) ->
  exists qh rh,
    loop (Z.to_nat (2 * W)) (correct_estimate_step W M d1 d2 u2)
      (top / d1, top mod d1) = inr (qh, rh)
    /\ q <= qh < B.
Proof.
  intros Hd1 Hd2 Hu2 Htop Hq Hqd Hsound.
  pose proof base_ge_2 as HB. pose proof base_le_pow as HBW.
  set (P := fun st : Z * Z =>
              fst st * d1 + snd st = top /\ q <= fst st /\ 0 <= snd st < B).
  set (Q := fun st : Z * Z => q <= fst st < B).
  assert (Hstep_go : forall s s', P s ->
            correct_estimate_step W M d1 d2 u2 s = inl s' ->
            P s' /\ (B - snd s') + 1 <= B - snd s).
  { intros [qh rh] [qh' rh'] (He & Hge & Hrh). cbn [fst snd] in *.
    unfold correct_estimate_step.
    destruct ((qh >=? B) || (qh * d2 >? B * rh + u2)) eqn:C; [|discriminate].
    assert (Hqh : q < qh /\ 1 <= qh).
    { apply orb_true_iff in C. destruct C as [C|C].
      - apply Z.geb_le in C. lia.
      - rewrite Z.gtb_ltb in C. apply Z.ltb_lt in C.
        split; [apply (Hsound qh rh); lia | nia]. }
    assert (Hqhb : qh < B * B) by (unfold base in *; nia).
    rewrite (bigd_small (qh - 1)) by lia.
    rewrite (bigd_small (rh + d1)) by (unfold base in *; nia).
    destruct (rh + d1 >=? B) eqn:E; [discriminate|].
    rewrite Z.geb_leb in E. apply Z.leb_gt in E.
    intros Heq. injection Heq as <- <-. unfold P. cbn [fst snd].
    repeat split; lia. }
  assert (Hstep_end : forall s r, P s ->
            correct_estimate_step W M d1 d2 u2 s = inr r -> Q r).
  { intros [qh rh] [qh' rh'] (He & Hge & Hrh). cbn [fst snd] in *.
    unfold correct_estimate_step, Q.
    destruct ((qh >=? B) || (qh * d2 >? B * rh + u2)) eqn:C.
    - assert (Hqh : q < qh /\ 1 <= qh).
      { apply orb_true_iff in C. destruct C as [C|C].
        - apply Z.geb_le in C. lia.
        - rewrite Z.gtb_ltb in C. apply Z.ltb_lt in C.
          split; [apply (Hsound qh rh); lia | nia]. }
      assert (Hqhb : qh < B * B) by (unfold base in *; nia).
      rewrite (bigd_small (qh - 1)) by lia.
      rewrite (bigd_small (rh + d1)) by (unfold base in *; nia).
      destruct (rh + d1 >=? B) eqn:E; [|discriminate].
      apply Z.geb_le in E.
      intros Heq. injection Heq as <- <-. cbn [fst]. split; [lia|]. nia.
    - apply orb_false_iff in C. destruct C as [C _].
      rewrite Z.geb_leb in C. apply Z.leb_gt in C.
      intros Heq. injection Heq as <- <-. cbn [fst]. lia. }
  assert (HP0 : P (top / d1, top mod d1)).
  { unfold P. cbn [fst snd].
    pose proof (Z.div_mod top d1 ltac:(lia)).
    pose proof (Z.mod_pos_bound top d1 ltac:(lia)).
    split; [lia|]. split; [apply Z.div_le_lower_bound; lia|].
    unfold base in *. lia. }
  destruct (loop_ends P (fun s => B - snd s)
              (correct_estimate_step W M d1 d2 u2)
              (Z.to_nat (2 * W)) (top / d1, top mod d1))
    as [[qh rh] Hr].
  - exact Hstep_go.
  - intros s (_ & _ & Hs). lia.
  - exact HP0.
  - rewrite big_fuel. cbn [snd].
    pose proof (Z.mod_pos_bound top d1 ltac:(lia)). nia.
  - exists qh, rh. split; [exact Hr|].
    pose proof (loop_invariant P Q (correct_estimate_step W M d1 d2 u2)
                  (fun s s' Hs E => proj1 (Hstep_go s s' Hs E)) Hstep_end
                  (Z.to_nat (2 * W)) _ HP0) as Hinv.
    rewrite Hr in Hinv. exact Hinv.
Qed.

(** The second loop brings the estimate down to the true quotient digit
    and returns its product with the divisor. *)
Lemma correct_trial_spec (N1 : nat) (sig den : number) (qh0 : Z) :
  well_formed M N1 sig -> well_formed M N1 den ->
  2 * Z.of_nat N1 < 2 ^ 32 ->
  0 < value M den -> B * value M den <= B ^ Z.of_nat N1 ->
  value M sig / value M den <= qh0 < B ->
  exists trial,
    loop (Z.to_nat (2 * W)) (correct_trial_step W M N1 sig den)
      (qh0, mul W M (from_native W M N1 qh0) den)
    = inr (value M sig / value M den, trial)
    /\ well_formed M N1 trial
    /\ value M trial = value M sig / value M den * value M den.
Proof.
  intros Ws Wd HN1 Hdv Hfit Hqh0.
  pose proof base_ge_2 as HB. pose proof base_le_pow as HBW.
  pose proof (value_bound N1 sig Ws) as HS.
  set (S := value M sig) in *. set (dv := value M den) in *.
  assert (Hq0 : 0 <= S / dv) by (apply Z.div_pos; lia).
  assert (Hmul : forall qh, 0 <= qh < B ->
            well_formed M N1 (mul W M (from_native W M N1 qh) den)
            /\ value M (mul W M (from_native W M N1 qh) den) = qh * dv).
  { intros qh Hqh.
    pose proof (from_native_wf N1 qh (proj1 Hqh)) as Wq.
    split; [exact (mul_wf N1 _ _ Wq Wd HN1)|].
    rewrite (mul_value N1 _ _ Wq Wd HN1).
    rewrite from_native_value by lia. fold dv.
    assert (Hcap : B <= B ^ Z.of_nat N1).
    { apply Z.le_trans with (B * dv); [nia | exact Hfit]. }
    rewrite (Z.mod_small qh) by lia.
    apply Z.mod_small. nia. }
  set (P := fun st : Z * number =>
              S / dv <= fst st < B /\ well_formed M N1 (snd st)
              /\ value M (snd st) = fst st * dv).
  set (Q := fun st : Z * number =>
              fst st = S / dv /\ well_formed M N1 (snd st)
              /\ value M (snd st) = fst st * dv).
  assert (Hstep_go : forall s s', P s ->
            correct_trial_step W M N1 sig den s = inl s' ->
            P s' /\ fst s' + 1 <= fst s).
  { intros [qh trial] [qh' trial'] (Hqh & Wt & Vt). cbn [fst snd] in *.
    unfold correct_trial_step.
    rewrite (ltb_value N1) by assumption. fold S. rewrite Vt.
    destruct (S <? qh * dv) eqn:C; [|discriminate].
    apply Z.ltb_lt in C.
    assert (Hlt : S / dv < qh) by (apply Z.div_lt_upper_bound; lia).
    rewrite (bigd_small (qh - 1)) by nia.
    intros Heq. injection Heq as <- <-. unfold P. cbn [fst snd].
    destruct (Hmul (qh - 1) ltac:(lia)) as [H1 H2].
    split; [split; [lia | split; [exact H1 | exact H2]] | lia]. }
  assert (Hstep_end : forall s r, P s ->
            correct_trial_step W M N1 sig den s = inr r -> Q r).
  { intros [qh trial] [qh' trial'] (Hqh & Wt & Vt). cbn [fst snd] in *.
    unfold correct_trial_step, Q.
    rewrite (ltb_value N1) by assumption. fold S. rewrite Vt.
    destruct (S <? qh * dv) eqn:C; [discriminate|].
    apply Z.ltb_ge in C.
    intros Heq. injection Heq as <- <-. cbn [fst snd].
    assert (qh <= S / dv) by (apply Z.div_le_lower_bound; lia).
    split; [lia | split; assumption]. }
  assert (HP0 : P (qh0, mul W M (from_native W M N1 qh0) den)).
  { unfold P. cbn [fst snd]. destruct (Hmul qh0 ltac:(lia)) as [H1 H2].
    split; [lia | split; assumption]. }
  destruct (loop_ends P fst (correct_trial_step W M N1 sig den)
              (Z.to_nat (2 * W)) (qh0, mul W M (from_native W M N1 qh0) den))
    as [[qh trial] Hr].
  - exact Hstep_go.
  - intros s (Hs & _). lia.
  - exact HP0.
  - rewrite big_fuel. cbn [fst]. nia.
  - pose proof (loop_invariant P Q (correct_trial_step W M N1 sig den)
                  (fun s s' Hs E => proj1 (Hstep_go s s' Hs E)) Hstep_end
                  (Z.to_nat (2 * W)) _ HP0) as Hinv.
    rewrite Hr in Hinv. destruct Hinv as (E1 & E2 & E3). cbn [fst snd] in *.
    subst qh. exists trial. auto.
Qed.


(** *** One quotient digit *)

Lemma pow_split (i j : Z) : 0 <= i -> 0 <= j -> B ^ (i + j) = B ^ i * B ^ j.
Proof. intros. apply Z.pow_add_r; assumption. Qed.

(** The second test of the first correction loop fires only when the
    estimate is above the true quotient digit. *)
Lemma second_test_sound (Sv dv top d1 d2 u2 q qh rh p : Z) :
  0 < p -> 0 <= Sv -> 0 < dv ->
  (B * d1 + d2) * p <= dv -> Sv < (B * top + u2 + 1) * p ->
  q * dv <= Sv -> 0 <= q ->
  qh * d1 + rh = top -> q <= qh -> qh * d2 > B * rh + u2 -> q < qh.
Proof.
  intros Hp HS Hdv Hden Hnum Hq Hq0 He Hge Hc.
  destruct (Z_lt_le_dec q qh) as [Hlt|Hle]; [exact Hlt|].
  exfalso. assert (q = qh) by lia. subst qh.
  assert (H1 : q * ((B * d1 + d2) * p) <= q * dv)
    by (apply Z.mul_le_mono_nonneg_l; lia).
  assert (H2 : q * (B * d1 + d2) * p < (B * top + u2 + 1) * p) by lia.
  assert (H3 : q * (B * d1 + d2) < B * top + u2 + 1).
  { apply Z.mul_lt_mono_pos_r with p; lia. }
  subst top. lia.
Qed.

Lemma div_step_spec (N : nat) (den : number) (num0 n j : Z)
    (st : number * number) :
  unsigned_safe M \/ (M + 1 <= 2 ^ 32 /\ n = 1) ->
  index_safe N ->
  well_formed M (S N) den ->
  B ^ (n - 1) <= value M den < B ^ n ->
  1 <= n <= Z.of_nat N -> 0 <= j -> j + n <= Z.of_nat N + 1 ->
  num0 < value M den * B ^ Z.of_nat N ->
  div_inv M N (value M den) num0 (j + 1) st ->
  exists st',
    div_step W M (S N) den n (Some st) j = Some st'
    /\ div_inv M N (value M den) num0 j st'.
Proof.
  intros Hsub HN Wden Hdv Hn Hj Hjn Hnum0 Hinv.
  unfold index_safe in HN. pose proof base_ge_2 as HB.
  destruct st as [num quotient]. unfold div_inv in Hinv. cbn [fst snd] in Hinv.
  destruct Hinv as (Wnum & Wquo & Heq & HU & Hqm).
  set (dv := value M den) in *. set (U := value M num) in *.
  set (Qv := value M quotient) in *.
  assert (HN1 : Z.of_nat (S N) = Z.of_nat N + 1) by lia.
  assert (Hdv0 : 0 < dv).
  { pose proof (base_pow_pos (n - 1) ltac:(lia)). lia. }
  pose proof (base_pow_pos j Hj) as HBj.
  pose proof (base_pow_pos (n - 1) ltac:(lia)) as HBn1.
  pose proof (base_pow_pos (j + n - 1) ltac:(lia)) as HBjn1.
  assert (HBn : B ^ n = B * B ^ (n - 1)).
  { replace n with (Z.succ (n - 1)) at 1 by lia. apply Z.pow_succ_r. lia. }
  assert (HBj1 : B ^ (j + 1) = B * B ^ j).
  { replace (j + 1) with (Z.succ j) by lia. apply Z.pow_succ_r. lia. }
  assert (HBjn : B ^ (j + n - 1) = B ^ j * B ^ (n - 1)).
  { replace (j + n - 1) with (j + (n - 1)) by lia. apply pow_split; lia. }
  (* the window and the true quotient digit *)
  set (Sv := U / B ^ j).
  assert (HS0 : 0 <= Sv) by (apply Z.div_pos; lia).
  assert (HSlt : Sv < dv * B).
  { apply Z.div_lt_upper_bound; [lia|]. rewrite HBj1 in HU. nia. }
  set (q := Sv / dv).
  assert (Hq : 0 <= q < B).
  { split; [apply Z.div_pos; lia|]. apply Z.div_lt_upper_bound; lia. }
  assert (Hqle : q * dv <= Sv).
  { unfold q. rewrite Z.mul_comm. apply Z.mul_div_le. lia. }
  assert (Hqgt : Sv < (q + 1) * dv).
  { unfold q. pose proof (Z.mod_pos_bound Sv dv Hdv0).
    pose proof (Z.div_mod Sv dv ltac:(lia)). nia. }
  (* the two leading digits of the window, the leading digit of the divisor *)
  set (top := U / B ^ (j + n - 1)).
  assert (Htop_S : top = Sv / B ^ (n - 1)).
  { unfold top, Sv. rewrite HBjn. symmetry. apply Z.div_div; lia. }
  set (d1 := dv / B ^ (n - 1)).
  assert (Hd1 : 1 <= d1 < B).
  { split; [apply Z.div_le_lower_bound; lia|].
    apply Z.div_lt_upper_bound; lia. }
  assert (Hd1le : d1 * B ^ (n - 1) <= dv).
  { unfold d1. rewrite Z.mul_comm. apply Z.mul_div_le. lia. }
  assert (Hd1gt : dv < (d1 + 1) * B ^ (n - 1)).
  { unfold d1. pose proof (Z.mod_pos_bound dv (B ^ (n - 1)) HBn1).
    pose proof (Z.div_mod dv (B ^ (n - 1)) ltac:(lia)). nia. }
  assert (Htop : 0 <= top < (d1 + 1) * B).
  { split; [apply Z.div_pos; lia|]. rewrite Htop_S.
    apply Z.div_lt_upper_bound; [lia|]. nia. }
  assert (Hqd : q * d1 <= top).
  { rewrite Htop_S. apply Z.div_le_lower_bound; [lia|]. nia. }
  assert (E_top : bigd W (digit num (j + n) * B + digit num (j + n - 1)) = top).
  { rewrite !(digit_value (S N) num) by (assumption || lia). fold U.
    assert (Hhigh : U / B ^ (j + n) < B).
    { apply Z.div_lt_upper_bound; [apply base_pow_pos; lia|].
      replace (j + n) with (j + n - 1 + 1) by lia.
      rewrite (pow_split (j + n - 1) 1), Z.pow_1_r by lia.
      rewrite HBjn, HBj1 in *. rewrite HBn in Hdv. nia. }
    rewrite (Z.mod_small (U / B ^ (j + n)))
      by (split; [apply Z.div_pos; [lia | apply base_pow_pos; lia] | lia]).
    pose proof (div_pow_digit U (j + n - 1) ltac:(lia)) as Hd.
    replace (j + n - 1 + 1) with (j + n) in Hd by lia.
    fold top in Hd. fold top.
    replace (U / B ^ (j + n) * B + top mod B) with top by lia.
    apply bigd_small. nia. }
  assert (E_d1 : digit den (n - 1) = d1).
  { rewrite (digit_value (S N) den) by (assumption || lia). fold dv d1.
    apply Z.mod_small. lia. }
  assert (Hd2 : 0 <= digit den (n - 2) <= M).
  { destruct (Z.eq_dec n 1) as [->|Hn1].
    - rewrite digit_neg; [destruct Hcfg; lia
                         | rewrite (wf_num_digits (S N) den Wden); lia | lia].
    - apply (digit_range (S N)); assumption || lia. }
  assert (Hu2 : 0 <= digit num (j + n - 2) <= M).
  { destruct (Z_lt_le_dec (j + n - 2) 0) as [Hneg|Hpos].
    - rewrite digit_neg; [destruct Hcfg; lia
                         | rewrite (wf_num_digits (S N) num Wnum); lia | lia].
    - apply (digit_range (S N)); assumption || lia. }
  assert (Hsound : forall qh rh, qh * d1 + rh = top -> q <= qh -> 0 <= rh ->
            qh * digit den (n - 2) > B * rh + digit num (j + n - 2) -> q < qh).
  { intros qh rh He Hge Hrh Hc.
    destruct (Z.eq_dec n 1) as [Hn1|Hn1].
    - subst n. rewrite (digit_neg den) in Hc
        by (rewrite ?(wf_num_digits (S N) den Wden); lia). nia.
    - pose proof (base_pow_pos (n - 2) ltac:(lia)) as HBn2.
      assert (HBn1' : B ^ (n - 1) = B * B ^ (n - 2)).
      { replace (n - 1) with (Z.succ (n - 2)) by lia.
        apply Z.pow_succ_r. lia. }
      apply (second_test_sound Sv dv top d1 (digit den (n - 2))
               (digit num (j + n - 2)) q qh rh (B ^ (n - 2)));
        try assumption; try lia.
      + rewrite (digit_value (S N) den) by (assumption || lia). fold dv.
        pose proof (div_pow_digit dv (n - 2) ltac:(lia)) as Hd.
        replace (n - 2 + 1) with (n - 1) in Hd by lia. fold d1 in Hd.
        rewrite <- Hd, Z.mul_comm. apply Z.mul_div_le. lia.
      + rewrite (digit_value (S N) num) by (assumption || lia). fold U.
        replace (j + n - 2) with (j + (n - 2)) by lia.
        rewrite pow_split, <- Z.div_div by lia. fold Sv.
        pose proof (div_pow_digit Sv (n - 2) ltac:(lia)) as Hd.
        replace (n - 2 + 1) with (n - 1) in Hd by lia.
        rewrite <- Htop_S in Hd. rewrite <- Hd.
        pose proof (Z.mod_pos_bound Sv (B ^ (n - 2)) HBn2).
        pose proof (Z.div_mod Sv (B ^ (n - 2)) ltac:(lia)). nia. }
  destruct (correct_estimate_spec d1 (digit den (n - 2))
              (digit num (j + n - 2)) top q)
    as (qh & rh & Hloop1 & Hqh);
    [unfold base in *; lia | exact Hd2 | exact Hu2 | exact Htop | exact Hq
    | exact Hqd | exact Hsound |].
  (* the window, the trial product and the second loop *)
  destruct (window_read (S N) num j n) as [Wsig Vsig];
    [exact Wnum | lia | lia | lia | |].
  { fold U Sv. apply Z.lt_le_trans with (dv * B); [exact HSlt|].
    replace (n + 1) with (Z.succ n) by lia. rewrite Z.pow_succ_r by lia. nia. }
  set (sig := fold_left (fun s i => set_digit W M s (i - j) (digit num i))
                (window j n) (zero (S N))) in *.
  fold U Sv in Vsig.
  assert (Hcap : B * dv <= B ^ Z.of_nat (S N)).
  { rewrite HN1, (pow_split (Z.of_nat N) 1), Z.pow_1_r by lia.
    assert (B ^ n <= B ^ Z.of_nat N) by (apply Z.pow_le_mono_r; lia). nia. }
  destruct (correct_trial_spec (S N) sig den qh)
    as (trial & Hloop2 & Wtrial & Vtrial);
    [exact Wsig | exact Wden | lia | exact Hdv0 | exact Hcap
    | rewrite Vsig; fold dv q; lia |].
  rewrite Vsig in Hloop2, Vtrial. fold dv q in Hloop2, Vtrial.
  (* the difference and the new numerator *)
  assert (Hcap' : dv < B ^ Z.of_nat (S N)) by nia.
  assert (Hdiff : well_formed M (S N) (sub W M sig trial)
                  /\ value M (sub W M sig trial)
                     = value M sig - value M trial).
  { destruct Hsub as [Hsafe|[H32 Hn1]].
    - split; [apply (sub_wf Hsafe); assumption|].
      rewrite (sub_value Hsafe (S N)) by assumption.
      apply Z.mod_small. rewrite Vsig, Vtrial. lia.
    - apply sub_exact_two; try assumption. rewrite Vsig, Vtrial.
      rewrite Hn1, Z.pow_1_r in Hdv. replace (B ^ 2) with (B * B) by ring.
      nia. }
  destruct Hdiff as [Wdiff Vdiff].
  rewrite Vsig, Vtrial in Vdiff.
  destruct (window_write (S N) num (sub W M sig trial) j n)
    as [Wnum' Vnum'];
    [exact Wnum | exact Wdiff | lia | lia | lia | lia | | |].
  { fold U. apply Z.lt_le_trans with (dv * B ^ (j + 1)); [lia|].
    replace (j + n + 1) with (n + (j + 1)) by lia.
    rewrite (pow_split n (j + 1)) by lia.
    apply Z.mul_le_mono_nonneg_r; [apply Z.pow_nonneg; lia | lia]. }
  { rewrite Vdiff. lia. }
  rewrite Vdiff in Vnum'. fold U in Vnum'.
  (* putting the step together *)
  eexists. split.
  - unfold div_step. cbv zeta. rewrite E_top, E_d1.
    destruct (d1 =? 0) eqn:Ed; [apply Z.eqb_eq in Ed; lia|].
    rewrite Hloop1. fold sig. rewrite Hloop2. reflexivity.
  - unfold div_inv. cbn [fst snd].
    pose proof (Z.div_mod U (B ^ j) ltac:(lia)) as HUdm. fold Sv in HUdm.
    pose proof (Z.mod_pos_bound U (B ^ j) HBj) as HUm.
    split; [exact Wnum'|]. split; [apply set_digit_wf, Wquo|].
    assert (HQm : Qv mod B ^ j = 0 /\ (Qv / B ^ j) mod B = 0).
    { pose proof Hqm as Hc.
      rewrite HBj1, (Z.mul_comm B), Z.rem_mul_r in Hc by lia.
      pose proof (Z.mod_pos_bound Qv (B ^ j) HBj).
      pose proof (Z.mod_pos_bound (Qv / B ^ j) B ltac:(lia)).
      nia. }
    assert (Hquo : value M (set_digit W M quotient j q) = Qv + q * B ^ j).
    { destruct (Z_lt_le_dec j (Z.of_nat N)) as [Hin|Hout].
      - rewrite (set_digit_value N) by (assumption || lia).
        rewrite (digit_value N quotient) by (assumption || lia).
        fold Qv. rewrite (proj2 HQm), stored_digit by (unfold base in *; lia).
        ring.
      - rewrite set_digit_out by (rewrite (wf_num_digits N quotient Wquo); lia).
        fold Qv. assert (Hq00 : q = 0); [|rewrite Hq00; ring].
        pose proof (value_bound N quotient Wquo) as HQb. fold Qv in HQb.
        assert (B ^ Z.of_nat N <= B ^ j) by (apply Z.pow_le_mono_r; lia).
        destruct (Z.eq_dec q 0) as [E|E]; [exact E|]. exfalso.
        assert (dv * B ^ Z.of_nat N <= q * dv * B ^ j) by nia.
        nia. }
    rewrite Hquo, Vnum'. split; [nia|]. split; [nia|].
    rewrite Z.add_mod, Z_mod_mult by lia. rewrite (proj1 HQm). reflexivity.
Qed.


(** *** Division *)

Lemma fold_downto {S : Type} (f : S -> Z -> S) (P : Z -> S -> Prop)
    (n : Z) (s0 : S) :
  0 <= n -> P n s0 ->
  (forall i s, 0 <= i < n -> P (i + 1) s -> P i (f s i)) ->
  P 0 (fold_left f (rev (upto n)) s0).
Proof.
  intros Hn H0 Hstep.
  assert (Hk : forall (k : nat) s, Z.of_nat k <= n -> P (Z.of_nat k) s ->
               P 0 (fold_left f (rev (upto (Z.of_nat k))) s)).
  { induction k as [|k IH]; intros s Hle Hs.
    - exact Hs.
    - rewrite Nat2Z.inj_succ, <- Z.add_1_r, upto_succ by lia.
      rewrite rev_unit. cbn [fold_left]. apply IH; [lia|].
      apply Hstep; [lia|]. rewrite Z.add_1_r, <- Nat2Z.inj_succ. exact Hs. }
  specialize (Hk (Z.to_nat n) s0). rewrite Z2Nat.id in Hk by lia.
  apply Hk; [lia | exact H0].
Qed.

Lemma to_int_small (x : Z) : 0 <= x < 2 ^ 31 -> to_int x = x.
Proof.
  intros Hx. unfold to_int. rewrite u32_small by lia.
  destruct (x <? 2 ^ 31) eqn:E; [reflexivity | apply Z.ltb_ge in E; lia].
Qed.

(** The general case of [operator/]: both operands are scaled by the
    normalisation factor [f], and the quotient loop divides the scaled
    values. *)
Lemma div_general (N : nat) (a rhs : number) :
  unsigned_safe M \/ (M + 1 <= 2 ^ 32 /\ value M rhs < M) ->
  index_safe N -> well_formed M N a -> well_formed M N rhs ->
  1 < value M rhs < value M a ->
  exists q,
    (let divisor := u32 (digit rhs (most_significant_digit rhs - 1) + 1) in
     if divisor =? 0 then None
     else
       let norm := from_native W M (S N) (B / divisor) in
       let num := mul W M (widen W M (S N) a) norm in
       let den := mul W M (widen W M (S N) rhs) norm in
       let n := most_significant_digit den in
       let m := u32 (most_significant_digit num - n) in
       match fold_left (div_step W M (S N) den n)
               (rev (upto (to_int m + 1))) (Some (num, zero N)) with
       | None => None
       | Some (_, quotient) => Some quotient
       end) = Some q
    /\ well_formed M N q /\ value M q = value M a / value M rhs.
Proof.
  intros Hok HN Wa Wb Hab. pose proof HN as HN'. unfold index_safe in HN'.
  pose proof base_ge_2 as HB.
  pose proof (value_bound N a Wa) as Ha. pose proof (value_bound N rhs Wb) as Hb.
  set (va := value M a) in *. set (vb := value M rhs) in *.
  (* the leading digit of the divisor and the factor *)
  destruct (msd_spec N rhs Wb ltac:(lia)) as (Hk & Hkhi & Hklo). fold vb in Hkhi, Hklo.
  set (k := most_significant_digit rhs) in *.
  assert (Hk1 : 1 <= k).
  { destruct (Z_lt_le_dec 0 k) as [H|H]; [lia|].
    assert (Hk0 : k = 0) by lia. rewrite Hk0, Z.pow_0_r in Hkhi. lia. }
  specialize (Hklo ltac:(lia)).
  pose proof (base_pow_pos (k - 1) ltac:(lia)) as HBk1.
  assert (HBk : B ^ k = B * B ^ (k - 1)).
  { replace k with (Z.succ (k - 1)) at 1 by lia. apply Z.pow_succ_r. lia. }
  set (lead := vb / B ^ (k - 1)).
  assert (Hlead : 1 <= lead < B).
  { split; [apply Z.div_le_lower_bound; lia|].
    apply Z.div_lt_upper_bound; lia. }
  assert (Hlead_gt : vb < (lead + 1) * B ^ (k - 1)).
  { unfold lead. pose proof (Z.mod_pos_bound vb (B ^ (k - 1)) HBk1).
    pose proof (Z.div_mod vb (B ^ (k - 1)) ltac:(lia)). nia. }
  assert (E_lead : digit rhs (k - 1) = lead).
  { rewrite (digit_value N rhs) by (assumption || lia). fold vb lead.
    apply Z.mod_small. lia. }
  assert (Hlead32 : lead + 1 < 2 ^ 32).
  { destruct Hok as [Hs|[H32 Hv]]; [unfold unsigned_safe, base in *; lia|].
    assert (lead <= vb); [|lia].
    unfold lead. apply Z.div_le_upper_bound; nia. }
  set (f := B / (lead + 1)).
  assert (Hf : 1 <= f < B).
  { split; [apply Z.div_le_lower_bound; lia|].
    apply Z.div_lt_upper_bound; nia. }
  assert (Hfle : f * (lead + 1) <= B).
  { unfold f. rewrite Z.mul_comm. apply Z.mul_div_le. lia. }
  (* the scaled operands *)
  pose proof (from_native_wf (S N) f ltac:(lia)) as Wnorm.
  pose proof (from_native_value (S N) f ltac:(lia)) as Vnorm.
  assert (HBN1 : B ^ Z.of_nat (S N) = B * B ^ Z.of_nat N).
  { rewrite Nat2Z.inj_succ. apply Z.pow_succ_r. lia. }
  pose proof (base_pow_pos (Z.of_nat N) ltac:(lia)) as HBN.
  rewrite Z.mod_small in Vnorm by nia.
  destruct (widen_spec N (S N) a Wa ltac:(lia) ltac:(lia)) as [Wwa Vwa].
  destruct (widen_spec N (S N) rhs Wb ltac:(lia) ltac:(lia)) as [Wwb Vwb].
  pose proof (mul_wf (S N) _ _ Wwa Wnorm ltac:(lia)) as Wnum.
  pose proof (mul_value (S N) _ _ Wwa Wnorm ltac:(lia)) as Vnum.
  pose proof (mul_wf (S N) _ _ Wwb Wnorm ltac:(lia)) as Wden.
  pose proof (mul_value (S N) _ _ Wwb Wnorm ltac:(lia)) as Vden.
  rewrite Vwa, Vnorm in Vnum. rewrite Vwb, Vnorm in Vden. fold va in Vnum. fold vb in Vden.
  assert (Hden_lt : vb * f < B ^ k) by nia.
  assert (HBkN : B ^ k <= B ^ Z.of_nat N) by (apply Z.pow_le_mono_r; lia).
  rewrite Z.mod_small in Vnum by nia.
  rewrite Z.mod_small in Vden by nia.
  set (num := mul W M (widen W M (S N) a) (from_native W M (S N) f)) in *.
  set (den := mul W M (widen W M (S N) rhs) (from_native W M (S N) f)) in *.
  (* their most significant digits *)
  destruct (msd_spec (S N) den Wden ltac:(lia)) as (Hn & Hnhi & Hnlo).
  destruct (msd_spec (S N) num Wnum ltac:(lia)) as (Hmn & Hmnhi & Hmnlo).
  set (n := most_significant_digit den) in *.
  set (mn := most_significant_digit num) in *.
  rewrite Vden in Hnhi, Hnlo. rewrite Vnum in Hmnhi, Hmnlo.
  assert (Hn1 : 1 <= n).
  { destruct (Z_lt_le_dec 0 n) as [H|H]; [lia|].
    assert (Hn0 : n = 0) by lia. rewrite Hn0, Z.pow_0_r in Hnhi. nia. }
  specialize (Hnlo ltac:(lia)).
  assert (HnN : n <= Z.of_nat N).
  { destruct (Z_lt_le_dec (Z.of_nat N) n) as [H|H]; [|lia].
    assert (B ^ Z.of_nat N <= B ^ (n - 1)) by (apply Z.pow_le_mono_r; lia).
    lia. }
  assert (Hmn_n : n <= mn).
  { destruct (Z_lt_le_dec mn n) as [H|H]; [|lia].
    assert (B ^ mn <= B ^ (n - 1)) by (apply Z.pow_le_mono_r; lia).
    nia. }
  assert (Hsub : unsigned_safe M \/ (M + 1 <= 2 ^ 32 /\ n = 1)).
  { destruct Hok as [Hs|[H32 Hv]]; [left; exact Hs|right].
    split; [exact H32|].
    assert (Hk_one : k = 1).
    { destruct (Z_lt_le_dec 1 k) as [H|H]; [|lia].
      assert (B ^ 1 <= B ^ (k - 1)) by (apply Z.pow_le_mono_r; lia).
      rewrite Z.pow_1_r in *. unfold base in *. lia. }
    rewrite Hk_one, Z.pow_1_r in Hden_lt.
    destruct (Z_lt_le_dec 1 n) as [H|H]; [|lia].
    assert (B ^ 1 <= B ^ (n - 1)) by (apply Z.pow_le_mono_r; lia).
    rewrite Z.pow_1_r in *. lia. }
  (* the loop *)
  pose proof (fold_downto (div_step W M (S N) den n)
    (fun i st => exists s, st = Some s
                           /\ div_inv M N (value M den) (va * f) i s)
    (mn - n + 1) (Some (num, zero N))) as Hfold.
  destruct Hfold as ([num' quotient] & Hres & Hinv).
  - lia.
  - exists (num, zero N). split; [reflexivity|].
    unfold div_inv. cbn [fst snd]. rewrite value_zero, Vden, Vnum.
    split; [exact Wnum|]. split; [apply zero_wf|]. split; [ring|].
    split.
    + split; [nia|].
      apply Z.lt_le_trans with (B ^ mn); [exact Hmnhi|].
      replace mn with (n - 1 + (mn - n + 1)) at 1 by lia.
      rewrite pow_split by lia.
      apply Z.mul_le_mono_nonneg_r; [apply Z.pow_nonneg; lia | lia].
    + apply Z.mod_0_l. pose proof (base_pow_pos (mn - n + 1)). lia.
  - intros i st Hi (s & -> & Hinv).
    apply (div_step_spec N den (va * f) n i s); try assumption; try lia.
    rewrite Vden.
    apply Z.lt_le_trans with (B ^ Z.of_nat N * f);
      [apply Z.mul_lt_mono_pos_r; lia | nia].
  - exists quotient. split.
    + cbv zeta. fold k. rewrite E_lead.
      rewrite (u32_small (lead + 1)) by (unfold base in *; lia).
      destruct (lead + 1 =? 0) eqn:E; [apply Z.eqb_eq in E; lia|].
      fold f num den n mn.
      rewrite (u32_small (mn - n)) by lia.
      rewrite to_int_small by lia.
      rewrite Hres. reflexivity.
    + unfold div_inv in Hinv. cbn [fst snd] in Hinv.
      destruct Hinv as (_ & Wq & Heq & HU & _). split; [exact Wq|].
      rewrite Vden, Z.pow_0_r, Z.mul_1_r in *.
      assert (Hq : value M quotient = va * f / (vb * f)).
      { apply (Z.div_unique_pos _ _ _ (value M num')); lia. }
      rewrite Hq. apply Z.div_mul_cancel_r; lia.
Qed.

(** [operator/] returns the quotient of the values, and zero for a zero
    divisor. *)
Lemma div_correct_gen (N : nat) (a rhs : number) :
  unsigned_safe M \/ (M + 1 <= 2 ^ 32 /\ value M rhs < M) ->
  index_safe N -> (0 < N)%nat ->
  well_formed M N a -> well_formed M N rhs ->
  exists q,
    div W M a rhs = Some q
    /\ well_formed M N q /\ value M q = value M a / value M rhs.
Proof.
  intros Hok HN Hpos Wa Wb.
  pose proof (value_bound N a Wa) as Ha. pose proof (value_bound N rhs Wb) as Hb.
  pose proof (from_native_wf N 0 ltac:(lia)) as W0.
  pose proof (from_native_wf N 1 ltac:(lia)) as W1.
  pose proof (from_native_value N 0 ltac:(lia)) as V0.
  pose proof (value_one N Hpos) as V1.
  rewrite Z.mod_0_l in V0 by (pose proof (base_pow_pos (Z.of_nat N)); lia).
  unfold div. destruct (Wa) as [La _]. rewrite La.
  rewrite (eqb_value N a), (eqb_value N rhs (from_native W M N 0)),
    (gtb_value N rhs a), (eqb_value N rhs a),
    (eqb_value N rhs (from_native W M N 1)) by assumption.
  rewrite V0, V1.
  destruct (value M a =? 0) eqn:E1; cbn [orb].
  { apply Z.eqb_eq in E1. exists (from_native W M N 0).
    split; [reflexivity|]. split; [exact W0|]. rewrite V0, E1.
    destruct (value M rhs); reflexivity. }
  destruct (value M rhs =? 0) eqn:E2; cbn [orb].
  { apply Z.eqb_eq in E2. exists (from_native W M N 0).
    split; [reflexivity|]. split; [exact W0|]. rewrite V0, E2.
    destruct (value M a); reflexivity. }
  apply Z.eqb_neq in E1, E2.
  destruct (value M rhs >? value M a) eqn:E3.
  { rewrite Z.gtb_ltb in E3. apply Z.ltb_lt in E3.
    exists (from_native W M N 0).
    split; [reflexivity|]. split; [exact W0|]. rewrite V0.
    symmetry. apply Z.div_small. lia. }
  rewrite Z.gtb_ltb in E3. apply Z.ltb_ge in E3.
  destruct (value M rhs =? value M a) eqn:E4.
  { apply Z.eqb_eq in E4. exists (from_native W M N 1).
    split; [reflexivity|]. split; [exact W1|]. rewrite V1, E4.
    symmetry. apply Z.div_same. exact E1. }
  apply Z.eqb_neq in E4.
  destruct (value M rhs =? 1) eqn:E5.
  { apply Z.eqb_eq in E5. exists a.
    split; [reflexivity|]. split; [exact Wa|]. rewrite E5.
    symmetry. apply Z.div_1_r. }
  apply Z.eqb_neq in E5.
  apply (div_general N a rhs Hok HN Wa Wb). lia.
Qed.

Lemma div_correct (Hsafe : unsigned_safe M) (N : nat) (a rhs : number) :
  index_safe N -> (0 < N)%nat ->
  well_formed M N a -> well_formed M N rhs ->
  exists q,
    div W M a rhs = Some q
    /\ well_formed M N q /\ value M q = value M a / value M rhs.
Proof. apply div_correct_gen. left. exact Hsafe. Qed.


(** [operator%] returns the remainder of the values, and the dividend
    itself for a zero divisor. *)
Lemma modulo_correct (Hsafe : unsigned_safe M) (N : nat) (a rhs : number) :
  index_safe N -> (0 < N)%nat ->
  well_formed M N a -> well_formed M N rhs ->
  exists q r,
    div W M a rhs = Some q /\ modulo W M a rhs = Some r
    /\ well_formed M N q /\ value M q = value M a / value M rhs
    /\ well_formed M N r /\ value M r = value M a mod value M rhs
    /\ add W M (mul W M q rhs) r = a.
Proof.
  intros HN Hpos Wa Wb. pose proof HN as HN'. unfold index_safe in HN'.
  destruct (div_correct Hsafe N a rhs HN Hpos Wa Wb) as (q & Hdiv & Wq & Vq).
  pose proof (value_bound N a Wa) as Ha. pose proof (value_bound N rhs Wb) as Hb.
  set (va := value M a) in *. set (vb := value M rhs) in *.
  pose proof (mul_wf N q rhs Wq Wb ltac:(lia)) as Wp.
  pose proof (mul_value N q rhs Wq Wb ltac:(lia)) as Vp.
  fold vb in Vp. rewrite Vq in Vp.
  assert (Hdm : va = vb * (va / vb) + va mod vb /\ 0 <= va mod vb <= va).
  { destruct (Z.eq_dec vb 0) as [E|E].
    - rewrite E, Z.mod_0_r. lia.
    - pose proof (Z.div_mod va vb E). pose proof (Z.mod_pos_bound va vb ltac:(lia)).
      assert (0 <= va / vb) by (apply Z.div_pos; lia). nia. }
  rewrite Z.mod_small in Vp by nia.
  pose proof (sub_wf Hsafe N a _ Wa Wp) as Wr.
  pose proof (sub_value Hsafe N a _ Wa Wp) as Vr.
  fold va in Vr. rewrite Vp in Vr.
  replace (va - va / vb * vb) with (va mod vb) in Vr by lia.
  rewrite Z.mod_small in Vr by lia.
  exists q, (sub W M a (mul W M q rhs)).
  split; [exact Hdiv|]. split; [unfold modulo; rewrite Hdiv; reflexivity|].
  split; [exact Wq|]. split; [exact Vq|]. split; [exact Wr|].
  split; [exact Vr|].
  apply (value_inj N); [apply add_wf; assumption | exact Wa|].
  rewrite (add_value N) by assumption. rewrite Vp, Vr. fold va.
  replace (va / vb * vb + va mod vb) with va by lia.
  apply Z.mod_small. lia.
Qed.

(** What [to_string] reads of a remainder, its conversion to [unsigned],
    is the remainder of the values also where [operator-] can lose a
    borrow: for digits of the full 32-bit range and a divisor of one
    digit, the lowest digit of the remainder is still right. *)
Lemma div_mod_digit (N : nat) (a rhs : number) :
  unsigned_safe M \/ (M + 1 <= 2 ^ 32 /\ value M rhs < M) ->
  index_safe N -> (0 < N)%nat ->
  well_formed M N a -> well_formed M N rhs ->
  value M a mod value M rhs < 2 ^ 32 ->
  exists q r,
    div W M a rhs = Some q /\ modulo W M a rhs = Some r
    /\ well_formed M N q /\ value M q = value M a / value M rhs
    /\ to_native W M 32 r = value M a mod value M rhs.
Proof.
  intros Hok HN Hpos Wa Wb Hsmall. pose proof HN as HN'.
  unfold index_safe in HN'. pose proof base_ge_2 as HB.
  assert (Hcases : unsigned_safe M \/ (M + 1 = 2 ^ 32 /\ value M rhs < M)).
  { destruct Hok as [Hs|[H32 Hv]]; [left; exact Hs|].
    destruct (Z_lt_le_dec (M + 1) (2 ^ 32)) as [H|H];
      [left; exact H | right; lia]. }
  destruct Hcases as [Hsafe|[Hfull Hv]].
  - destruct (modulo_correct Hsafe N a rhs HN Hpos Wa Wb)
      as (q & r & Hdiv & Hmod & Wq & Vq & Wr & Vr & _).
    exists q, r. repeat (split; [assumption|]).
    rewrite (to_native_fits N 32 r) by (assumption || lia). exact Vr.
  - destruct (div_correct_gen N a rhs Hok HN Hpos Wa Wb)
      as (q & Hdiv & Wq & Vq).
    pose proof (value_bound N a Wa) as Ha.
    pose proof (value_bound N rhs Wb) as Hb.
    set (va := value M a) in *. set (vb := value M rhs) in *.
    pose proof (mul_wf N q rhs Wq Wb ltac:(lia)) as Wp.
    pose proof (mul_value N q rhs Wq Wb ltac:(lia)) as Vp.
    fold vb in Vp. rewrite Vq in Vp.
    assert (Hdm : va = vb * (va / vb) + va mod vb /\ 0 <= va mod vb <= va).
    { destruct (Z.eq_dec vb 0) as [E|E].
      - rewrite E, Z.mod_0_r. lia.
      - pose proof (Z.div_mod va vb E).
        pose proof (Z.mod_pos_bound va vb ltac:(lia)).
        assert (0 <= va / vb) by (apply Z.div_pos; lia). nia. }
    rewrite Z.mod_small in Vp by nia.
    destruct (sub_low_digits N a (mul W M q rhs) 1 ltac:(lia) Wa Wp
                ltac:(lia) ltac:(lia)) as [_ Hlow].
    fold va in Hlow. rewrite Vp, Z.pow_1_r in Hlow.
    replace (va - va / vb * vb) with (va mod vb) in Hlow by lia.
    exists q, (sub W M a (mul W M q rhs)).
    split; [exact Hdiv|]. split; [unfold modulo; rewrite Hdiv; reflexivity|].
    split; [exact Wq|]. split; [exact Vq|].
    assert (HB32 : B = 2 ^ 32) by (unfold base; lia).
    rewrite (to_native_pow2 32 32 _ ltac:(lia) ltac:(lia) HB32).
    rewrite <- HB32, Hlow. apply Z.mod_small. lia.
Qed.


(** *** Text conversion *)

Lemma digit_char_decode (sb : string_base) (d : Z) :
  0 <= d < to_underlying sb -> decode_char sb (digit_char d) = Some d.
Proof.
  intros Hd.
  assert (Hcases : d = 0 \/ d = 1 \/ d = 2 \/ d = 3 \/ d = 4 \/ d = 5
                   \/ d = 6 \/ d = 7 \/ d = 8 \/ d = 9 \/ d = 10 \/ d = 11
                   \/ d = 12 \/ d = 13 \/ d = 14 \/ d = 15)
    by (destruct sb; simpl in Hd; lia).
  destruct sb; simpl in Hd;
    repeat (destruct Hcases as [->|Hcases]; [try lia; reflexivity|]);
    subst; try lia; reflexivity.
Qed.

Lemma horner_digits_of (fuel : nat) (b v : Z) :
  0 <= b -> b <> 1 -> 0 <= v <= Z.of_nat fuel ->
  horner b (digits_of fuel b v) = v.
Proof.
  intros Hb Hb1. revert v. induction fuel as [|fuel IH]; intros v Hv.
  - assert (v = 0) by lia. subst v. reflexivity.
  - cbn [digits_of]. destruct (v =? 0) eqn:E.
    + apply Z.eqb_eq in E. subst v. reflexivity.
    + apply Z.eqb_neq in E. cbn [horner].
      destruct (Z.eq_dec b 0) as [->|Hb0].
      * rewrite Z.mod_0_r. lia.
      * rewrite IH.
        -- pose proof (Z.div_mod v b Hb0). lia.
        -- split; [apply Z.div_pos; lia|].
           assert (v / b < v) by (apply Z.div_lt; lia). lia.
Qed.

Lemma digits_of_range (fuel : nat) (b v bound : Z) :
  0 <= b -> 0 <= v -> (b = 0 -> v < bound) -> (0 < b -> b <= bound) ->
  Forall (fun d => 0 <= d < bound) (digits_of fuel b v).
Proof.
  intros Hb. revert v. induction fuel as [|fuel IH]; intros v Hv H0 H1.
  - simpl. destruct (v =? 0); constructor.
  - cbn [digits_of]. destruct (v =? 0); [constructor|].
    constructor.
    + destruct (Z.eq_dec b 0) as [->|Hb0].
      * rewrite Z.mod_0_r. lia.
      * pose proof (Z.mod_pos_bound v b ltac:(lia)). lia.
    + apply IH; [ | | exact H1].
      * destruct (Z.eq_dec b 0) as [->|Hb0];
          [rewrite Z.div_0_r; lia | apply Z.div_pos; lia].
      * intros ->. rewrite Z.div_0_r. lia.
Qed.

(** The loop of [to_string] appends the characters of the digits of the
    value in the base [value b]. *)
Lemma to_string_loop_gen (N fuel : nat) (n b : number) (s : list ascii) :
  unsigned_safe M \/ (M + 1 <= 2 ^ 32 /\ value M b < M) ->
  index_safe N -> (0 < N)%nat ->
  well_formed M N n -> well_formed M N b ->
  value M b <> 1 ->
  (forall v, 0 <= v < B ^ Z.of_nat N -> v mod value M b < 2 ^ 32) ->
  value M n <= Z.of_nat fuel ->
  to_string_loop W M fuel n b s
  = Some (s ++ map digit_char (digits_of fuel (value M b) (value M n))).
Proof.
  intros Hok HN Hpos Wn Wb Hb1 Hsmall. revert n s Wn.
  pose proof (value_bound N b Wb) as Hb.
  pose proof (from_native_wf N 0 ltac:(lia)) as W0.
  pose proof (from_native_value N 0 ltac:(lia)) as V0.
  rewrite Z.mod_0_l in V0 by (pose proof (base_pow_pos (Z.of_nat N)); lia).
  induction fuel as [|fuel IH]; intros n s Wn Hfuel;
    pose proof (value_bound N n Wn) as Hn;
    destruct (Wn) as [Ln _].
  - assert (Hn0 : value M n = 0) by lia.
    cbn [to_string_loop digits_of]. rewrite Ln, (eqb_value N) by assumption.
    rewrite V0, Hn0. simpl. rewrite app_nil_r. reflexivity.
  - cbn [to_string_loop digits_of]. rewrite Ln, (eqb_value N) by assumption.
    rewrite V0. destruct (value M n =? 0) eqn:E.
    + simpl. rewrite app_nil_r. reflexivity.
    + apply Z.eqb_neq in E.
      destruct (div_mod_digit N n b Hok HN Hpos Wn Wb)
        as (q & r & Hdiv & Hmod & Wq & Vq & Vr);
        [apply Hsmall; lia|].
      rewrite Hmod, Hdiv.
      assert (Hqlt : 0 <= value M q < value M n).
      { rewrite Vq. destruct (Z.eq_dec (value M b) 0) as [Eb|Eb].
        - rewrite Eb, Z.div_0_r. lia.
        - split; [apply Z.div_pos; lia | apply Z.div_lt; lia]. }
      rewrite IH by (assumption || lia).
      rewrite Vr, Vq, <- app_assoc. reflexivity.
Qed.


Lemma eqm_add (C a a' b b' : Z) :
  C <> 0 -> a mod C = a' mod C -> b mod C = b' mod C ->
  (a + b) mod C = (a' + b') mod C.
Proof.
  intros HC Ha Hb'. rewrite (Z.add_mod a b), (Z.add_mod a' b') by exact HC.
  rewrite Ha, Hb'. reflexivity.
Qed.

Lemma eqm_mul (C a a' b b' : Z) :
  C <> 0 -> a mod C = a' mod C -> b mod C = b' mod C ->
  (a * b) mod C = (a' * b') mod C.
Proof.
  intros HC Ha Hb'. rewrite (Z.mul_mod a b), (Z.mul_mod a' b') by exact HC.
  rewrite Ha, Hb'. reflexivity.
Qed.

(** The loop of [from_string] adds up the digits it decodes, each times
    the current power of the base. *)
Lemma from_string_loop_spec (N : nat) (sb : string_base) (ds : list Z)
    (result power bn : number) :
  index_safe N ->
  well_formed M N result -> well_formed M N power -> well_formed M N bn ->
  Forall (fun d => 0 <= d < to_underlying sb) ds ->
  exists result',
    from_string_loop W M N sb (map digit_char ds) result power bn
    = Some result'
    /\ well_formed M N result'
    /\ value M result'
       = (value M result + value M power * horner (value M bn) ds)
         mod B ^ Z.of_nat N.
Proof.
  intros HN Wr Wp Wbn Hds. pose proof HN as HN'. unfold index_safe in HN'.
  pose proof (base_pow_pos (Z.of_nat N) ltac:(lia)) as HC.
  revert result power Wr Wp. induction Hds as [|d ds Hd Hds IH];
    intros result power Wr Wp.
  - exists result. split; [reflexivity|]. split; [exact Wr|].
    cbn [horner]. rewrite Z.mul_0_r, Z.add_0_r.
    symmetry. apply Z.mod_small. apply (value_bound N). exact Wr.
  - cbn [map from_string_loop]. rewrite digit_char_decode by exact Hd.
    pose proof (from_native_wf N d ltac:(lia)) as Wd.
    pose proof (from_native_value N d ltac:(lia)) as Vd.
    pose proof (mul_wf N _ _ Wd Wp ltac:(lia)) as Wt.
    pose proof (mul_value N _ _ Wd Wp ltac:(lia)) as Vt.
    pose proof (add_wf N _ _ Wr Wt) as Wr1.
    pose proof (add_value N _ _ Wr Wt) as Vr1.
    pose proof (mul_wf N _ _ Wp Wbn ltac:(lia)) as Wp1.
    pose proof (mul_value N _ _ Wp Wbn ltac:(lia)) as Vp1.
    destruct (IH _ _ Wr1 Wp1) as (result' & Hres & Wres & Vres).
    exists result'. split; [exact Hres|]. split; [exact Wres|].
    rewrite Vres, Vr1, Vp1, Vt, Vd. cbn [horner].
    set (C := B ^ Z.of_nat N) in *.
    set (vr := value M result). set (vp := value M power).
    set (vb := value M bn). set (h := horner vb ds).
    replace (vr + vp * (d + vb * h)) with (vr + d * vp + vp * vb * h) by ring.
    apply eqm_add; [lia | | apply eqm_mul; [lia | apply Z.mod_mod; lia
                                          | reflexivity]].
    rewrite Z.mod_mod by lia.
    apply eqm_add; [lia | reflexivity |].
    rewrite Z.mod_mod by lia.
    apply eqm_mul; [lia | apply Z.mod_mod; lia | reflexivity].
Qed.


(** *** Exponentiation in an even base *)

Lemma land_one (x : Z) : Z.land x 1 = x mod 2.
Proof. change 1 with (Z.ones 1). rewrite Z.land_ones by lia. reflexivity. Qed.

(** In an even base the parity of the lowest digit is the parity of the
    value. *)
Lemma low_digit_parity (N : nat) (e : number) :
  well_formed M N e -> Z.of_nat N < 2 ^ 32 -> B mod 2 = 0 ->
  Z.land (digit e 0) 1 = value M e mod 2.
Proof.
  intros We HN Heven. pose proof base_ge_2 as HB.
  rewrite land_one, (digit_value N e 0) by (assumption || lia).
  rewrite Z.pow_0_r, Z.div_1_r.
  assert (Hdiv : B = 2 * (B / 2)).
  { pose proof (Z.div_mod B 2 ltac:(lia)). lia. }
  rewrite Hdiv at 1. rewrite Z.rem_mul_r by lia.
  rewrite Z.mul_comm, Z_mod_plus_full. apply Z.mod_mod. lia.
Qed.

(** The loop of [pow] keeps [result * b ^ exponent] unchanged modulo the
    capacity, in an even base and given fuel for every halving. *)
Lemma pow_loop_spec (Hsafe : unsigned_safe M) (N fuel : nat) (result b e : number) :
  index_safe N -> (0 < N)%nat -> B mod 2 = 0 ->
  well_formed M N result -> well_formed M N b -> well_formed M N e ->
  value M e <= Z.of_nat fuel ->
  exists r,
    pow_loop W M fuel result b e = Some r
    /\ well_formed M N r
    /\ value M r
       = (value M result * value M b ^ value M e) mod B ^ Z.of_nat N.
Proof.
  intros HN Hpos Heven. pose proof HN as HN'. unfold index_safe in HN'.
  pose proof (base_pow_pos (Z.of_nat N) ltac:(lia)) as HC.
  pose proof (from_native_wf N 0 ltac:(lia)) as W0.
  pose proof (from_native_value N 0 ltac:(lia)) as V0.
  rewrite Z.mod_0_l in V0 by lia.
  pose proof (from_native_wf N 2 ltac:(lia)) as W2.
  pose proof (from_native_value N 2 ltac:(lia)) as V2.
  revert result b e. induction fuel as [|fuel IH];
    intros result b e Wr Wb We Hfuel;
    pose proof (value_bound N e We) as He;
    pose proof (value_bound N result Wr) as Hr;
    destruct (We) as [Le _].
  - assert (E : value M e = 0) by lia.
    exists result. cbn [pow_loop]. rewrite Le, (eqb_value N) by assumption.
    rewrite V0, E. split; [reflexivity|]. split; [exact Wr|].
    rewrite Z.pow_0_r, Z.mul_1_r. symmetry. apply Z.mod_small. lia.
  - cbn [pow_loop]. rewrite Le, (eqb_value N) by assumption. rewrite V0.
    destruct (value M e =? 0) eqn:E.
    + apply Z.eqb_eq in E. exists result. split; [reflexivity|].
      split; [exact Wr|]. rewrite E, Z.pow_0_r, Z.mul_1_r.
      symmetry. apply Z.mod_small. lia.
    + apply Z.eqb_neq in E.
      destruct (div_correct Hsafe N e (from_native W M N 2) HN Hpos We W2)
        as (e' & Hdiv & We' & Ve').
      rewrite Hdiv.
      rewrite (low_digit_parity N e We ltac:(lia) Heven).
      set (ve := value M e) in *. set (two := value M (from_native W M N 2)) in *.
      assert (Htwo : two = 2 \/ two = 0).
      { rewrite V2. destruct (Z_lt_le_dec 2 (B ^ Z.of_nat N)) as [H|H].
        - left. apply Z.mod_small. lia.
        - right. pose proof base_ge_2 as HB.
          assert (HBC : B <= B ^ Z.of_nat N).
          { replace B with (B ^ 1) at 1 by apply Z.pow_1_r.
            apply Z.pow_le_mono_r; lia. }
          assert (HC2 : B ^ Z.of_nat N = 2) by lia.
          rewrite HC2. reflexivity. }
      pose proof (mul_wf N _ _ Wr Wb ltac:(lia)) as Wrb.
      pose proof (mul_value N _ _ Wr Wb ltac:(lia)) as Vrb.
      pose proof (mul_wf N _ _ Wb Wb ltac:(lia)) as Wbb.
      pose proof (mul_value N _ _ Wb Wb ltac:(lia)) as Vbb.
      set (C := B ^ Z.of_nat N) in *.
      set (vr := value M result) in *. set (vb := value M b) in *.
      destruct Htwo as [Htwo|Htwo].
      * (* the ordinary case: the exponent is halved *)
        rewrite Htwo in Ve'.
        assert (Hve' : 0 <= value M e' < ve).
        { rewrite Ve'. split; [apply Z.div_pos; lia | apply Z.div_lt; lia]. }
        pose proof (Z.div_mod ve 2 ltac:(lia)) as Hdm.
        pose proof (Z.mod_pos_bound ve 2 ltac:(lia)) as Hm.
        assert (Hpow : vb ^ ve = vb ^ (ve mod 2) * (vb * vb) ^ (ve / 2)).
        { rewrite Hdm at 1. rewrite Z.add_comm, Z.pow_add_r by lia.
          rewrite Z.pow_mul_r by lia. f_equal. f_equal. ring. }
        destruct (ve mod 2 =? 0) eqn:Ep.
        -- apply Z.eqb_eq in Ep.
           destruct (IH result (mul W M b b) e' Wr Wbb We' ltac:(lia))
             as (r & Hr' & Wr' & Vr').
           exists r. split; [exact Hr'|]. split; [exact Wr'|].
           rewrite Vr', Ve', Vbb. fold vr vb C.
           rewrite Hpow, Ep, Z.pow_0_r, Z.mul_1_l.
           apply eqm_mul; [lia | reflexivity|].
           symmetry. apply Zpower_mod. lia.
        -- apply Z.eqb_neq in Ep. assert (Ep1 : ve mod 2 = 1) by lia.
           destruct (IH (mul W M result b) (mul W M b b) e' Wrb Wbb We'
                       ltac:(lia)) as (r & Hr' & Wr' & Vr').
           exists r. split; [exact Hr'|]. split; [exact Wr'|].
           rewrite Vr', Ve', Vbb, Vrb. fold vr vb C.
           rewrite Hpow, Ep1, Z.pow_1_r, Z.mul_assoc.
           apply eqm_mul; [lia | apply Z.mod_mod; lia|].
           symmetry. apply Zpower_mod. lia.
      * (* capacity two: the number built from 2 is zero, the quotient too *)
        rewrite Htwo, Z.div_0_r in Ve'.
        assert (HC2 : C = 2).
        { rewrite V2 in Htwo. unfold two in Htwo.
          destruct (Z_lt_le_dec 2 C) as [H|H].
          - rewrite Z.mod_small in Htwo by lia. lia.
          - pose proof base_ge_2.
            assert (B <= C).
            { unfold C. replace B with (B ^ 1) at 1 by apply Z.pow_1_r.
              apply Z.pow_le_mono_r; lia. }
            lia. }
        assert (Hve1 : ve = 1) by lia.
        rewrite Hve1. change (1 mod 2 =? 0) with false. cbv iota.
        destruct (IH (mul W M result b) (mul W M b b) e' Wrb Wbb We'
                    ltac:(lia)) as (r & Hr' & Wr' & Vr').
        exists r. split; [exact Hr'|]. split; [exact Wr'|].
        rewrite Vr', Ve', Vrb, Z.pow_0_r, Z.mul_1_r, Z.pow_1_r.
        fold vr vb C. apply Z.mod_mod. lia.
Qed.

(** ** The signed wrapper and the integers it stands for *)

Lemma eqb_zero_value (N : nat) (m : number) :
  well_formed M N m ->
  eqb m (from_native W M (length m) 0) = (value M m =? 0).
Proof.
  intros Wm. destruct (Wm) as [-> _].
  rewrite (eqb_value N) by (assumption || apply from_native_wf; lia).
  rewrite from_native_zero, value_zero. reflexivity.
Qed.

Lemma integer_neg_value (N : nat) (x : integer) :
  well_formed M N (magnitude_ x) ->
  signed_value M (integer_neg W M x) = - signed_value M x
  /\ well_formed M N (magnitude_ (integer_neg W M x)).
Proof.
  intros Wx. destruct x as [px mx]. cbn [magnitude_] in Wx.
  unfold integer_neg. cbn [magnitude_ positive_].
  rewrite (eqb_zero_value N mx Wx).
  destruct (value M mx =? 0) eqn:E; cbn [negb].
  - apply Z.eqb_eq in E. split; [|exact Wx].
    unfold signed_value. cbn [magnitude_ positive_]. rewrite E.
    destruct px; reflexivity.
  - split; [|exact Wx].
    unfold signed_value. cbn [magnitude_ positive_].
    destruct px; cbn [negb]; lia.
Qed.

Lemma integer_add_value (Hsafe : unsigned_safe M) (N : nat) (x y : integer) :
  well_formed M N (magnitude_ x) -> well_formed M N (magnitude_ y) ->
  Z.abs (signed_value M x + signed_value M y) < B ^ Z.of_nat N ->
  signed_value M (integer_add W M x y) = signed_value M x + signed_value M y
  /\ well_formed M N (magnitude_ (integer_add W M x y)).
Proof.
  intros Wx Wy Hfit. destruct x as [px mx], y as [py my].
  cbn [magnitude_] in Wx, Wy.
  pose proof (value_bound N mx Wx) as Hx.
  pose proof (value_bound N my Wy) as Hy.
  unfold signed_value in *. unfold integer_add.
  cbn [magnitude_ positive_] in *.
  destruct (Bool.eqb px py) eqn:Es.
  - apply Bool.eqb_prop in Es. subst py. cbn [magnitude_ positive_].
    split; [|apply add_wf; assumption].
    rewrite (add_value N) by assumption.
    rewrite Z.mod_small by (destruct px; lia).
    destruct px; lia.
  - assert (Hne : px <> py).
    { intros ->. rewrite Bool.eqb_reflx in Es. discriminate Es. }
    rewrite (ltb_value N), (gtb_value N) by assumption.
    destruct (value M mx <? value M my) eqn:E1.
    + apply Z.ltb_lt in E1. cbn [magnitude_ positive_].
      split; [|apply sub_wf; assumption].
      rewrite (sub_value Hsafe N) by assumption.
      rewrite Z.mod_small by lia.
      destruct px, py; try contradiction; lia.
    + apply Z.ltb_ge in E1. rewrite Z.gtb_ltb.
      destruct (value M my <? value M mx) eqn:E2.
      * apply Z.ltb_lt in E2. cbn [magnitude_ positive_].
        split; [|apply sub_wf; assumption].
        rewrite (sub_value Hsafe N) by assumption.
        rewrite Z.mod_small by lia.
        destruct px, py; try contradiction; lia.
      * apply Z.ltb_ge in E2. destruct Wx as [Lx Dx]. rewrite Lx.
        unfold integer_default. cbn [magnitude_ positive_].
        rewrite value_zero. split; [|apply zero_wf].
        destruct px, py; try contradiction; lia.
Qed.

Lemma integer_mul_value (N : nat) (x y : integer) :
  index_safe N ->
  well_formed M N (magnitude_ x) -> well_formed M N (magnitude_ y) ->
  Z.abs (signed_value M x * signed_value M y) < B ^ Z.of_nat N ->
  signed_value M (integer_mul W M x y) = signed_value M x * signed_value M y
  /\ well_formed M N (magnitude_ (integer_mul W M x y)).
Proof.
  intros HN Wx Wy Hfit. unfold index_safe in HN.
  destruct x as [px mx], y as [py my]. cbn [magnitude_] in Wx, Wy.
  pose proof (value_bound N mx Wx) as Hx.
  pose proof (value_bound N my Wy) as Hy.
  pose proof (mul_wf N mx my Wx Wy ltac:(lia)) as Wm.
  pose proof (mul_value N mx my Wx Wy ltac:(lia)) as Vm.
  assert (Habs : Z.abs (signed_value M (Integer px mx)
                        * signed_value M (Integer py my))
                 = value M mx * value M my).
  { unfold signed_value. cbn [magnitude_ positive_].
    rewrite Z.abs_mul. destruct px, py; rewrite ?Z.abs_opp, !Z.abs_eq; lia. }
  rewrite Habs in Hfit.
  rewrite Z.mod_small in Vm by nia.
  unfold integer_mul. cbn [magnitude_ positive_].
  rewrite (eqb_zero_value N _ Wm). destruct (Wm) as [Lm _]. rewrite Lm.
  destruct (value M (mul W M mx my) =? 0) eqn:E.
  - apply Z.eqb_eq in E. unfold integer_default, signed_value.
    cbn [magnitude_ positive_]. rewrite value_zero.
    split; [|apply zero_wf]. rewrite E in Vm.
    destruct px, py; nia.
  - unfold signed_value, same_sign. cbn [magnitude_ positive_].
    split; [|exact Wm]. rewrite Vm.
    destruct px, py; cbn; lia.
Qed.

Lemma integer_one (N : nat) :
  integer_of_native W M N 32 1 = Integer true (from_native W M N 1).
Proof. reflexivity. Qed.

Lemma quot_of_signs (a b : Z) (s t : bool) :
  0 <= a -> 0 <= b ->
  Z.quot (if s then a else - a) (if t then b else - b)
  = if Bool.eqb s t then a / b else - (a / b).
Proof.
  intros Ha Hb. destruct (Z.eq_dec b 0) as [->|Hb0].
  - rewrite Z.div_0_r.
    assert (Hq : forall c, Z.quot c 0 = 0) by (intros c; destruct c; reflexivity).
    destruct s, t; cbn; rewrite Hq; reflexivity.
  - destruct s, t; cbn;
      rewrite ?Z.quot_opp_l, ?Z.quot_opp_r, ?Z.opp_involutive by lia;
      rewrite Z.quot_div_nonneg by lia; reflexivity.
Qed.

Lemma rem_of_signs (a b : Z) (s t : bool) :
  0 <= a -> 0 <= b ->
  Z.rem (if s then a else - a) (if t then b else - b)
  = if s then a mod b else - (a mod b).
Proof.
  intros Ha Hb. destruct (Z.eq_dec b 0) as [->|Hb0].
  - rewrite Z.mod_0_r.
    assert (Hr : forall c, Z.rem c 0 = c) by (intros c; destruct c; reflexivity).
    destruct s, t; cbn; rewrite Hr; reflexivity.
  - destruct s, t; cbn;
      rewrite ?Z.rem_opp_l, ?Z.rem_opp_r by lia;
      rewrite Z.rem_mod_nonneg by lia; reflexivity.
Qed.

Lemma integer_div_value (Hsafe : unsigned_safe M) (N : nat) (x y : integer) :
  index_safe N -> (0 < N)%nat ->
  well_formed M N (magnitude_ x) -> well_formed M N (magnitude_ y) ->
  exists q,
    integer_div W M x y = Some q
    /\ well_formed M N (magnitude_ q)
    /\ signed_value M q = Z.quot (signed_value M x) (signed_value M y).
Proof.
  intros HN Hpos Wx Wy. destruct x as [px mx], y as [py my].
  cbn [magnitude_] in Wx, Wy.
  pose proof (value_bound N mx Wx) as Hx.
  pose proof (value_bound N my Wy) as Hy.
  destruct (div_correct Hsafe N mx my HN Hpos Wx Wy) as (q & Hq & Wq & Vq).
  unfold integer_div, signed_value. cbn [magnitude_ positive_].
  rewrite Hq, (eqb_zero_value N q Wq), quot_of_signs by lia.
  destruct (Wq) as [Lq _]. rewrite Lq.
  destruct (value M q =? 0) eqn:E.
  - apply Z.eqb_eq in E. eexists. split; [reflexivity|].
    cbn [integer_default magnitude_ positive_]. split; [apply zero_wf|].
    rewrite value_zero, <- Vq, E. destruct (Bool.eqb px py); reflexivity.
  - eexists. split; [reflexivity|]. cbn [magnitude_ positive_].
    split; [exact Wq|]. rewrite <- Vq. unfold same_sign.
    rewrite Bool.negb_involutive. reflexivity.
Qed.

Lemma integer_mod_value (Hsafe : unsigned_safe M) (N : nat) (x y : integer) :
  index_safe N -> (0 < N)%nat ->
  well_formed M N (magnitude_ x) -> well_formed M N (magnitude_ y) ->
  exists r,
    integer_mod W M x y = Some r
    /\ well_formed M N (magnitude_ r)
    /\ signed_value M r = Z.rem (signed_value M x) (signed_value M y).
Proof.
  intros HN Hpos Wx Wy. destruct x as [px mx], y as [py my].
  cbn [magnitude_] in Wx, Wy.
  pose proof (value_bound N mx Wx) as Hx.
  pose proof (value_bound N my Wy) as Hy.
  destruct (modulo_correct Hsafe N mx my HN Hpos Wx Wy)
    as (q & r & _ & Hr & _ & _ & Wr & Vr & _).
  unfold integer_mod, signed_value. cbn [magnitude_ positive_].
  rewrite Hr, (eqb_zero_value N r Wr), rem_of_signs by lia.
  eexists. split; [reflexivity|]. cbn [magnitude_ positive_].
  split; [exact Wr|]. rewrite <- Vr.
  destruct (value M r =? 0) eqn:E; cbn [negb].
  - apply Z.eqb_eq in E. rewrite E. destruct px; reflexivity.
  - reflexivity.
Qed.

End Values.

(** * The properties of the specification *)

(** ** Division and modulus by zero *)

(** C1 (as amended): for every unsigned number [a], dividing by the zero
    value returns the zero value and no fault is signalled, while [a]
    modulo the zero value returns [a] itself, being computed as
    [a - (a / 0) * 0]. *)
Theorem div_mod_by_zero (W M : Z) (N : nat) (a : number) :
  digit_config W M -> Z.of_nat N < 2 ^ 32 -> well_formed M N a ->
  div W M a (zero N) = Some (zero N) /\ modulo W M a (zero N) = Some a.
Proof.
  intros Hcfg HN Wa.
  assert (Hdiv : div W M a (zero N) = Some (zero N)).
  { unfold div. destruct Wa as [La _]. rewrite La.
    rewrite (from_native_zero W M N), (eqb_refl (zero N)).
    rewrite orb_true_r. reflexivity. }
  split; [exact Hdiv|].
  unfold modulo. rewrite Hdiv.
  rewrite (mul_zero_r W M Hcfg N) by (assumption || apply length_replicate).
  rewrite (sub_zero_r W M Hcfg N a Wa). reflexivity.
Qed.

Lemma div_mod_by_zero_witness :
  div 8 255 [3; 232] (zero 2) = Some (zero 2)
  /\ modulo 8 255 [3; 232] (zero 2) = Some [3; 232].
Proof.
  apply (div_mod_by_zero 8 255 2 [3; 232]).
  - unfold digit_config. lia.
  - simpl. lia.
  - split; [reflexivity | repeat constructor; lia].
Defined.

(** C1 as stated fails: one modulo zero is one, not zero. *)
Lemma mod_by_zero_not_zero :
  ~ (forall (W M : Z) (N : nat) (a : number),
        digit_config W M -> well_formed M N a ->
        modulo W M a (zero N) = Some (zero N)).
Proof.
  intros H. specialize (H 8 255 1%nat [1]).
  assert (Hm : modulo 8 255 [1] (zero 1) = Some [1]) by (vm_compute; reflexivity).
  rewrite Hm in H. discriminate H.
  - unfold digit_config. lia.
  - split; [reflexivity | repeat constructor; lia].
Qed.

(** ** Exponentiation *)

(** C10: for every unsigned number [a], zero included, [a.pow(zero)]
    returns the number one, whatever fuel the loop is given. *)
Theorem pow_zero_exponent (W M : Z) (N fuel : nat) (a : number) :
  digit_config W M -> (0 < N)%nat -> well_formed M N a ->
  pow W M fuel a (from_native W M N 0) = Some (from_native W M N 1)
  /\ value M (from_native W M N 1) = 1.
Proof.
  intros Hcfg HN [La _]. split; [|apply (value_one W M Hcfg N HN)].
  unfold pow. rewrite La.
  assert (Hlen : length (from_native W M N 0) = N).
  { rewrite (from_native_zero W M N). apply length_replicate. }
  destruct fuel; cbn [pow_loop]; rewrite Hlen, eqb_refl; reflexivity.
Qed.

Lemma pow_zero_exponent_witness :
  pow 8 255 0 (zero 2) (from_native 8 255 2 0) = Some (from_native 8 255 2 1)
  /\ value 255 (from_native 8 255 2 1) = 1.
Proof.
  apply (pow_zero_exponent 8 255 2 0 (zero 2)).
  - unfold digit_config. lia.
  - lia.
  - split; [reflexivity | repeat constructor; lia].
Defined.

(** C4 at a failing input: in base three with two digits, two to the
    power three comes out as four, although eight is below the capacity
    nine.  The loop tests the parity of the lowest base-three digit of the
    exponent, which for the exponent three (digits 1, 0) is even. *)
Theorem pow_odd_base_wrong :
  pow 8 2 8 (from_native 8 2 2 2) (from_native 8 2 2 3)
  = Some (from_native 8 2 2 4)
  /\ value 2 (from_native 8 2 2 4) <> 2 ^ 3 mod base 2 ^ 2
  /\ modulo 8 2 (from_native 8 2 2 3) (from_native 8 2 2 2)
     = Some (from_native 8 2 2 1)
  /\ Z.land (digit (from_native 8 2 2 3) 0) 1 = 0.
Proof. vm_compute. repeat split; congruence. Qed.

(** ** Parsing *)

Lemma from_string_loop_none (W M : Z) (N : nat) (b : string_base)
    (cs : list ascii) (result power base_number : number) :
  from_string_loop W M N b cs result power base_number = None
  <-> Exists (fun c => decode_char b c = None) cs.
Proof.
  revert result power. induction cs as [|c cs IH]; intros result power.
  - simpl. split; [discriminate | intros H; inversion H].
  - cbn [from_string_loop]. destruct (decode_char b c) as [v|] eqn:E.
    + rewrite IH. split; [intros H; right; exact H|].
      intros H. inversion H as [? ? Hc|? ? Hcs]; subst; [congruence|exact Hcs].
    + split; [intros _; left; exact E | reflexivity].
Qed.

Lemma decode_char_recognized (b : string_base) (c : ascii) (v : Z) :
  decode_char b c = Some v
  <-> v < to_underlying b
      /\ ((48 <= Z.of_nat (nat_of_ascii c) <= 57
           /\ v = Z.of_nat (nat_of_ascii c) - 48)
          \/ (97 <= Z.of_nat (nat_of_ascii c) <= 102
              /\ v = Z.of_nat (nat_of_ascii c) - 87)
          \/ (65 <= Z.of_nat (nat_of_ascii c) <= 70
              /\ v = Z.of_nat (nat_of_ascii c) - 55)).
Proof.
  unfold decode_char. set (n := Z.of_nat (nat_of_ascii c)).
  destruct (48 <=? n) eqn:E1; destruct (n <=? 57) eqn:E2;
    destruct (97 <=? n) eqn:E3; destruct (n <=? 102) eqn:E4;
    destruct (65 <=? n) eqn:E5; destruct (n <=? 70) eqn:E6;
    cbn [andb];
    repeat match goal with
      | H : (_ <=? _) = true |- _ => apply Z.leb_le in H
      | H : (_ <=? _) = false |- _ => apply Z.leb_gt in H
      end;
    try lia;
    try (match goal with |- context [?x <? ?y] => destruct (x <? y) eqn:Ev end;
         [apply Z.ltb_lt in Ev | apply Z.ltb_ge in Ev]);
    (split; [intros H; inversion H; subst; lia
            | intros [Hv Hc]; try (f_equal; lia); try lia]).
Qed.

(** C8: [from_string] returns an absent result exactly when some character
    of the input fails to decode to a digit value below the base, where the
    characters that decode are 0-9, a-f and A-F with the values 0 to 15;
    the empty string parses to zero, and a parse never succeeds on a
    prefix only. *)
Theorem from_string_fails_iff (W M : Z) (N : nat) (s : string)
    (b : string_base) :
  (from_string W M N s b = None
   <-> Exists (fun c => decode_char b c = None) (list_ascii_of_string s))
  /\ from_string W M N EmptyString b = Some (zero N)
  /\ (forall c v,
        decode_char b c = Some v
        <-> v < to_underlying b
            /\ ((48 <= Z.of_nat (nat_of_ascii c) <= 57
                 /\ v = Z.of_nat (nat_of_ascii c) - 48)
                \/ (97 <= Z.of_nat (nat_of_ascii c) <= 102
                    /\ v = Z.of_nat (nat_of_ascii c) - 87)
                \/ (65 <= Z.of_nat (nat_of_ascii c) <= 70
                    /\ v = Z.of_nat (nat_of_ascii c) - 55))).
Proof.
  split; [|split; [reflexivity | apply decode_char_recognized]].
  unfold from_string. rewrite from_string_loop_none, rev_reverse.
  rewrite !Exists_exists. split; intros (c & Hin & Hc); exists c;
    (split; [|exact Hc]).
  - apply elem_of_reverse. exact Hin.
  - apply elem_of_reverse. exact Hin.
Qed.

(** The scenario of the specification: a [g] makes a hexadecimal parse
    fail, also after two good characters. *)
Example from_string_10g :
  from_string 8 255 2 "10g" hexadecimal = None
  /\ from_string 8 255 2 "1000" decimal = Some [3; 232].
Proof. vm_compute. split; reflexivity. Qed.

(** ** Signed comparison *)

(** C3 at a failing input: with one digit in base 256, minus five
    compares greater than minus three, although it is the smaller
    integer.  The defaulted [operator<=>] compares the magnitudes of two
    negative numbers the way it compares those of two non-negative ones,
    without the reversal, while it does order a negative number before a
    non-negative one, in both argument orders, and two non-negative
    numbers numerically. *)
Theorem integer_compare_wrong_between_negatives :
  integer_of_native 8 255 1 32 (-5) = Integer false [5]
  /\ integer_of_native 8 255 1 32 (-3) = Integer false [3]
  /\ signed_value 255 (Integer false [5]) = -5
  /\ signed_value 255 (Integer false [3]) = -3
  /\ integer_compare (Integer false [5]) (Integer false [3]) = Gt
  /\ integer_compare (Integer false [3]) (Integer false [5]) = Lt
  /\ integer_compare (Integer false [5]) (Integer true [3]) = Lt
  /\ integer_compare (Integer true [3]) (Integer false [5]) = Gt
  /\ integer_compare (Integer true [3]) (Integer true [5]) = Lt.
Proof. vm_compute. repeat split; reflexivity. Qed.

(** X24: the defaulted [operator<=>] of the wrapper orders every negative
    number before every non-negative one, in both argument orders, and
    two numbers of the same sign by their magnitudes.  So for canonical
    operands of which at least one is non-negative it is the order of the
    integers they stand for, and between two negative operands it is the
    reverse of that order.  Two numbers compare equal only when sign flag
    and digits are the same, and swapping the operands reverses the
    result. *)
Theorem integer_compare_spec (W M : Z) (N : nat) (x y : integer) :
  digit_config W M ->
  well_formed M N (magnitude_ x) -> well_formed M N (magnitude_ y) ->
  (positive_ x = false -> positive_ y = true -> integer_compare x y = Lt)
  /\ (positive_ x = true -> positive_ y = false -> integer_compare x y = Gt)
  /\ (positive_ x = positive_ y ->
      integer_compare x y
      = (value M (magnitude_ x) ?= value M (magnitude_ y)))
  /\ (canonical M x -> canonical M y ->
      positive_ x = true \/ positive_ y = true ->
      integer_compare x y = (signed_value M x ?= signed_value M y))
  /\ (positive_ x = false -> positive_ y = false ->
      integer_compare x y = (signed_value M y ?= signed_value M x))
  /\ (integer_compare x y = Eq <-> x = y)
  /\ integer_compare y x = CompOpp (integer_compare x y).
Proof.
  intros Hcfg Wx Wy. destruct x as [px mx], y as [py my].
  cbn [magnitude_] in Wx, Wy.
  pose proof (compare_value W M Hcfg N mx my Wx Wy) as Hxy.
  pose proof (compare_value W M Hcfg N my mx Wy Wx) as Hyx.
  pose proof (value_bound W M Hcfg N mx Wx) as Hx.
  pose proof (value_bound W M Hcfg N my Wy) as Hy.
  unfold integer_compare, signed_value, canonical.
  cbn [positive_ magnitude_].
  split; [intros -> ->; reflexivity|].
  split; [intros -> ->; reflexivity|].
  split; [intros ->; rewrite Hxy; destruct py; reflexivity|].
  split.
  { intros Cx Cy Hpos. destruct px, py.
    - exact Hxy.
    - symmetry. apply Z.compare_gt_iff.
      assert (value M my <> 0) by (intros E; specialize (Cy E); discriminate).
      lia.
    - symmetry. apply Z.compare_lt_iff.
      assert (value M mx <> 0) by (intros E; specialize (Cx E); discriminate).
      lia.
    - destruct Hpos; discriminate. }
  split.
  { intros -> ->. rewrite Hxy. symmetry. apply Z.compare_opp. }
  split.
  { split.
    - destruct px, py; try discriminate; intros Hc; f_equal;
        apply compare_eq; try exact Hc;
        destruct Wx as [-> _], Wy as [-> _]; reflexivity.
    - intros Heq. injection Heq as -> ->.
      destruct py; apply compare_refl. }
  destruct px, py; try reflexivity; rewrite Hxy, Hyx; apply Z.compare_antisym.
Qed.

Lemma integer_compare_spec_witness :
  (positive_ (Integer false [5]) = false ->
   positive_ (Integer true [3]) = true ->
   integer_compare (Integer false [5]) (Integer true [3]) = Lt)
  /\ (positive_ (Integer false [5]) = true ->
      positive_ (Integer true [3]) = false ->
      integer_compare (Integer false [5]) (Integer true [3]) = Gt)
  /\ (positive_ (Integer false [5]) = positive_ (Integer true [3]) ->
      integer_compare (Integer false [5]) (Integer true [3])
      = (value 255 (magnitude_ (Integer false [5]))
         ?= value 255 (magnitude_ (Integer true [3]))))
  /\ (canonical 255 (Integer false [5]) -> canonical 255 (Integer true [3]) ->
      positive_ (Integer false [5]) = true
      \/ positive_ (Integer true [3]) = true ->
      integer_compare (Integer false [5]) (Integer true [3])
      = (signed_value 255 (Integer false [5])
         ?= signed_value 255 (Integer true [3])))
  /\ (positive_ (Integer false [5]) = false ->
      positive_ (Integer true [3]) = false ->
      integer_compare (Integer false [5]) (Integer true [3])
      = (signed_value 255 (Integer true [3])
         ?= signed_value 255 (Integer false [5])))
  /\ (integer_compare (Integer false [5]) (Integer true [3]) = Eq
      <-> Integer false [5] = Integer true [3])
  /\ integer_compare (Integer true [3]) (Integer false [5])
     = CompOpp (integer_compare (Integer false [5]) (Integer true [3])).
Proof.
  apply (integer_compare_spec 8 255 1 (Integer false [5]) (Integer true [3])).
  - unfold digit_config. lia.
  - split; [reflexivity | repeat constructor; simpl; lia].
  - split; [reflexivity | repeat constructor; simpl; lia].
Defined.

(** ** Conversion to a native integer *)

(** C6 (as amended): converting a stored value [v] to a native unsigned
    type of [w] bits yields exactly [v] when [v < 2 ^ w]; when [v] does not
    fit, the result is [v mod 2 ^ w] provided the base is a power of two.
    (In other bases the loop stops at the first place value it sees
    decrease after wrapping, and the result need not be [v mod 2 ^ w].) *)
Theorem to_native_value (W M : Z) (N : nat) (w : Z) (a : number) :
  digit_config W M -> 0 < w -> well_formed M N a ->
  (value M a < 2 ^ w -> to_native W M w a = value M a)
  /\ (forall k, 0 < k -> base M = 2 ^ k ->
        to_native W M w a = value M a mod 2 ^ w).
Proof.
  intros Hcfg Hw Wa. split.
  - apply (to_native_fits W M Hcfg N w a Hw Wa).
  - intros k Hk HB. apply (to_native_pow2 W M Hcfg w k a Hw Hk HB).
Qed.

Lemma to_native_value_witness :
  (value 255 [3; 232] < 2 ^ 8 -> to_native 8 255 8 [3; 232] = value 255 [3; 232])
  /\ (forall k, 0 < k -> base 255 = 2 ^ k ->
        to_native 8 255 8 [3; 232] = value 255 [3; 232] mod 2 ^ 8).
Proof.
  apply (to_native_value 8 255 2 8 [3; 232]).
  - unfold digit_config. lia.
  - lia.
  - split; [reflexivity | repeat constructor; lia].
Defined.

(** C6 as stated fails: in base ten with 16-bit digits, the twelve-digit
    number [10 ^ 11] converts to the 32-bit value zero, while
    [10 ^ 11 mod 2 ^ 32] is 1215752192. *)
Lemma to_native_not_modular :
  ~ (forall (W M : Z) (N : nat) (w : Z) (a : number),
        digit_config W M -> 0 < w -> well_formed M N a ->
        to_native W M w a = value M a mod 2 ^ w).
Proof.
  intros H.
  specialize (H 16 9 12%nat 32 (from_native 16 9 12 (10 ^ 11))).
  assert (Hc : to_native 16 9 32 (from_native 16 9 12 (10 ^ 11)) = 0)
    by (vm_compute; reflexivity).
  assert (Hv : value 9 (from_native 16 9 12 (10 ^ 11)) mod 2 ^ 32
               = 1215752192) by (vm_compute; reflexivity).
  rewrite Hc, Hv in H. discriminate H.
  - unfold digit_config. lia.
  - lia.
  - split; [reflexivity | vm_compute; repeat constructor; discriminate].
Qed.

(** ** Arithmetic against native arithmetic *)

(** C5 (as amended): for natural numbers [a] and [b] of the native range,
    the sum and the product of the numbers built from them hold
    [(a + b) mod B ^ N] and [(a * b) mod B ^ N], and so does the difference
    with [(a - b) mod B ^ N] when no digit plus one overflows [unsigned];
    converting such a result back to the native type returns exactly that
    value whenever it is below [2 ^ w], and in every base that is a power
    of two it returns that value modulo [2 ^ w] in all cases.  For the
    difference the last statement also holds with the full range of
    32-bit digits, for native types of at most 64 bits, although the
    difference that is stored may then be wrong. *)
Theorem native_arithmetic (W M : Z) (N : nat) (w a b : Z) :
  digit_config W M -> index_safe N -> 0 < w ->
  0 <= a < 2 ^ w -> 0 <= b < 2 ^ w ->
  (value M (add W M (from_native W M N a) (from_native W M N b))
   = (a + b) mod base M ^ Z.of_nat N
   /\ ((a + b) mod base M ^ Z.of_nat N < 2 ^ w ->
       to_native W M w (add W M (from_native W M N a) (from_native W M N b))
       = (a + b) mod base M ^ Z.of_nat N))
  /\ (value M (mul W M (from_native W M N a) (from_native W M N b))
      = (a * b) mod base M ^ Z.of_nat N
      /\ ((a * b) mod base M ^ Z.of_nat N < 2 ^ w ->
          to_native W M w (mul W M (from_native W M N a) (from_native W M N b))
          = (a * b) mod base M ^ Z.of_nat N))
  /\ (unsigned_safe M ->
      value M (sub W M (from_native W M N a) (from_native W M N b))
      = (a - b) mod base M ^ Z.of_nat N
      /\ ((a - b) mod base M ^ Z.of_nat N < 2 ^ w ->
          to_native W M w (sub W M (from_native W M N a) (from_native W M N b))
          = (a - b) mod base M ^ Z.of_nat N))
  /\ (forall k, 0 < k -> base M = 2 ^ k ->
      to_native W M w (add W M (from_native W M N a) (from_native W M N b))
      = ((a + b) mod base M ^ Z.of_nat N) mod 2 ^ w
      /\ to_native W M w
           (mul W M (from_native W M N a) (from_native W M N b))
         = ((a * b) mod base M ^ Z.of_nat N) mod 2 ^ w
      /\ (unsigned_safe M \/ (M + 1 = 2 ^ 32 /\ w <= 64) ->
          to_native W M w
            (sub W M (from_native W M N a) (from_native W M N b))
          = ((a - b) mod base M ^ Z.of_nat N) mod 2 ^ w)).
Proof.
  intros Hcfg HN Hw Ha Hb. unfold index_safe in HN.
  pose proof (from_native_wf W M Hcfg N a (proj1 Ha)) as Wa.
  pose proof (from_native_wf W M Hcfg N b (proj1 Hb)) as Wb.
  pose proof (from_native_value W M Hcfg N a (proj1 Ha)) as Va.
  pose proof (from_native_value W M Hcfg N b (proj1 Hb)) as Vb.
  pose proof (base_pow_pos W M Hcfg (Z.of_nat N) ltac:(lia)) as Hcap.
  assert (Hadd : value M (add W M (from_native W M N a) (from_native W M N b))
                 = (a + b) mod base M ^ Z.of_nat N).
  { rewrite (add_value W M Hcfg N) by assumption.
    rewrite Va, Vb, <- Z.add_mod by lia. reflexivity. }
  assert (Hmul : value M (mul W M (from_native W M N a) (from_native W M N b))
                 = (a * b) mod base M ^ Z.of_nat N).
  { rewrite (mul_value W M Hcfg N) by (assumption || lia).
    rewrite Va, Vb, <- Z.mul_mod by lia. reflexivity. }
  assert (Hsub : unsigned_safe M ->
            value M (sub W M (from_native W M N a) (from_native W M N b))
            = (a - b) mod base M ^ Z.of_nat N).
  { intros Hsafe. rewrite (sub_value W M Hcfg Hsafe N) by assumption.
    rewrite Va, Vb, <- Zminus_mod. reflexivity. }
  split; [|split; [|split]].
  - split; [exact Hadd|]. intros Hfit. rewrite <- Hadd in *.
    apply (to_native_fits W M Hcfg N); [lia | | exact Hfit].
    apply add_wf; assumption.
  - split; [exact Hmul|]. intros Hfit. rewrite <- Hmul in *.
    apply (to_native_fits W M Hcfg N); [lia | | exact Hfit].
    apply mul_wf; assumption || lia.
  - intros Hsafe. specialize (Hsub Hsafe).
    split; [exact Hsub|]. intros Hfit. rewrite <- Hsub in *.
    apply (to_native_fits W M Hcfg N); [lia | | exact Hfit].
    apply sub_wf; assumption.
  - intros k Hk HB2.
    split; [rewrite (to_native_pow2 W M Hcfg w k _ Hw Hk HB2), Hadd;
            reflexivity|].
    split; [rewrite (to_native_pow2 W M Hcfg w k _ Hw Hk HB2), Hmul;
            reflexivity|].
    intros [Hsafe|[Hfull Hw64]];
      rewrite (to_native_pow2 W M Hcfg w k _ Hw Hk HB2);
      [rewrite (Hsub Hsafe); reflexivity|].
    assert (H32 : M + 1 <= 2 ^ 32) by lia.
    assert (HB32 : base M = 2 ^ 32) by (unfold base; lia).
    assert (H2w : 0 < 2 ^ w) by (apply Z.pow_pos_nonneg; lia).
    set (D := sub W M (from_native W M N a) (from_native W M N b)).
    set (C := base M ^ Z.of_nat N) in *.
    destruct (Z_lt_le_dec (Z.of_nat N) 2) as [Hsmall|Hbig].
    + destruct (sub_low_digits W M Hcfg N _ _ (Z.of_nat N) H32 Wa Wb
                  ltac:(lia) ltac:(lia)) as [Wd Hlow].
      fold D in Wd, Hlow. fold C in Hlow.
      pose proof (value_bound W M Hcfg N D Wd) as Hd. fold C in Hd.
      rewrite Z.mod_small in Hlow by exact Hd.
      rewrite Hlow, Va, Vb, <- Zminus_mod. reflexivity.
    + destruct (sub_low_digits W M Hcfg N _ _ 2 H32 Wa Wb
                  ltac:(lia) Hbig) as [_ Hlow].
      fold D in Hlow.
      assert (D1 : Z.divide (2 ^ w) (base M ^ 2)).
      { exists (2 ^ (64 - w)).
        rewrite HB32, <- Z.pow_mul_r, <- Z.pow_add_r by lia. f_equal. lia. }
      assert (D2 : Z.divide (base M ^ 2) C).
      { exists (base M ^ (Z.of_nat N - 2)). unfold C.
        rewrite <- Z.pow_add_r by lia. f_equal. lia. }
      assert (D3 : Z.divide (2 ^ w) C)
        by (apply (Z.divide_trans _ _ _ D1 D2)).
      rewrite (Z.mod_mod_divide (a - b) C (2 ^ w) D3).
      rewrite <- (Z.mod_mod_divide (value M D) (base M ^ 2) (2 ^ w) D1).
      rewrite Hlow, (Z.mod_mod_divide _ (base M ^ 2) (2 ^ w) D1), Va, Vb.
      rewrite <- (Z.mod_mod_divide (a mod C - b mod C) C (2 ^ w) D3).
      rewrite <- Zminus_mod. apply (Z.mod_mod_divide (a - b) C (2 ^ w) D3).
Qed.

Lemma native_arithmetic_witness :
  (value 4294967295
     (add 32 4294967295 (from_native 32 4294967295 3 0)
        (from_native 32 4294967295 3 18446744073709551615))
   = (0 + 18446744073709551615) mod base 4294967295 ^ Z.of_nat 3
   /\ ((0 + 18446744073709551615) mod base 4294967295 ^ Z.of_nat 3 < 2 ^ 64 ->
       to_native 32 4294967295 64
         (add 32 4294967295 (from_native 32 4294967295 3 0)
            (from_native 32 4294967295 3 18446744073709551615))
       = (0 + 18446744073709551615) mod base 4294967295 ^ Z.of_nat 3))
  /\ (value 4294967295
        (mul 32 4294967295 (from_native 32 4294967295 3 0)
           (from_native 32 4294967295 3 18446744073709551615))
      = (0 * 18446744073709551615) mod base 4294967295 ^ Z.of_nat 3
      /\ ((0 * 18446744073709551615) mod base 4294967295 ^ Z.of_nat 3
            < 2 ^ 64 ->
          to_native 32 4294967295 64
            (mul 32 4294967295 (from_native 32 4294967295 3 0)
               (from_native 32 4294967295 3 18446744073709551615))
          = (0 * 18446744073709551615) mod base 4294967295 ^ Z.of_nat 3))
  /\ (unsigned_safe 4294967295 ->
      value 4294967295
        (sub 32 4294967295 (from_native 32 4294967295 3 0)
           (from_native 32 4294967295 3 18446744073709551615))
      = (0 - 18446744073709551615) mod base 4294967295 ^ Z.of_nat 3
      /\ ((0 - 18446744073709551615) mod base 4294967295 ^ Z.of_nat 3
            < 2 ^ 64 ->
          to_native 32 4294967295 64
            (sub 32 4294967295 (from_native 32 4294967295 3 0)
               (from_native 32 4294967295 3 18446744073709551615))
          = (0 - 18446744073709551615) mod base 4294967295 ^ Z.of_nat 3))
  /\ (forall k, 0 < k -> base 4294967295 = 2 ^ k ->
      to_native 32 4294967295 64
        (add 32 4294967295 (from_native 32 4294967295 3 0)
           (from_native 32 4294967295 3 18446744073709551615))
      = ((0 + 18446744073709551615) mod base 4294967295 ^ Z.of_nat 3)
        mod 2 ^ 64
      /\ to_native 32 4294967295 64
           (mul 32 4294967295 (from_native 32 4294967295 3 0)
              (from_native 32 4294967295 3 18446744073709551615))
         = ((0 * 18446744073709551615) mod base 4294967295 ^ Z.of_nat 3)
           mod 2 ^ 64
      /\ (unsigned_safe 4294967295 \/ (4294967295 + 1 = 2 ^ 32 /\ 64 <= 64) ->
          to_native 32 4294967295 64
            (sub 32 4294967295 (from_native 32 4294967295 3 0)
               (from_native 32 4294967295 3 18446744073709551615))
          = ((0 - 18446744073709551615) mod base 4294967295 ^ Z.of_nat 3)
            mod 2 ^ 64)).
Proof.
  apply (native_arithmetic 32 4294967295 3 64 0 18446744073709551615).
  - unfold digit_config. lia.
  - unfold index_safe. simpl. lia.
  - lia.
  - lia.
  - lia.
Defined.

(** C5 as stated fails: in base ten with thirteen 16-bit digits the
    product of one million by itself is stored exactly as [10 ^ 12], and
    converts to the 32-bit value zero; this is neither the native product
    3567587328 nor any reduction of it modulo [10 ^ 13]. *)
Lemma native_product_lost :
  ~ (forall (W M : Z) (N : nat) (w a b : Z),
        digit_config W M -> index_safe N -> 0 < w ->
        0 <= a < 2 ^ w -> 0 <= b < 2 ^ w ->
        to_native W M w (mul W M (from_native W M N a) (from_native W M N b))
        = wrap w (a * b) mod base M ^ Z.of_nat N
        \/ to_native W M w
             (mul W M (from_native W M N a) (from_native W M N b))
           = wrap w ((a * b) mod base M ^ Z.of_nat N)
        \/ to_native W M w
             (mul W M (from_native W M N a) (from_native W M N b))
           = (a * b) mod base M ^ Z.of_nat N).
Proof.
  intros H.
  specialize (H 16 9 13%nat 32 (10 ^ 6) (10 ^ 6)).
  assert (Hc : to_native 16 9 32
                 (mul 16 9 (from_native 16 9 13 (10 ^ 6))
                    (from_native 16 9 13 (10 ^ 6))) = 0)
    by (vm_compute; reflexivity).
  rewrite Hc in H.
  assert (H1 : wrap 32 (10 ^ 6 * 10 ^ 6) mod base 9 ^ Z.of_nat 13
               = 3567587328) by (vm_compute; reflexivity).
  assert (H2 : wrap 32 ((10 ^ 6 * 10 ^ 6) mod base 9 ^ Z.of_nat 13)
               = 3567587328) by (vm_compute; reflexivity).
  assert (H3 : (10 ^ 6 * 10 ^ 6) mod base 9 ^ Z.of_nat 13
               = 1000000000000) by (vm_compute; reflexivity).
  rewrite H1, H2, H3 in H.
  destruct H as [H|[H|H]]; try discriminate H.
  - unfold digit_config. lia.
  - unfold index_safe. simpl. lia.
  - lia.
  - lia.
  - lia.
Qed.

(** ** The Euclidean identity *)

(** C2 at a failing input: with 32-bit digits and the full digit range,
    three digits, [2 ^ 64] divided by three gives the right quotient, but
    the remainder comes out as [2 ^ 64 + 1] instead of one, and quotient
    times divisor plus remainder is [2 * 2 ^ 64], not [2 ^ 64].  In
    [operator-] the sum [borrow + *op2] wraps to zero in [unsigned] when the
    digit is [2 ^ 32 - 1], which loses the borrow. *)
Theorem euclid_fails_on_full_32_bit_digits :
  div 32 (2 ^ 32 - 1) [1; 0; 0] [0; 0; 3]
  = Some [0; 1431655765; 1431655765]
  /\ modulo 32 (2 ^ 32 - 1) [1; 0; 0] [0; 0; 3] = Some [1; 0; 1]
  /\ add 32 (2 ^ 32 - 1)
       (mul 32 (2 ^ 32 - 1) [0; 1431655765; 1431655765] [0; 0; 3]) [1; 0; 1]
     = [2; 0; 0]
  /\ sub 32 (2 ^ 32 - 1) [1; 0; 0] [0; 4294967295; 4294967295] = [1; 0; 1]
  /\ well_formed (2 ^ 32 - 1) 3 [1; 0; 0]
  /\ well_formed (2 ^ 32 - 1) 3 [0; 0; 3].
Proof.
  split; [vm_compute; reflexivity|].
  split; [vm_compute; reflexivity|].
  split; [vm_compute; reflexivity|].
  split; [vm_compute; reflexivity|].
  split; (split; [reflexivity | repeat constructor; lia]).
Qed.

(** ** Canonical zero of the signed wrapper *)

(** C9 at a failing input: with one digit in base 256, minus 128 plus
    minus 128 has magnitude [256 mod 256 = 0] and keeps the negative sign.
    Both operands are canonical; the branch of [operator+] for equal signs
    does not look at the magnitude it computed, while [operator*],
    [operator/] and [operator%] do.  Construction from the native value
    minus 256 gives the same negative zero. *)
Theorem integer_add_negative_zero :
  canonical 255 (integer_of_native 8 255 1 32 (-128))
  /\ integer_add 8 255 (integer_of_native 8 255 1 32 (-128))
       (integer_of_native 8 255 1 32 (-128))
     = Integer false [0]
  /\ integer_of_native 8 255 1 32 (-256) = Integer false [0]
  /\ ~ canonical 255 (Integer false [0]).
Proof.
  split; [unfold canonical; vm_compute; discriminate|].
  split; [vm_compute; reflexivity|].
  split; [vm_compute; reflexivity|].
  unfold canonical. vm_compute. intros H. specialize (H eq_refl).
  discriminate H.
Qed.

(** ** Text round trip *)

(** X25: for every nonzero unsigned number [a] with digits of at most 32
    bits, the full range of [std::uint32_t] included, and every base in
    {2, 8, 10, 16}, when the number built from the base is not one (the
    base modulo [B ^ N] is not 1), [to_string] returns once its loop is
    given enough fuel, and parsing the string it returns recovers [a].
    With full-range digits the remainder that [operator%] returns can be
    wrong, but [to_string] reads its lowest digit only, which is right. *)
Theorem string_round_trip (W M : Z) (N fuel : nat) (a : number)
    (sb : string_base) :
  digit_config W M -> M + 1 <= 2 ^ 32 -> index_safe N -> (0 < N)%nat ->
  well_formed M N a -> a <> zero N ->
  to_underlying sb mod base M ^ Z.of_nat N <> 1 ->
  value M a <= Z.of_nat fuel ->
  exists s,
    to_string W M fuel a sb = Some s /\ from_string W M N s sb = Some a.
Proof.
  intros Hcfg H32 HN Hpos Wa _ Hb1 Hfuel.
  pose proof (base_pow_pos W M Hcfg (Z.of_nat N) ltac:(lia)) as HC.
  pose proof (value_bound W M Hcfg N a Wa) as Ha.
  assert (Hsb : 2 <= to_underlying sb <= 16) by (destruct sb; simpl; lia).
  pose proof (from_native_wf W M Hcfg N (to_underlying sb) ltac:(lia)) as Wb.
  pose proof (from_native_value W M Hcfg N (to_underlying sb) ltac:(lia)) as Vb.
  set (b := from_native W M N (to_underlying sb)) in *.
  set (C := base M ^ Z.of_nat N) in *.
  pose proof (Z.mod_pos_bound (to_underlying sb) C HC) as Hbm.
  assert (Hble : to_underlying sb mod C <= to_underlying sb)
    by (apply Z.mod_le; lia).
  assert (Hcap : value M b = 0 -> C <= to_underlying sb).
  { intros E. rewrite Vb in E.
    destruct (Z_lt_le_dec (to_underlying sb) C) as [H|H]; [|exact H].
    rewrite Z.mod_small in E by lia. lia. }
  assert (Hdig : forall v, 0 <= v < C ->
            0 <= v mod value M b < to_underlying sb).
  { intros v Hv. destruct (Z.eq_dec (value M b) 0) as [E|E].
    - specialize (Hcap E). rewrite E, Z.mod_0_r. lia.
    - pose proof (Z.mod_pos_bound v (value M b) ltac:(lia)). lia. }
  assert (Hok : unsigned_safe M \/ (M + 1 <= 2 ^ 32 /\ value M b < M)).
  { destruct (Z_lt_le_dec (M + 1) (2 ^ 32)) as [H|H]; [left; exact H|right].
    split; [exact H32|]. rewrite Vb. lia. }
  destruct Wa as [La Da]. pose proof (conj La Da) as Wa.
  unfold to_string. rewrite La. fold b.
  rewrite (to_string_loop_gen W M Hcfg N fuel a b [] Hok)
    by (try assumption; try lia;
        intros v Hv; specialize (Hdig v Hv); lia).
  eexists. split; [reflexivity|].
  unfold from_string.
  rewrite list_ascii_of_string_of_list_ascii, rev_involutive.
  cbn [app]. fold b.
  destruct (from_string_loop_spec W M Hcfg N sb
              (digits_of fuel (value M b) (value M a))
              (zero N) (from_native W M N 1) b HN)
    as (result' & Hres & Wres & Vres).
  - apply (zero_wf W M Hcfg).
  - apply (from_native_wf W M Hcfg). lia.
  - exact Wb.
  - apply digits_of_range; lia.
  - rewrite Hres. f_equal. apply (value_inj W M Hcfg N); [exact Wres | exact Wa|].
    rewrite Vres, (value_zero M), (value_one W M Hcfg N Hpos).
    rewrite horner_digits_of by lia. fold C.
    rewrite Z.add_0_l, Z.mul_1_l. apply Z.mod_small. lia.
Qed.

Lemma string_round_trip_witness :
  exists s,
    to_string 32 4294967295 1000 [0; 0; 1000] hexadecimal = Some s
    /\ from_string 32 4294967295 3 s hexadecimal = Some [0; 0; 1000].
Proof.
  apply (string_round_trip 32 4294967295 3 1000 [0; 0; 1000] hexadecimal).
  - unfold digit_config. lia.
  - lia.
  - unfold index_safe. simpl. lia.
  - lia.
  - split; [reflexivity | repeat constructor; lia].
  - discriminate.
  - vm_compute. discriminate.
  - vm_compute. discriminate.
Defined.

(** With one digit in base three the number built from the base ten is
    one, and the loop of [to_string] on the value one divides by one for
    ever. *)
Lemma to_string_loop_stuck (fuel : nat) (s : list ascii) :
  to_string_loop 8 2 fuel [1] [1] s = None.
Proof.
  revert s. induction fuel as [|fuel IH]; intros s; [reflexivity|].
  cbn [to_string_loop].
  change (eqb [1] (from_native 8 2 (length [1]) 0)) with false.
  cbv iota.
  replace (modulo 8 2 [1] [1]) with (Some [0]) by (vm_compute; reflexivity).
  replace (div 8 2 [1] [1]) with (Some [1]) by (vm_compute; reflexivity).
  apply IH.
Qed.

(** C7 at a failing input: for [number<std::uint8_t, 1, 2>] (one digit
    in base three) the number built from the base ten is one, and
    [to_string] of the nonzero value one never returns: the quotient by
    one is the number itself and no division faults, so no turn of the
    loop changes its state, whatever the fuel.  There is no string to
    parse back, where the doc comment of [to_string] promises one. *)
Theorem to_string_never_returns_in_base_three :
  well_formed 2 1 [1]
  /\ [1] <> zero 1
  /\ from_native 8 2 1 (to_underlying decimal) = [1]
  /\ div 8 2 [1] [1] = Some [1]
  /\ modulo 8 2 [1] [1] = Some [0]
  /\ (forall fuel, to_string 8 2 fuel [1] decimal = None).
Proof.
  split; [split; [reflexivity | repeat constructor; lia]|].
  split; [discriminate|].
  split; [reflexivity|].
  split; [vm_compute; reflexivity|].
  split; [vm_compute; reflexivity|].
  intros fuel. unfold to_string.
  change (from_native 8 2 (length [1]) (to_underlying decimal)) with [1].
  rewrite to_string_loop_stuck. reflexivity.
Qed.

(** ** The same three properties where the code keeps them *)

(** The Euclidean identity of C2 holds whenever no digit plus one
    overflows [unsigned], that is for 8- and 16-bit digits and for 32-bit
    digits below the full range: quotient and remainder are those of the
    values, and [(a / b) * b + a % b] is [a]. *)
Theorem euclid_identity_safe (W M : Z) (N : nat) (a b : number) :
  digit_config W M -> unsigned_safe M -> index_safe N -> (0 < N)%nat ->
  well_formed M N a -> well_formed M N b ->
  exists q r,
    div W M a b = Some q /\ modulo W M a b = Some r
    /\ value M q = value M a / value M b
    /\ value M r = value M a mod value M b
    /\ add W M (mul W M q b) r = a.
Proof.
  intros Hcfg Hsafe HN Hpos Wa Wb.
  destruct (modulo_correct W M Hcfg Hsafe N a b HN Hpos Wa Wb)
    as (q & r & H1 & H2 & _ & H3 & _ & H4 & H5).
  exists q, r. auto.
Qed.

(** X22: the power of C4 is right in every even base (and with digits
    that do not overflow [unsigned]): given fuel for every halving of the
    exponent, [pow] returns [a ^ e] modulo the capacity. *)
Theorem pow_even_base (W M : Z) (N fuel : nat) (a e : number) :
  digit_config W M -> unsigned_safe M -> index_safe N -> (0 < N)%nat ->
  base M mod 2 = 0 ->
  well_formed M N a -> well_formed M N e ->
  value M e <= Z.of_nat fuel ->
  exists r,
    pow W M fuel a e = Some r
    /\ value M r = value M a ^ value M e mod base M ^ Z.of_nat N.
Proof.
  intros Hcfg Hsafe HN Hpos Heven Wa We Hfuel.
  pose proof (from_native_wf W M Hcfg N 1 ltac:(lia)) as W1.
  destruct (pow_loop_spec W M Hcfg Hsafe N fuel (from_native W M N 1) a e
              HN Hpos Heven W1 Wa We Hfuel) as (r & Hr & _ & Vr).
  exists r. unfold pow. destruct Wa as [-> _]. split; [exact Hr|].
  rewrite Vr, (value_one W M Hcfg N Hpos), Z.mul_1_l. reflexivity.
Qed.

Lemma pow_even_base_witness :
  exists r,
    pow 8 255 10 [0; 2] [0; 10] = Some r
    /\ value 255 r
       = value 255 [0; 2] ^ value 255 [0; 10] mod base 255 ^ Z.of_nat 2.
Proof.
  apply (pow_even_base 8 255 2 10 [0; 2] [0; 10]).
  - unfold digit_config. lia.
  - unfold unsigned_safe. lia.
  - unfold index_safe. simpl. lia.
  - lia.
  - reflexivity.
  - split; [reflexivity | repeat constructor; lia].
  - split; [reflexivity | repeat constructor; lia].
  - vm_compute. discriminate.
Defined.

Lemma canonical_nonzero (M : Z) (p : bool) (m : number) :
  value M m <> 0 -> canonical M (Integer p m).
Proof. intros Hm Hz. simpl in Hz. contradiction. Qed.

(** X23: the canonical-zero invariant of C9 is kept by the default
    constructor, unary plus, negation, multiplication, division and
    modulus, and by addition when the signs differ or the magnitudes add up
    without wrapping. *)
Theorem canonical_preserved (W M : Z) (N : nat) (x y : integer) :
  digit_config W M -> unsigned_safe M -> index_safe N -> (0 < N)%nat ->
  well_formed M N (magnitude_ x) -> well_formed M N (magnitude_ y) ->
  canonical M x -> canonical M y ->
  canonical M (integer_default N)
  /\ canonical M (integer_plus x)
  /\ canonical M (integer_neg W M x)
  /\ canonical M (integer_mul W M x y)
  /\ (exists d, integer_div W M x y = Some d /\ canonical M d)
  /\ (exists r, integer_mod W M x y = Some r /\ canonical M r)
  /\ (positive_ x <> positive_ y
      \/ value M (magnitude_ x) + value M (magnitude_ y)
         < base M ^ Z.of_nat N ->
      canonical M (integer_add W M x y)).
Proof.
  intros Hcfg Hsafe HN Hpos Wx Wy Cx Cy.
  pose proof HN as HN'. unfold index_safe in HN'.
  destruct x as [px mx], y as [py my]. cbn [positive_ magnitude_] in *.
  pose proof (value_bound W M Hcfg N mx Wx) as Hx.
  pose proof (value_bound W M Hcfg N my Wy) as Hy.
  pose proof (from_native_wf W M Hcfg N 0 ltac:(lia)) as W0.
  pose proof (from_native_value W M Hcfg N 0 ltac:(lia)) as V0.
  rewrite Z.mod_0_l in V0
    by (pose proof (base_pow_pos W M Hcfg (Z.of_nat N)); lia).
  assert (Cd : canonical M (integer_default N)) by (intros _; reflexivity).
  assert (Hzero : forall m, well_formed M N m ->
            eqb m (from_native W M (length m) 0) = (value M m =? 0)).
  { intros m Wm. destruct (Wm) as [-> _].
    rewrite (eqb_value W M Hcfg N) by assumption. rewrite V0. reflexivity. }
  split; [exact Cd|]. split; [intros _; reflexivity|].
  split.
  { unfold integer_neg. cbn [magnitude_ positive_].
    rewrite (Hzero mx Wx). destruct (value M mx =? 0) eqn:E; cbn [negb].
    - exact Cx.
    - apply Z.eqb_neq in E. apply canonical_nonzero. exact E. }
  split.
  { unfold integer_mul. cbn [magnitude_ positive_].
    pose proof (mul_wf W M Hcfg N mx my Wx Wy ltac:(lia)) as Wm.
    rewrite (Hzero _ Wm). destruct Wm as [Lm Dm]. rewrite Lm.
    destruct (value M (mul W M mx my) =? 0) eqn:E; [exact Cd|].
    apply Z.eqb_neq in E. apply canonical_nonzero. exact E. }
  split.
  { unfold integer_div. cbn [magnitude_ positive_].
    destruct (div_correct W M Hcfg Hsafe N mx my HN Hpos Wx Wy)
      as (q & Hq & Wq & _).
    rewrite Hq, (Hzero q Wq). destruct (Wq) as [Lq _]. rewrite Lq.
    destruct (value M q =? 0) eqn:E.
    - eexists. split; [reflexivity | exact Cd].
    - apply Z.eqb_neq in E. eexists. split; [reflexivity|].
      apply canonical_nonzero. exact E. }
  split.
  { unfold integer_mod. cbn [magnitude_ positive_].
    destruct (modulo_correct W M Hcfg Hsafe N mx my HN Hpos Wx Wy)
      as (q & r & _ & Hr & _ & _ & Wr & _).
    rewrite Hr, (Hzero r Wr). eexists. split; [reflexivity|].
    destruct (value M r =? 0) eqn:E; cbn [negb].
    - intros _. reflexivity.
    - apply Z.eqb_neq in E. apply canonical_nonzero. exact E. }
  intros Hadd. unfold integer_add. cbn [magnitude_ positive_].
  destruct (Bool.eqb px py) eqn:Es.
  - apply Bool.eqb_prop in Es. subst py.
    destruct Hadd as [Hne|Hfit]; [contradiction|].
    intros Hz. cbn [magnitude_ positive_] in *.
    rewrite (add_value W M Hcfg N) in Hz by assumption.
    rewrite Z.mod_small in Hz by lia. apply Cx. cbn [magnitude_]. lia.
  - rewrite (ltb_value W M Hcfg N), (gtb_value W M Hcfg N) by assumption.
    destruct (value M mx <? value M my) eqn:E1.
    + apply Z.ltb_lt in E1. apply canonical_nonzero.
      rewrite (sub_value W M Hcfg Hsafe N) by assumption.
      rewrite Z.mod_small; lia.
    + apply Z.ltb_ge in E1. rewrite Z.gtb_ltb.
      destruct (value M my <? value M mx) eqn:E2.
      * apply Z.ltb_lt in E2. apply canonical_nonzero.
        rewrite (sub_value W M Hcfg Hsafe N) by assumption.
        rewrite Z.mod_small; lia.
      * destruct Wx as [-> _]. exact Cd.
Qed.

Lemma canonical_preserved_witness :
  canonical 9 (integer_default 2)
  /\ canonical 9 (integer_plus (Integer false [0; 7]))
  /\ canonical 9 (integer_neg 8 9 (Integer false [0; 7]))
  /\ canonical 9 (integer_mul 8 9 (Integer false [0; 7]) (Integer true [0; 0]))
  /\ (exists d,
        integer_div 8 9 (Integer false [0; 7]) (Integer true [0; 0]) = Some d
        /\ canonical 9 d)
  /\ (exists r,
        integer_mod 8 9 (Integer false [0; 7]) (Integer true [0; 0]) = Some r
        /\ canonical 9 r)
  /\ (positive_ (Integer false [0; 7]) <> positive_ (Integer true [0; 0])
      \/ value 9 (magnitude_ (Integer false [0; 7]))
         + value 9 (magnitude_ (Integer true [0; 0]))
         < base 9 ^ Z.of_nat 2 ->
      canonical 9 (integer_add 8 9 (Integer false [0; 7]) (Integer true [0; 0]))).
Proof.
  apply (canonical_preserved 8 9 2 (Integer false [0; 7]) (Integer true [0; 0])).
  - unfold digit_config. lia.
  - unfold unsigned_safe. lia.
  - unfold index_safe. simpl. lia.
  - lia.
  - split; [reflexivity | repeat constructor; lia].
  - split; [reflexivity | repeat constructor; lia].
  - intros Hz. vm_compute in Hz. discriminate Hz.
  - intros _. reflexivity.
Defined.

(** ** Scenarios of the specification *)

(** A two-digit base-256 number holding 1000: its decimal text, its
    quotient and remainder by seven. *)
Example scenario_one_thousand :
  to_string 8 255 4 (from_native 8 255 2 1000) decimal = Some "1000"%string
  /\ div 8 255 (from_native 8 255 2 1000) (from_native 8 255 2 7)
     = Some (from_native 8 255 2 142)
  /\ modulo 8 255 (from_native 8 255 2 1000) (from_native 8 255 2 7)
     = Some (from_native 8 255 2 6)
  /\ to_string 8 255 4 (zero 2) decimal = Some EmptyString.
Proof. vm_compute. repeat split; reflexivity. Qed.


(** With full-range 32-bit digits a divisor whose leading digit is
    [2 ^ 32 - 1] makes [operator/] divide by [digit + 1U], which is zero in
    [unsigned]. *)
Example division_faults_on_full_leading_digit :
  div 32 (2 ^ 32 - 1) [1; 0; 0] [0; 0; 4294967295] = None
  /\ u32 (digit [0; 0; 4294967295]
            (most_significant_digit [0; 0; 4294967295] - 1) + 1) = 0.
Proof. vm_compute. split; reflexivity. Qed.

(** * Further properties of the code *)

(** ** Construction from and conversion to native integers *)

(** X1: [number(T value)] and [operator=(T value)] establish the class
    invariant (the digit count, every digit at most [NDigitMax]) and
    store the native value modulo the capacity [base ^ NDigits]; a value
    below the capacity is stored as it is. *)
Theorem from_native_spec (W M : Z) (N : nat) (v : Z) :
  digit_config W M -> 0 <= v ->
  well_formed M N (from_native W M N v)
  /\ value M (from_native W M N v) = v mod base M ^ Z.of_nat N
  /\ (v < base M ^ Z.of_nat N -> value M (from_native W M N v) = v).
Proof.
  intros Hcfg Hv.
  pose proof (from_native_value W M Hcfg N v Hv) as Hval.
  split; [apply (from_native_wf W M Hcfg); exact Hv|].
  split; [exact Hval|].
  intros Hfit. rewrite Hval. apply Z.mod_small. lia.
Qed.

Lemma from_native_spec_witness :
  well_formed 9 3 (from_native 8 9 3 1234)
  /\ value 9 (from_native 8 9 3 1234) = 1234 mod base 9 ^ Z.of_nat 3
  /\ (1234 < base 9 ^ Z.of_nat 3 -> value 9 (from_native 8 9 3 1234) = 1234).
Proof.
  apply (from_native_spec 8 9 3 1234).
  - unfold digit_config. lia.
  - lia.
Defined.

(** X2: a native unsigned value of [w] bits that is below the capacity
    comes back unchanged when the number built from it is converted to
    the native type again. *)
Theorem native_round_trip (W M : Z) (N : nat) (w v : Z) :
  digit_config W M -> 0 < w -> 0 <= v < 2 ^ w ->
  v < base M ^ Z.of_nat N ->
  to_native W M w (from_native W M N v) = v.
Proof.
  intros Hcfg Hw Hv Hfit.
  assert (Hval : value M (from_native W M N v) = v).
  { rewrite (from_native_value W M Hcfg) by lia. apply Z.mod_small. lia. }
  rewrite (to_native_fits W M Hcfg N w); rewrite ?Hval; try lia.
  apply (from_native_wf W M Hcfg). lia.
Qed.

Lemma native_round_trip_witness :
  to_native 16 9999 32 (from_native 16 9999 3 123456789) = 123456789.
Proof.
  apply (native_round_trip 16 9999 3 32 123456789).
  - unfold digit_config. lia.
  - lia.
  - lia.
  - unfold base. simpl. lia.
Defined.

(** ** Digits *)

(** X3: [digit(power)] is the digit of the stored value at the place
    [base ^ power]; it is a digit (at most [NDigitMax]), and zero at every
    place from [NDigits] on, where no fault is raised. *)
Theorem digit_reads_value (W M : Z) (N : nat) (a : number) (p : Z) :
  digit_config W M -> well_formed M N a -> Z.of_nat N < 2 ^ 32 ->
  0 <= p < 2 ^ 32 ->
  digit a p = (value M a / base M ^ p) mod base M
  /\ 0 <= digit a p <= M
  /\ (Z.of_nat N <= p -> digit a p = 0).
Proof.
  intros Hcfg Wa HN Hp.
  split; [apply (digit_value W M Hcfg N); assumption|].
  split; [apply (digit_range W M Hcfg N); assumption|].
  intros Hout. apply digit_out. destruct Wa as [La _].
  unfold num_digits. rewrite La. lia.
Qed.

Lemma digit_reads_value_witness :
  digit [3; 232] 1 = (value 255 [3; 232] / base 255 ^ 1) mod base 255
  /\ 0 <= digit [3; 232] 1 <= 255
  /\ (Z.of_nat 2 <= 1 -> digit [3; 232] 1 = 0).
Proof.
  apply (digit_reads_value 8 255 2 [3; 232] 1).
  - unfold digit_config. lia.
  - split; [reflexivity | repeat constructor; lia].
  - simpl. lia.
  - lia.
Defined.

(** X4: [set_digit(power, value)] keeps the class invariant; at a place
    from [NDigits] on it leaves the number as it is; at a place below
    [NDigits] it stores [value % base] there, so that this digit reads
    back and the stored value changes by the difference of the two digits
    at that place; no other digit changes. *)
Theorem set_digit_spec (W M : Z) (N : nat) (a : number) (p v : Z) :
  digit_config W M -> well_formed M N a -> Z.of_nat N < 2 ^ 32 ->
  0 <= p < 2 ^ 32 -> 0 <= v < 2 ^ W ->
  well_formed M N (set_digit W M a p v)
  /\ (Z.of_nat N <= p -> set_digit W M a p v = a)
  /\ (p < Z.of_nat N ->
      digit (set_digit W M a p v) p = v mod base M
      /\ value M (set_digit W M a p v)
         = value M a + (v mod base M - digit a p) * base M ^ p)
  /\ (forall q, 0 <= q < 2 ^ 32 -> q <> p ->
      digit (set_digit W M a p v) q = digit a q).
Proof.
  intros Hcfg Wa HN Hp Hv.
  pose proof (stored_small W M Hcfg v Hv) as Hst.
  destruct (Wa) as [La _].
  assert (Hnum : num_digits a = Z.of_nat N) by (unfold num_digits; lia).
  split; [apply (set_digit_wf W M Hcfg); exact Wa|].
  split.
  { intros Hout. apply set_digit_out. lia. }
  split.
  { intros Hin. split.
    - rewrite digit_set_digit_same by lia. exact Hst.
    - rewrite (set_digit_value W M N) by (assumption || lia).
      rewrite Hst. reflexivity. }
  intros q Hq Hne. apply digit_set_digit_other; lia.
Qed.

Lemma set_digit_spec_witness :
  well_formed 9 3 (set_digit 8 9 [1; 2; 3] 1 27)
  /\ (Z.of_nat 3 <= 1 -> set_digit 8 9 [1; 2; 3] 1 27 = [1; 2; 3])
  /\ (1 < Z.of_nat 3 ->
      digit (set_digit 8 9 [1; 2; 3] 1 27) 1 = 27 mod base 9
      /\ value 9 (set_digit 8 9 [1; 2; 3] 1 27)
         = value 9 [1; 2; 3] + (27 mod base 9 - digit [1; 2; 3] 1) * base 9 ^ 1)
  /\ (forall q, 0 <= q < 2 ^ 32 -> q <> 1 ->
      digit (set_digit 8 9 [1; 2; 3] 1 27) q = digit [1; 2; 3] q).
Proof.
  apply (set_digit_spec 8 9 3 [1; 2; 3] 1 27).
  - unfold digit_config. lia.
  - split; [reflexivity | repeat constructor; lia].
  - simpl. lia.
  - lia.
  - lia.
Defined.

(** X5: [most_significant_digit()] is the number of digits of the stored
    value: it is zero exactly for the value zero; otherwise the digit just
    below it is the highest digit that is not zero, and the value lies
    between [base ^ (msd - 1)] and [base ^ msd]. *)
Theorem most_significant_digit_spec (W M : Z) (N : nat) (a : number) :
  digit_config W M -> well_formed M N a -> Z.of_nat N < 2 ^ 32 ->
  0 <= most_significant_digit a <= Z.of_nat N
  /\ (most_significant_digit a = 0 <-> value M a = 0)
  /\ (0 < most_significant_digit a ->
      base M ^ (most_significant_digit a - 1) <= value M a
        < base M ^ most_significant_digit a
      /\ digit a (most_significant_digit a - 1) <> 0)
  /\ (forall p, most_significant_digit a <= p < 2 ^ 32 -> digit a p = 0).
Proof.
  intros Hcfg Wa HN.
  destruct (msd_spec W M Hcfg N a Wa HN) as (Hr & Hlt & Hge).
  pose proof (value_bound W M Hcfg N a Wa) as Hb.
  pose proof (base_ge_2 W M Hcfg) as HB.
  set (m := most_significant_digit a) in *.
  split; [exact Hr|]. split.
  { split.
    - intros Hz. rewrite Hz in Hlt. simpl in Hlt. lia.
    - intros Hz. destruct (Z.eq_dec m 0) as [E|E]; [exact E|].
      pose proof (Hge ltac:(lia)) as Hlow.
      pose proof (base_pow_pos W M Hcfg (m - 1) ltac:(lia)). lia. }
  split.
  { intros Hpos. pose proof (Hge Hpos) as Hlow.
    split; [lia|].
    rewrite (digit_value W M Hcfg N) by (assumption || lia).
    pose proof (base_pow_pos W M Hcfg (m - 1) ltac:(lia)) as Hp.
    assert (Hsplit : base M ^ m = base M * base M ^ (m - 1)).
    { rewrite <- Z.pow_succ_r by lia. f_equal. lia. }
    assert (H1 : 1 <= value M a / base M ^ (m - 1))
      by (apply Z.div_le_lower_bound; lia).
    assert (H2 : value M a / base M ^ (m - 1) < base M)
      by (apply Z.div_lt_upper_bound; lia).
    rewrite Z.mod_small; lia. }
  intros p Hp.
  rewrite (digit_value W M Hcfg N) by (assumption || lia).
  assert (Hle : base M ^ m <= base M ^ p)
    by (apply Z.pow_le_mono_r; lia).
  rewrite Z.div_small by lia. apply Z.mod_0_l. lia.
Qed.

Lemma most_significant_digit_spec_witness :
  0 <= most_significant_digit [0; 3; 0] <= Z.of_nat 3
  /\ (most_significant_digit [0; 3; 0] = 0 <-> value 9 [0; 3; 0] = 0)
  /\ (0 < most_significant_digit [0; 3; 0] ->
      base 9 ^ (most_significant_digit [0; 3; 0] - 1) <= value 9 [0; 3; 0]
        < base 9 ^ most_significant_digit [0; 3; 0]
      /\ digit [0; 3; 0] (most_significant_digit [0; 3; 0] - 1) <> 0)
  /\ (forall p, most_significant_digit [0; 3; 0] <= p < 2 ^ 32 ->
      digit [0; 3; 0] p = 0).
Proof.
  apply (most_significant_digit_spec 8 9 3 [0; 3; 0]).
  - unfold digit_config. lia.
  - split; [reflexivity | repeat constructor; lia].
  - simpl. lia.
Defined.

(** ** Comparison and widening *)

(** X6: the defaulted [operator<=>] of [number] is the order of the
    stored values: two numbers of the same type compare as their values
    do, they compare equal only when they are the same digit array, and
    swapping the operands reverses the result. *)
Theorem compare_numeric_order (W M : Z) (N : nat) (a b : number) :
  digit_config W M -> well_formed M N a -> well_formed M N b ->
  compare a b = (value M a ?= value M b)
  /\ (compare a b = Eq <-> a = b)
  /\ compare b a = CompOpp (compare a b).
Proof.
  intros Hcfg Wa Wb.
  pose proof (compare_value W M Hcfg N a b Wa Wb) as Hab.
  pose proof (compare_value W M Hcfg N b a Wb Wa) as Hba.
  split; [exact Hab|]. split.
  - split.
    + apply compare_eq. destruct Wa as [-> _], Wb as [-> _]. reflexivity.
    + intros ->. apply compare_refl.
  - rewrite Hab, Hba. apply Z.compare_antisym.
Qed.

Lemma compare_numeric_order_witness :
  compare [1; 0] [0; 255] = (value 255 [1; 0] ?= value 255 [0; 255])
  /\ (compare [1; 0] [0; 255] = Eq <-> [1; 0] = [0; 255])
  /\ compare [0; 255] [1; 0] = CompOpp (compare [1; 0] [0; 255]).
Proof.
  apply (compare_numeric_order 8 255 2 [1; 0] [0; 255]).
  - unfold digit_config. lia.
  - split; [reflexivity | repeat constructor; lia].
  - split; [reflexivity | repeat constructor; lia].
Defined.

(** X7: the widening constructor and the widening assignment, from a
    number of fewer digits in the same base, give a number of the wider
    type with the same stored value. *)
Theorem widen_keeps_value (W M : Z) (N N1 : nat) (a : number) :
  digit_config W M -> well_formed M N a -> (N <= N1)%nat ->
  Z.of_nat N1 < 2 ^ 32 ->
  well_formed M N1 (widen W M N1 a)
  /\ value M (widen W M N1 a) = value M a
  /\ (forall p, 0 <= p < 2 ^ 32 -> digit (widen W M N1 a) p = digit a p).
Proof.
  intros Hcfg Wa Hle HN1.
  destruct (widen_spec W M Hcfg N N1 a Wa Hle HN1) as [Ww Vw].
  split; [exact Ww|]. split; [exact Vw|].
  intros p Hp.
  rewrite (digit_value W M Hcfg N1) by (assumption || lia).
  rewrite (digit_value W M Hcfg N) by (assumption || lia).
  rewrite Vw. reflexivity.
Qed.

Lemma widen_keeps_value_witness :
  well_formed 255 3 (widen 8 255 3 [3; 232])
  /\ value 255 (widen 8 255 3 [3; 232]) = value 255 [3; 232]
  /\ (forall p, 0 <= p < 2 ^ 32 ->
      digit (widen 8 255 3 [3; 232]) p = digit [3; 232] p).
Proof.
  apply (widen_keeps_value 8 255 2 3 [3; 232]).
  - unfold digit_config. lia.
  - split; [reflexivity | repeat constructor; lia].
  - lia.
  - simpl. lia.
Defined.

(** ** Arithmetic on stored values *)

(** X8: for any two numbers of one type, [operator+] and [operator*]
    return a number of that type whose stored value is the sum, or the
    product, of the stored values modulo the capacity; when the exact
    result is below the capacity it is stored as it is. *)
Theorem add_mul_values (W M : Z) (N : nat) (a b : number) :
  digit_config W M -> index_safe N ->
  well_formed M N a -> well_formed M N b ->
  well_formed M N (add W M a b)
  /\ value M (add W M a b)
     = (value M a + value M b) mod base M ^ Z.of_nat N
  /\ well_formed M N (mul W M a b)
  /\ value M (mul W M a b)
     = (value M a * value M b) mod base M ^ Z.of_nat N
  /\ (value M a + value M b < base M ^ Z.of_nat N ->
      value M (add W M a b) = value M a + value M b)
  /\ (value M a * value M b < base M ^ Z.of_nat N ->
      value M (mul W M a b) = value M a * value M b).
Proof.
  intros Hcfg HN Wa Wb. unfold index_safe in HN.
  pose proof (value_bound W M Hcfg N a Wa) as Ha.
  pose proof (value_bound W M Hcfg N b Wb) as Hb.
  pose proof (add_value W M Hcfg N a b Wa Wb) as Vadd.
  pose proof (mul_value W M Hcfg N a b Wa Wb ltac:(lia)) as Vmul.
  split; [apply (add_wf W M Hcfg); assumption|].
  split; [exact Vadd|].
  split; [apply (mul_wf W M Hcfg); assumption || lia|].
  split; [exact Vmul|].
  split; intros Hfit.
  - rewrite Vadd. apply Z.mod_small. lia.
  - rewrite Vmul. apply Z.mod_small. nia.
Qed.

Lemma add_mul_values_witness :
  well_formed 255 2 (add 8 255 [255; 255] [0; 2])
  /\ value 255 (add 8 255 [255; 255] [0; 2])
     = (value 255 [255; 255] + value 255 [0; 2]) mod base 255 ^ Z.of_nat 2
  /\ well_formed 255 2 (mul 8 255 [255; 255] [0; 2])
  /\ value 255 (mul 8 255 [255; 255] [0; 2])
     = (value 255 [255; 255] * value 255 [0; 2]) mod base 255 ^ Z.of_nat 2
  /\ (value 255 [255; 255] + value 255 [0; 2] < base 255 ^ Z.of_nat 2 ->
      value 255 (add 8 255 [255; 255] [0; 2])
      = value 255 [255; 255] + value 255 [0; 2])
  /\ (value 255 [255; 255] * value 255 [0; 2] < base 255 ^ Z.of_nat 2 ->
      value 255 (mul 8 255 [255; 255] [0; 2])
      = value 255 [255; 255] * value 255 [0; 2]).
Proof.
  apply (add_mul_values 8 255 2 [255; 255] [0; 2]).
  - unfold digit_config. lia.
  - unfold index_safe. simpl. lia.
  - split; [reflexivity | repeat constructor; lia].
  - split; [reflexivity | repeat constructor; lia].
Defined.

(** X9: when no digit plus one overflows [unsigned], [operator-] returns
    the difference of the stored values modulo the capacity (below zero it
    wraps around), and it undoes [operator+]: [(a + b) - b] and
    [(a - b) + b] are [a], digit for digit. *)
Theorem sub_spec (W M : Z) (N : nat) (a b : number) :
  digit_config W M -> unsigned_safe M ->
  well_formed M N a -> well_formed M N b ->
  well_formed M N (sub W M a b)
  /\ value M (sub W M a b)
     = (value M a - value M b) mod base M ^ Z.of_nat N
  /\ (value M b <= value M a ->
      value M (sub W M a b) = value M a - value M b)
  /\ sub W M (add W M a b) b = a
  /\ add W M (sub W M a b) b = a.
Proof.
  intros Hcfg Hsafe Wa Wb.
  pose proof (value_bound W M Hcfg N a Wa) as Ha.
  pose proof (value_bound W M Hcfg N b Wb) as Hb.
  pose proof (sub_wf W M Hcfg Hsafe N a b Wa Wb) as Wsub.
  pose proof (add_wf W M Hcfg N a b Wa Wb) as Wadd.
  pose proof (sub_value W M Hcfg Hsafe N a b Wa Wb) as Vsub.
  pose proof (add_value W M Hcfg N a b Wa Wb) as Vadd.
  split; [exact Wsub|]. split; [exact Vsub|].
  split.
  { intros Hle. rewrite Vsub. apply Z.mod_small. lia. }
  split.
  - apply (value_inj W M Hcfg N); [|exact Wa|].
    + apply (sub_wf W M Hcfg Hsafe); assumption.
    + rewrite (sub_value W M Hcfg Hsafe N) by assumption.
      rewrite Vadd, Zminus_mod_idemp_l.
      replace (value M a + value M b - value M b) with (value M a) by lia.
      apply Z.mod_small. exact Ha.
  - apply (value_inj W M Hcfg N); [|exact Wa|].
    + apply (add_wf W M Hcfg); assumption.
    + rewrite (add_value W M Hcfg N) by assumption.
      rewrite Vsub, Zplus_mod_idemp_l.
      replace (value M a - value M b + value M b) with (value M a) by lia.
      apply Z.mod_small. exact Ha.
Qed.

Lemma sub_spec_witness :
  well_formed 255 2 (sub 8 255 [0; 2] [0; 3])
  /\ value 255 (sub 8 255 [0; 2] [0; 3])
     = (value 255 [0; 2] - value 255 [0; 3]) mod base 255 ^ Z.of_nat 2
  /\ (value 255 [0; 3] <= value 255 [0; 2] ->
      value 255 (sub 8 255 [0; 2] [0; 3])
      = value 255 [0; 2] - value 255 [0; 3])
  /\ sub 8 255 (add 8 255 [0; 2] [0; 3]) [0; 3] = [0; 2]
  /\ add 8 255 (sub 8 255 [0; 2] [0; 3]) [0; 3] = [0; 2].
Proof.
  apply (sub_spec 8 255 2 [0; 2] [0; 3]).
  - unfold digit_config. lia.
  - unfold unsigned_safe. lia.
  - split; [reflexivity | repeat constructor; lia].
  - split; [reflexivity | repeat constructor; lia].
Defined.

(** X10: on the numbers of one type [operator+] and [operator*] are
    commutative and associative, [operator*] distributes over
    [operator+], the default-constructed zero is neutral for [operator+]
    and [number(1U)] is neutral for [operator*]: the results are the same
    digit arrays, in every base and also when they wrap around. *)
Theorem ring_laws (W M : Z) (N : nat) (a b c : number) :
  digit_config W M -> index_safe N -> (0 < N)%nat ->
  well_formed M N a -> well_formed M N b -> well_formed M N c ->
  add W M a b = add W M b a
  /\ add W M (add W M a b) c = add W M a (add W M b c)
  /\ mul W M a b = mul W M b a
  /\ mul W M (mul W M a b) c = mul W M a (mul W M b c)
  /\ mul W M a (add W M b c) = add W M (mul W M a b) (mul W M a c)
  /\ add W M a (zero N) = a
  /\ mul W M a (from_native W M N 1) = a.
Proof.
  intros Hcfg HN Hpos Wa Wb Wc.
  assert (H2N : 2 * Z.of_nat N < 2 ^ 32) by (unfold index_safe in HN; lia).
  pose proof (value_bound W M Hcfg N a Wa) as Ha.
  assert (Wadd : forall x y, well_formed M N x -> well_formed M N y ->
                 well_formed M N (add W M x y))
    by (intros; apply (add_wf W M Hcfg); assumption).
  assert (Wmul : forall x y, well_formed M N x -> well_formed M N y ->
                 well_formed M N (mul W M x y))
    by (intros; apply (mul_wf W M Hcfg); assumption).
  assert (Vadd : forall x y, well_formed M N x -> well_formed M N y ->
                 value M (add W M x y)
                 = (value M x + value M y) mod base M ^ Z.of_nat N)
    by (intros; apply (add_value W M Hcfg); assumption).
  assert (Vmul : forall x y, well_formed M N x -> well_formed M N y ->
                 value M (mul W M x y)
                 = (value M x * value M y) mod base M ^ Z.of_nat N)
    by (intros; apply (mul_value W M Hcfg); assumption).
  pose proof (zero_wf W M Hcfg N) as W0.
  pose proof (from_native_wf W M Hcfg N 1 ltac:(lia)) as W1.
  repeat apply conj; apply (value_inj W M Hcfg N); auto;
    repeat first [rewrite Vadd by auto | rewrite Vmul by auto].
  - f_equal. lia.
  - rewrite Zplus_mod_idemp_l, Zplus_mod_idemp_r. f_equal. lia.
  - f_equal. lia.
  - rewrite Zmult_mod_idemp_l, Zmult_mod_idemp_r. f_equal. lia.
  - rewrite Zmult_mod_idemp_r, <- Zplus_mod. f_equal. lia.
  - rewrite (value_zero M N), Z.add_0_r. apply Z.mod_small. exact Ha.
  - rewrite (value_one W M Hcfg N Hpos), Z.mul_1_r.
    apply Z.mod_small. exact Ha.
Qed.

Lemma ring_laws_witness :
  add 8 9 [9; 9] [0; 7] = add 8 9 [0; 7] [9; 9]
  /\ add 8 9 (add 8 9 [9; 9] [0; 7]) [4; 2] = add 8 9 [9; 9] (add 8 9 [0; 7] [4; 2])
  /\ mul 8 9 [9; 9] [0; 7] = mul 8 9 [0; 7] [9; 9]
  /\ mul 8 9 (mul 8 9 [9; 9] [0; 7]) [4; 2] = mul 8 9 [9; 9] (mul 8 9 [0; 7] [4; 2])
  /\ mul 8 9 [9; 9] (add 8 9 [0; 7] [4; 2])
     = add 8 9 (mul 8 9 [9; 9] [0; 7]) (mul 8 9 [9; 9] [4; 2])
  /\ add 8 9 [9; 9] (zero 2) = [9; 9]
  /\ mul 8 9 [9; 9] (from_native 8 9 2 1) = [9; 9].
Proof.
  apply (ring_laws 8 9 2 [9; 9] [0; 7] [4; 2]).
  - unfold digit_config. lia.
  - unfold index_safe. simpl. lia.
  - lia.
  - split; [reflexivity | repeat constructor; lia].
  - split; [reflexivity | repeat constructor; lia].
  - split; [reflexivity | repeat constructor; lia].
Defined.

(** X11: prefix [operator++] stores the value plus one modulo the
    capacity, so the greatest number goes to zero; postfix [operator++]
    returns the number as it was and leaves the same new number behind. *)
Theorem increment_spec (W M : Z) (N : nat) (a : number) :
  digit_config W M -> well_formed M N a ->
  well_formed M N (increment W M a)
  /\ value M (increment W M a) = (value M a + 1) mod base M ^ Z.of_nat N
  /\ (value M a + 1 = base M ^ Z.of_nat N -> increment W M a = zero N)
  /\ fst (post_increment W M a) = a
  /\ value M (snd (post_increment W M a))
     = (value M a + 1) mod base M ^ Z.of_nat N.
Proof.
  intros Hcfg Wa.
  pose proof (from_native_wf W M Hcfg N 1 ltac:(lia)) as W1.
  pose proof (base_pow_pos W M Hcfg (Z.of_nat N) ltac:(lia)) as HC.
  assert (Winc : well_formed M N (increment W M a)).
  { unfold increment. destruct (Wa) as [-> _].
    apply (add_wf W M Hcfg); assumption. }
  assert (Vinc : value M (increment W M a)
                 = (value M a + 1) mod base M ^ Z.of_nat N).
  { unfold increment. destruct (Wa) as [-> _].
    rewrite (add_value W M Hcfg N) by assumption.
    rewrite (from_native_value W M Hcfg) by lia.
    rewrite Zplus_mod_idemp_r. reflexivity. }
  split; [exact Winc|]. split; [exact Vinc|].
  split; [|split; [reflexivity | exact Vinc]].
  intros Htop. apply (value_inj W M Hcfg N);
    [exact Winc | apply (zero_wf W M Hcfg) |].
  rewrite Vinc, Htop, Z.mod_same, (value_zero M N) by lia. reflexivity.
Qed.

Lemma increment_spec_witness :
  well_formed 9 2 (increment 8 9 [9; 9])
  /\ value 9 (increment 8 9 [9; 9]) = (value 9 [9; 9] + 1) mod base 9 ^ Z.of_nat 2
  /\ (value 9 [9; 9] + 1 = base 9 ^ Z.of_nat 2 -> increment 8 9 [9; 9] = zero 2)
  /\ fst (post_increment 8 9 [9; 9]) = [9; 9]
  /\ value 9 (snd (post_increment 8 9 [9; 9]))
     = (value 9 [9; 9] + 1) mod base 9 ^ Z.of_nat 2.
Proof.
  apply (increment_spec 8 9 2 [9; 9]).
  - unfold digit_config. lia.
  - split; [reflexivity | repeat constructor; lia].
Defined.

(** ** Division *)

(** X12: when no digit plus one overflows [unsigned], [operator/] and
    [operator%] end without a fault for every pair of numbers of one
    type and return the quotient and the remainder of the stored values
    in the integers: the dividend is the quotient times the divisor plus
    the remainder, with nothing wrapping, and the remainder is below a
    divisor that is not zero. *)
Theorem div_mod_floor (W M : Z) (N : nat) (a b : number) :
  digit_config W M -> unsigned_safe M -> index_safe N -> (0 < N)%nat ->
  well_formed M N a -> well_formed M N b ->
  exists q r,
    div W M a b = Some q /\ modulo W M a b = Some r
    /\ well_formed M N q /\ well_formed M N r
    /\ value M q = value M a / value M b
    /\ value M r = value M a mod value M b
    /\ value M a = value M q * value M b + value M r
    /\ (value M b <> 0 -> 0 <= value M r < value M b).
Proof.
  intros Hcfg Hsafe HN Hpos Wa Wb.
  pose proof (value_bound W M Hcfg N b Wb) as Hb.
  destruct (modulo_correct W M Hcfg Hsafe N a b HN Hpos Wa Wb)
    as (q & r & Hq & Hr & Wq & Vq & Wr & Vr & _).
  exists q, r. repeat (split; [assumption|]).
  split.
  - rewrite Vq, Vr, Z.mul_comm. apply Z_div_mod_eq_full.
  - intros Hnz. rewrite Vr. apply Z.mod_pos_bound. lia.
Qed.

Lemma div_mod_floor_witness :
  exists q r,
    div 8 255 [3; 232] [0; 7] = Some q /\ modulo 8 255 [3; 232] [0; 7] = Some r
    /\ well_formed 255 2 q /\ well_formed 255 2 r
    /\ value 255 q = value 255 [3; 232] / value 255 [0; 7]
    /\ value 255 r = value 255 [3; 232] mod value 255 [0; 7]
    /\ value 255 [3; 232] = value 255 q * value 255 [0; 7] + value 255 r
    /\ (value 255 [0; 7] <> 0 -> 0 <= value 255 r < value 255 [0; 7]).
Proof.
  apply (div_mod_floor 8 255 2 [3; 232] [0; 7]).
  - unfold digit_config. lia.
  - unfold unsigned_safe. lia.
  - unfold index_safe. simpl. lia.
  - lia.
  - split; [reflexivity | repeat constructor; lia].
  - split; [reflexivity | repeat constructor; lia].
Defined.

(** X13: the special cases that [operator/] tests first are answered in
    every configuration, full-range 32-bit digits included, without
    entering the long division: a zero dividend, a zero divisor or a
    divisor above the dividend give zero, a divisor equal to the dividend
    gives one, and the divisor one gives the dividend. *)
Theorem div_special_cases (W M : Z) (N : nat) (a b : number) :
  digit_config W M -> (0 < N)%nat ->
  well_formed M N a -> well_formed M N b ->
  (value M a = 0 \/ value M b = 0 \/ value M a < value M b ->
   div W M a b = Some (zero N))
  /\ (value M a <> 0 -> value M b = value M a ->
      div W M a b = Some (from_native W M N 1))
  /\ (1 < value M a -> value M b = 1 -> div W M a b = Some a).
Proof.
  intros Hcfg Hpos Wa Wb.
  pose proof (from_native_wf W M Hcfg N 1 ltac:(lia)) as W1.
  pose proof (zero_wf W M Hcfg N) as W0.
  pose proof (value_one W M Hcfg N Hpos) as V1.
  pose proof (value_zero M N) as V0.
  pose proof (value_bound W M Hcfg N a Wa) as Ha.
  pose proof (value_bound W M Hcfg N b Wb) as Hb.
  unfold div. destruct (Wa) as [-> _].
  rewrite (from_native_zero W M N).
  rewrite !(eqb_value W M Hcfg N), (gtb_value W M Hcfg N) by assumption.
  rewrite V0, V1, Z.gtb_ltb.
  split; [|split].
  - intros Hcase.
    destruct (value M a =? 0) eqn:E1; [reflexivity|].
    destruct (value M b =? 0) eqn:E2; [reflexivity|].
    destruct (value M a <? value M b) eqn:E3; [reflexivity|].
    apply Z.eqb_neq in E1, E2. apply Z.ltb_ge in E3. lia.
  - intros Hnz Heq. rewrite Heq.
    rewrite (proj2 (Z.eqb_neq _ _) Hnz), Z.ltb_irrefl, Z.eqb_refl.
    reflexivity.
  - intros Hbig Hone. rewrite Hone.
    replace (value M a =? 0) with false by (symmetry; apply Z.eqb_neq; lia).
    replace (value M a <? 1) with false by (symmetry; apply Z.ltb_ge; lia).
    replace (1 =? value M a) with false by (symmetry; apply Z.eqb_neq; lia).
    reflexivity.
Qed.

Lemma div_special_cases_witness :
  (value (2 ^ 32 - 1) [0; 4294967295] = 0
   \/ value (2 ^ 32 - 1) [4294967295; 0] = 0
   \/ value (2 ^ 32 - 1) [0; 4294967295] < value (2 ^ 32 - 1) [4294967295; 0] ->
   div 32 (2 ^ 32 - 1) [0; 4294967295] [4294967295; 0] = Some (zero 2))
  /\ (value (2 ^ 32 - 1) [0; 4294967295] <> 0 ->
      value (2 ^ 32 - 1) [4294967295; 0] = value (2 ^ 32 - 1) [0; 4294967295] ->
      div 32 (2 ^ 32 - 1) [0; 4294967295] [4294967295; 0]
      = Some (from_native 32 (2 ^ 32 - 1) 2 1))
  /\ (1 < value (2 ^ 32 - 1) [0; 4294967295] ->
      value (2 ^ 32 - 1) [4294967295; 0] = 1 ->
      div 32 (2 ^ 32 - 1) [0; 4294967295] [4294967295; 0]
      = Some [0; 4294967295]).
Proof.
  apply (div_special_cases 32 (2 ^ 32 - 1) 2 [0; 4294967295] [4294967295; 0]).
  - unfold digit_config. lia.
  - lia.
  - split; [reflexivity | repeat constructor; lia].
  - split; [reflexivity | repeat constructor; lia].
Defined.

(** X14: with full-range 32-bit digits ([NDigitMax + 1] is [2 ^ 32]) the
    long division faults whenever it is reached with a divisor whose
    leading digit is [NDigitMax]: the normalisation divides [base] by
    that digit plus [1U], which is zero in [unsigned]. *)
Theorem div_by_wrapped_digit_faults (W M : Z) (N : nat) (a b : number) :
  digit_config W M -> M + 1 = 2 ^ 32 ->
  well_formed M N a -> well_formed M N b ->
  1 < value M b < value M a ->
  digit b (most_significant_digit b - 1) = M ->
  div W M a b = None.
Proof.
  intros Hcfg Hfull Wa Wb Hgen Hlead.
  pose proof (value_bound W M Hcfg N a Wa) as Ha.
  assert (Hpos : (0 < N)%nat).
  { destruct N; [|lia]. simpl in Ha. lia. }
  pose proof (from_native_wf W M Hcfg N 1 ltac:(lia)) as W1.
  pose proof (zero_wf W M Hcfg N) as W0.
  pose proof (value_one W M Hcfg N Hpos) as V1.
  pose proof (value_zero M N) as V0.
  unfold div. destruct (Wa) as [-> _].
  rewrite (from_native_zero W M N).
  rewrite !(eqb_value W M Hcfg N), (gtb_value W M Hcfg N) by assumption.
  rewrite V0, V1, Z.gtb_ltb.
  replace (value M a =? 0) with false by (symmetry; apply Z.eqb_neq; lia).
  replace (value M b =? 0) with false by (symmetry; apply Z.eqb_neq; lia).
  replace (value M a <? value M b) with false
    by (symmetry; apply Z.ltb_ge; lia).
  replace (value M b =? value M a) with false
    by (symmetry; apply Z.eqb_neq; lia).
  replace (value M b =? 1) with false by (symmetry; apply Z.eqb_neq; lia).
  cbn [orb]. rewrite Hlead, Hfull. reflexivity.
Qed.

Lemma div_by_wrapped_digit_faults_witness :
  div 32 (2 ^ 32 - 1) [0; 1; 0; 0] [0; 0; 4294967295; 5] = None.
Proof.
  apply (div_by_wrapped_digit_faults 32 (2 ^ 32 - 1) 4
           [0; 1; 0; 0] [0; 0; 4294967295; 5]).
  - unfold digit_config. lia.
  - lia.
  - split; [reflexivity | repeat constructor; lia].
  - split; [reflexivity | repeat constructor; lia].
  - vm_compute. split; reflexivity.
  - reflexivity.
Defined.

(** ** Text *)

Lemma horner_mod (C b : Z) (ds : list Z) :
  C <> 0 -> horner (b mod C) ds mod C = horner b ds mod C.
Proof.
  intros HC. induction ds as [|d ds IH]; [reflexivity|].
  cbn [horner]. apply eqm_add; [exact HC | reflexivity|].
  apply eqm_mul; [exact HC | apply Z.mod_mod; exact HC | exact IH].
Qed.

Lemma Forall2_rev_rev {A B : Type} (R : A -> B -> Prop) (l : list A)
    (k : list B) :
  Forall2 R l k -> Forall2 R (rev l) (rev k).
Proof.
  induction 1 as [|x y l k Hxy Hlk IH]; [constructor|].
  cbn [rev]. apply Forall2_app; [exact IH | repeat constructor; exact Hxy].
Qed.

(** The loop of [from_string] on characters that all decode. *)
Lemma from_string_loop_decoded (W M : Z) (N : nat) (sb : string_base)
    (cs : list ascii) (ds : list Z) (result power bn : number) :
  digit_config W M -> index_safe N ->
  well_formed M N result -> well_formed M N power -> well_formed M N bn ->
  Forall2 (fun c d => decode_char sb c = Some d) cs ds ->
  exists result',
    from_string_loop W M N sb cs result power bn = Some result'
    /\ well_formed M N result'
    /\ value M result'
       = (value M result + value M power * horner (value M bn) ds)
         mod base M ^ Z.of_nat N.
Proof.
  intros Hcfg HN Wr Wp Wbn Hds. pose proof HN as HN'.
  unfold index_safe in HN'.
  pose proof (base_pow_pos W M Hcfg (Z.of_nat N) ltac:(lia)) as HC.
  revert result power Wr Wp.
  induction Hds as [|c d cs ds Hd Hds IH]; intros result power Wr Wp.
  - exists result. split; [reflexivity|]. split; [exact Wr|].
    cbn [horner]. rewrite Z.mul_0_r, Z.add_0_r.
    symmetry. apply Z.mod_small. apply (value_bound W M Hcfg N). exact Wr.
  - cbn [from_string_loop]. rewrite Hd.
    assert (Hd0 : 0 <= d) by (apply decode_char_recognized in Hd; lia).
    pose proof (from_native_wf W M Hcfg N d Hd0) as Wd.
    pose proof (from_native_value W M Hcfg N d Hd0) as Vd.
    pose proof (mul_wf W M Hcfg N _ _ Wd Wp ltac:(lia)) as Wt.
    pose proof (mul_value W M Hcfg N _ _ Wd Wp ltac:(lia)) as Vt.
    pose proof (add_wf W M Hcfg N _ _ Wr Wt) as Wr1.
    pose proof (add_value W M Hcfg N _ _ Wr Wt) as Vr1.
    pose proof (mul_wf W M Hcfg N _ _ Wp Wbn ltac:(lia)) as Wp1.
    pose proof (mul_value W M Hcfg N _ _ Wp Wbn ltac:(lia)) as Vp1.
    destruct (IH _ _ Wr1 Wp1) as (result' & Hres & Wres & Vres).
    exists result'. split; [exact Hres|]. split; [exact Wres|].
    rewrite Vres, Vr1, Vp1, Vt, Vd. cbn [horner].
    set (C := base M ^ Z.of_nat N) in *.
    set (vr := value M result). set (vp := value M power).
    set (vb := value M bn). set (h := horner vb ds).
    replace (vr + vp * (d + vb * h)) with (vr + d * vp + vp * vb * h) by ring.
    apply eqm_add; [lia | | apply eqm_mul; [lia | apply Z.mod_mod; lia
                                          | reflexivity]].
    rewrite Z.mod_mod by lia.
    apply eqm_add; [lia | reflexivity |].
    rewrite Z.mod_mod by lia.
    apply eqm_mul; [lia | apply Z.mod_mod; lia | reflexivity].
Qed.

(** X15: when every character of the input decodes, to the digit values
    [ds] from the first character to the last, [from_string] returns a
    number of the type whose stored value is the value of those digits in
    the chosen base, modulo the capacity: an input too long for the type
    is not refused, it wraps around. *)
Theorem from_string_value (W M : Z) (N : nat) (s : string)
    (sb : string_base) (ds : list Z) :
  digit_config W M -> index_safe N ->
  Forall2 (fun c d => decode_char sb c = Some d)
          (list_ascii_of_string s) ds ->
  exists r,
    from_string W M N s sb = Some r
    /\ well_formed M N r
    /\ value M r
       = horner (to_underlying sb) (rev ds) mod base M ^ Z.of_nat N.
Proof.
  intros Hcfg HN Hds.
  pose proof (base_pow_pos W M Hcfg (Z.of_nat N) ltac:(lia)) as HC.
  assert (Hsb : 0 <= to_underlying sb) by (destruct sb; simpl; lia).
  destruct (from_string_loop_decoded W M N sb
              (rev (list_ascii_of_string s)) (rev ds)
              (zero N) (from_native W M N 1)
              (from_native W M N (to_underlying sb)) Hcfg HN)
    as (r & Hr & Wr & Vr).
  - apply (zero_wf W M Hcfg).
  - apply (from_native_wf W M Hcfg). lia.
  - apply (from_native_wf W M Hcfg). exact Hsb.
  - apply Forall2_rev_rev. exact Hds.
  - exists r. split; [exact Hr|]. split; [exact Wr|].
    rewrite Vr, (value_zero M N), Z.add_0_l.
    rewrite !(from_native_value W M Hcfg) by lia.
    rewrite Zmult_mod_idemp_l, Z.mul_1_l. apply horner_mod. lia.
Qed.

Lemma from_string_value_witness :
  exists r,
    from_string 8 255 1 "1Ff" hexadecimal = Some r
    /\ well_formed 255 1 r
    /\ value 255 r
       = horner (to_underlying hexadecimal) (rev [1; 15; 15])
         mod base 255 ^ Z.of_nat 1.
Proof.
  apply (from_string_value 8 255 1 "1Ff" hexadecimal [1; 15; 15]).
  - unfold digit_config. lia.
  - unfold index_safe. simpl. lia.
  - repeat constructor.
Defined.



(** ** The signed wrapper *)

(** X17: a native signed value [x] of [w] bits, the least value of the
    type excepted, whose absolute value is below the capacity is stored
    by [integer(T value)] as its sign and its absolute value, with the
    canonical zero, and the conversion [operator T()] returns [x]
    again. *)
Theorem integer_native_round_trip (W M : Z) (N : nat) (w x : Z) :
  digit_config W M -> 0 < w ->
  - 2 ^ (w - 1) < x < 2 ^ (w - 1) ->
  Z.abs x < base M ^ Z.of_nat N ->
  signed_value M (integer_of_native W M N w x) = x
  /\ canonical M (integer_of_native W M N w x)
  /\ integer_to_native W M w (integer_of_native W M N w x) = Some x.
Proof.
  intros Hcfg Hw Hx Hfit.
  assert (Hpow : 2 ^ w = 2 * 2 ^ (w - 1)).
  { rewrite <- Z.pow_succ_r by lia. f_equal. lia. }
  assert (Hhalf : 0 < 2 ^ (w - 1)) by (apply Z.pow_pos_nonneg; lia).
  remember (Z.abs x) as m eqn:Em.
  assert (Hm : 0 <= m < 2 ^ (w - 1)) by lia.
  assert (Hmag : value M (from_native W M N m) = m).
  { rewrite (from_native_value W M Hcfg) by lia. apply Z.mod_small. lia. }
  pose proof (from_native_wf W M Hcfg N m ltac:(lia)) as Wm.
  assert (Hnat : to_native W M w (from_native W M N m) = m).
  { rewrite (to_native_fits W M Hcfg N w) by (assumption || lia).
    exact Hmag. }
  assert (Hsig : to_signed w m = m).
  { unfold to_signed. rewrite wrap_small by lia.
    replace (m <? 2 ^ (w - 1)) with true by (symmetry; apply Z.ltb_lt; lia).
    reflexivity. }
  unfold integer_of_native, integer_to_native, signed_value, canonical.
  destruct (x >=? 0) eqn:Es; cbn [positive_ magnitude_].
  - assert (Hxm : x = m) by lia. rewrite Hxm.
    rewrite wrap_small by lia. rewrite Hnat, Hmag, Hsig.
    split; [reflexivity|]. split; reflexivity.
  - assert (Hxm : x * -1 = m) by lia. rewrite Hxm.
    rewrite wrap_small by lia. rewrite Hnat, Hmag, Hsig.
    split; [lia|]. split; [intros Hz; lia|].
    replace (m =? - 2 ^ (w - 1)) with false
      by (symmetry; apply Z.eqb_neq; lia).
    rewrite andb_false_r. f_equal.
    unfold to_signed, wrap.
    replace (m * -1) with (x + 2 ^ w + -1 * 2 ^ w) by lia.
    rewrite Z_mod_plus_full, Z.mod_small by lia.
    replace (x + 2 ^ w <? 2 ^ (w - 1)) with false
      by (symmetry; apply Z.ltb_ge; lia).
    lia.
Qed.

Lemma integer_native_round_trip_witness :
  signed_value 255 (integer_of_native 8 255 2 32 (-1000)) = -1000
  /\ canonical 255 (integer_of_native 8 255 2 32 (-1000))
  /\ integer_to_native 8 255 32 (integer_of_native 8 255 2 32 (-1000))
     = Some (-1000).
Proof.
  apply (integer_native_round_trip 8 255 2 32 (-1000)).
  - unfold digit_config. lia.
  - lia.
  - lia.
  - unfold base. simpl. lia.
Defined.

(** X18: in terms of the integers they stand for, unary [operator-]
    negates, and binary [operator+], [operator-] and [operator*] return
    the exact sum, difference and product whenever the absolute value of
    that result is below the capacity; a negative zero operand counts as
    zero. *)
Theorem integer_ring_values (W M : Z) (N : nat) (x y : integer) :
  digit_config W M -> unsigned_safe M -> index_safe N ->
  well_formed M N (magnitude_ x) -> well_formed M N (magnitude_ y) ->
  signed_value M (integer_neg W M x) = - signed_value M x
  /\ (Z.abs (signed_value M x + signed_value M y) < base M ^ Z.of_nat N ->
      signed_value M (integer_add W M x y)
      = signed_value M x + signed_value M y)
  /\ (Z.abs (signed_value M x - signed_value M y) < base M ^ Z.of_nat N ->
      signed_value M (integer_sub W M x y)
      = signed_value M x - signed_value M y)
  /\ (Z.abs (signed_value M x * signed_value M y) < base M ^ Z.of_nat N ->
      signed_value M (integer_mul W M x y)
      = signed_value M x * signed_value M y).
Proof.
  intros Hcfg Hsafe HN Wx Wy.
  destruct (integer_neg_value W M Hcfg N y Wy) as [Vn Wn].
  split; [apply (integer_neg_value W M Hcfg N x Wx)|].
  split; [|split].
  - intros Hfit.
    apply (integer_add_value W M Hcfg Hsafe N x y Wx Wy Hfit).
  - intros Hfit. unfold integer_sub.
    destruct (integer_add_value W M Hcfg Hsafe N x (integer_neg W M y) Wx Wn)
      as [Vs _]; [rewrite Vn; exact Hfit|].
    rewrite Vs, Vn. lia.
  - intros Hfit.
    apply (integer_mul_value W M Hcfg N x y HN Wx Wy Hfit).
Qed.

Lemma integer_ring_values_witness :
  signed_value 9 (integer_neg 8 9 (Integer false [0; 7])) = - signed_value 9 (Integer false [0; 7])
  /\ (Z.abs (signed_value 9 (Integer false [0; 7]) + signed_value 9 (Integer true [1; 2]))
        < base 9 ^ Z.of_nat 2 ->
      signed_value 9 (integer_add 8 9 (Integer false [0; 7]) (Integer true [1; 2]))
      = signed_value 9 (Integer false [0; 7]) + signed_value 9 (Integer true [1; 2]))
  /\ (Z.abs (signed_value 9 (Integer false [0; 7]) - signed_value 9 (Integer true [1; 2]))
        < base 9 ^ Z.of_nat 2 ->
      signed_value 9 (integer_sub 8 9 (Integer false [0; 7]) (Integer true [1; 2]))
      = signed_value 9 (Integer false [0; 7]) - signed_value 9 (Integer true [1; 2]))
  /\ (Z.abs (signed_value 9 (Integer false [0; 7]) * signed_value 9 (Integer true [1; 2]))
        < base 9 ^ Z.of_nat 2 ->
      signed_value 9 (integer_mul 8 9 (Integer false [0; 7]) (Integer true [1; 2]))
      = signed_value 9 (Integer false [0; 7]) * signed_value 9 (Integer true [1; 2])).
Proof.
  apply (integer_ring_values 8 9 2 (Integer false [0; 7]) (Integer true [1; 2])).
  - unfold digit_config. lia.
  - unfold unsigned_safe. lia.
  - unfold index_safe. simpl. lia.
  - split; [reflexivity | repeat constructor; lia].
  - split; [reflexivity | repeat constructor; lia].
Defined.

(** X19: when no digit plus one overflows [unsigned], the signed
    [operator/] and [operator%] end without a fault and truncate toward
    zero: the quotient and the remainder stand for the integers
    [Z.quot] and [Z.rem] of the operands, so the remainder has the sign of
    the dividend, a division by zero gives zero and a modulus by zero the
    dividend. *)
Theorem integer_div_mod_truncate (W M : Z) (N : nat) (x y : integer) :
  digit_config W M -> unsigned_safe M -> index_safe N -> (0 < N)%nat ->
  well_formed M N (magnitude_ x) -> well_formed M N (magnitude_ y) ->
  exists q r,
    integer_div W M x y = Some q /\ integer_mod W M x y = Some r
    /\ signed_value M q = Z.quot (signed_value M x) (signed_value M y)
    /\ signed_value M r = Z.rem (signed_value M x) (signed_value M y)
    /\ signed_value M x = signed_value M y * signed_value M q + signed_value M r.
Proof.
  intros Hcfg Hsafe HN Hpos Wx Wy.
  destruct (integer_div_value W M Hcfg Hsafe N x y HN Hpos Wx Wy)
    as (q & Hq & _ & Vq).
  destruct (integer_mod_value W M Hcfg Hsafe N x y HN Hpos Wx Wy)
    as (r & Hr & _ & Vr).
  exists q, r. repeat (split; [assumption|]).
  rewrite Vq, Vr. apply Z.quot_rem'.
Qed.

Lemma integer_div_mod_truncate_witness :
  exists q r,
    integer_div 8 9 (Integer false [1; 7]) (Integer true [0; 5]) = Some q
    /\ integer_mod 8 9 (Integer false [1; 7]) (Integer true [0; 5]) = Some r
    /\ signed_value 9 q
       = Z.quot (signed_value 9 (Integer false [1; 7]))
                (signed_value 9 (Integer true [0; 5]))
    /\ signed_value 9 r
       = Z.rem (signed_value 9 (Integer false [1; 7]))
               (signed_value 9 (Integer true [0; 5]))
    /\ signed_value 9 (Integer false [1; 7])
       = signed_value 9 (Integer true [0; 5]) * signed_value 9 q
         + signed_value 9 r.
Proof.
  apply (integer_div_mod_truncate 8 9 2
           (Integer false [1; 7]) (Integer true [0; 5])).
  - unfold digit_config. lia.
  - unfold unsigned_safe. lia.
  - unfold index_safe. simpl. lia.
  - lia.
  - split; [reflexivity | repeat constructor; lia].
  - split; [reflexivity | repeat constructor; lia].
Defined.

(** X20: prefix [operator++] and [operator--] of the wrapper move the
    integer it stands for up and down by one as long as the result stays
    below the capacity in absolute value, through zero as well. *)
Theorem integer_step_values (W M : Z) (N : nat) (x : integer) :
  digit_config W M -> unsigned_safe M -> (0 < N)%nat ->
  well_formed M N (magnitude_ x) ->
  (Z.abs (signed_value M x + 1) < base M ^ Z.of_nat N ->
   signed_value M (integer_increment W M x) = signed_value M x + 1)
  /\ (Z.abs (signed_value M x - 1) < base M ^ Z.of_nat N ->
      signed_value M (integer_decrement W M x) = signed_value M x - 1).
Proof.
  intros Hcfg Hsafe Hpos Wx.
  pose proof (from_native_wf W M Hcfg N 1 ltac:(lia)) as W1.
  pose proof (value_one W M Hcfg N Hpos) as V1.
  set (one := Integer true (from_native W M N 1)).
  assert (Wone : well_formed M N (magnitude_ one)) by exact W1.
  assert (Vone : signed_value M one = 1) by exact V1.
  destruct (integer_neg_value W M Hcfg N one Wone) as [Vn Wn].
  unfold integer_increment, integer_decrement, integer_sub.
  destruct (Wx) as [-> _]. rewrite integer_one. fold one.
  split; intros Hfit.
  - destruct (integer_add_value W M Hcfg Hsafe N x one Wx Wone) as [Vs _];
      [rewrite Vone; exact Hfit|].
    rewrite Vs, Vone. reflexivity.
  - destruct (integer_add_value W M Hcfg Hsafe N x (integer_neg W M one)
                Wx Wn) as [Vs _]; [rewrite Vn, Vone; exact Hfit|].
    rewrite Vs, Vn, Vone. lia.
Qed.

Lemma integer_step_values_witness :
  (Z.abs (signed_value 9 (Integer false [0; 1]) + 1) < base 9 ^ Z.of_nat 2 ->
   signed_value 9 (integer_increment 8 9 (Integer false [0; 1]))
   = signed_value 9 (Integer false [0; 1]) + 1)
  /\ (Z.abs (signed_value 9 (Integer false [0; 1]) - 1) < base 9 ^ Z.of_nat 2 ->
      signed_value 9 (integer_decrement 8 9 (Integer false [0; 1]))
      = signed_value 9 (Integer false [0; 1]) - 1).
Proof.
  apply (integer_step_values 8 9 2 (Integer false [0; 1])).
  - unfold digit_config. lia.
  - unfold unsigned_safe. lia.
  - lia.
  - split; [reflexivity | repeat constructor; lia].
Defined.

(** X21: unary [operator-] applied twice returns the number it started
    from, sign flag and digits, and unary [operator+] does not return its
    operand but its absolute value: the sign flag is set to positive. *)
Theorem integer_neg_involutive (W M : Z) (N : nat) (x : integer) :
  digit_config W M -> well_formed M N (magnitude_ x) ->
  integer_neg W M (integer_neg W M x) = x
  /\ signed_value M (integer_plus x) = Z.abs (signed_value M x)
  /\ positive_ (integer_plus x) = true.
Proof.
  intros Hcfg Wx. destruct x as [px mx]. cbn [magnitude_] in Wx.
  pose proof (value_bound W M Hcfg N mx Wx) as Hx.
  split; [|split; [|reflexivity]].
  - unfold integer_neg. cbn [magnitude_ positive_].
    rewrite (eqb_zero_value W M Hcfg N mx Wx).
    destruct (value M mx =? 0) eqn:E; cbn [negb magnitude_ positive_].
    + rewrite (eqb_zero_value W M Hcfg N mx Wx), E. reflexivity.
    + rewrite (eqb_zero_value W M Hcfg N mx Wx), E. cbn [negb].
      rewrite Bool.negb_involutive. reflexivity.
  - unfold integer_plus, signed_value. cbn [magnitude_ positive_].
    destruct px; lia.
Qed.

Lemma integer_neg_involutive_witness :
  integer_neg 8 9 (integer_neg 8 9 (Integer false [0; 7])) = Integer false [0; 7]
  /\ signed_value 9 (integer_plus (Integer false [0; 7]))
     = Z.abs (signed_value 9 (Integer false [0; 7]))
  /\ positive_ (integer_plus (Integer false [0; 7])) = true.
Proof.
  apply (integer_neg_involutive 8 9 2 (Integer false [0; 7])).
  - unfold digit_config. lia.
  - split; [reflexivity | repeat constructor; lia].
Defined.
